(** * Background vault analyzer: a shallow embedding and its properties

    The development follows [background_vault_analyzer.py]: the analyzer
    gateway ([OllamaClient]), the result store ([DatabaseManager]) and the
    background service ([BackgroundVaultAnalyzer]) with its scanner, its
    priority task queue, the connection discovery cycle and the auto-apply
    policy.

    Conventions of the model.
    - A Python [str] used as a name, a key or a JSON string is a [string];
      a text buffer that the code scans (a file's contents, the analyzer's
      reply) is a [text], a list of characters.  The characters are the
      code points below U+0100, on which [lower] and [strip] are Python's.
      A path is the string that [pathlib] prints for it.
    - Python numbers ([int] and [float]) are rationals [Q], and the float
      NaN, which a reply can hold and for which every comparison is false,
      is a value of its own; rounding and the infinities of IEEE floats
      are outside the model.
    - A [dict] decoded from JSON is an association list in insertion order.
    - The file system, the clock and the external analyzer are the world
      the service runs in: the vault is a finite map from paths to files,
      [time.time()] reads a clock oracle, the analyzer's replies come from
      a reply oracle. *)

From Stdlib Require Import ZArith QArith Bool List Ascii String Sorted Lia.
From stdpp Require Import base option gmap strings.
Import ListNotations.

Local Open Scope string_scope.
Local Open Scope list_scope.
Local Open Scope Z_scope.
Set Warnings "-register-all".

(** ** Text: Python [str] operations on character lists *)

Abbreviation text := (list ascii).

Definition txt (s : string) : text := list_ascii_of_string s.

Module Text.

Definition LF : ascii := "010"%char.
Definition DQ : ascii := "034"%char.

(** [c.lower()]: the capital letters are A to Z and, above U+007F, those
    from U+00C0 to U+00DE, the sign U+00D7 apart. *)
Definition ascii_lower (c : ascii) : ascii :=
  let n := nat_of_ascii c in
  if ((65 <=? n)%nat && (n <=? 90)%nat)
     || ((192 <=? n)%nat && (n <=? 222)%nat && negb (n =? 215)%nat)
  then ascii_of_nat (n + 32) else c.

(** [s.lower()] *)
Definition lower (s : text) : text := map ascii_lower s.

(** [s.startswith(p)] *)
Fixpoint starts_with (p s : text) : bool :=
  match p, s with
  | [], _ => true
  | _ :: _, [] => false
  | a :: p', b :: s' => Ascii.eqb a b && starts_with p' s'
  end.

(** [p in s] *)
Fixpoint contains (p s : text) : bool :=
  starts_with p s ||
  match s with
  | [] => false
  | _ :: s' => contains p s'
  end.

(** [s.replace(old, new)] for a non-empty [old]: every occurrence, left to
    right, without overlap.  [skip] counts the characters of an occurrence
    that was just replaced and that are still to be passed over. *)
Fixpoint replace_from (old new : text) (skip : nat) (s : text) : text :=
  match s with
  | [] => []
  | c :: s' =>
      match skip with
      | S k => replace_from old new k s'
      | O =>
          if starts_with old s
          then new ++ replace_from old new (length old - 1) s'
          else c :: replace_from old new 0 s'
      end
  end.

Definition replace (old new s : text) : text := replace_from old new 0 s.

(** [s.count(old)] for a non-empty [old]: the occurrences that [replace]
    replaces. *)
Fixpoint count_from (old : text) (skip : nat) (s : text) : nat :=
  match s with
  | [] => O
  | _ :: s' =>
      match skip with
      | S k => count_from old k s'
      | O =>
          if starts_with old s
          then S (count_from old (length old - 1) s')
          else count_from old 0 s'
      end
  end.

Definition count (old s : text) : nat := count_from old 0 s.

(** [c.isspace()]: the white space below U+0100, with U+0085 and
    U+00A0. *)
Definition is_space (c : ascii) : bool :=
  let n := nat_of_ascii c in
  ((9 <=? n)%nat && (n <=? 13)%nat) || ((28 <=? n)%nat && (n <=? 32)%nat)
  || (n =? 133)%nat || (n =? 160)%nat.

Fixpoint lstrip (s : text) : text :=
  match s with
  | c :: s' => if is_space c then lstrip s' else s
  | [] => []
  end.

(** [s.rstrip()] *)
Definition rstrip (s : text) : text := rev (lstrip (rev s)).

(** [s.strip()] *)
Definition strip (s : text) : text := rstrip (lstrip s).

Fixpoint eqb (a b : text) : bool :=
  match a, b with
  | [], [] => true
  | c :: a', d :: b' => Ascii.eqb c d && eqb a' b'
  | _, _ => false
  end.

(** [s.rfind(c)], as the index of the last [c] if any. *)
Fixpoint rfind (c : ascii) (s : text) : option nat :=
  match s with
  | [] => None
  | d :: s' =>
      match rfind c s' with
      | Some i => Some (S i)
      | None => if Ascii.eqb c d then Some O else None
      end
  end.

End Text.

(** ** Paths: the parts of [pathlib] the service uses *)

Module PurePath.

(** [Path(p).name]: the final component. *)
Definition name (p : string) : text :=
  match Text.rfind "/"%char (txt p) with
  | Some i => skipn (S i) (txt p)
  | None => txt p
  end.

(** The index of the dot that starts the suffix: the last dot of the name,
    unless it is the first or the last character. *)
Definition suffix_dot (p : string) : option nat :=
  match Text.rfind "."%char (name p) with
  | Some i => if (0 <? i)%nat && (i <? length (name p) - 1)%nat then Some i else None
  | None => None
  end.

(** [Path(p).suffix] *)
Definition suffix (p : string) : text :=
  match suffix_dot p with
  | Some i => skipn i (name p)
  | None => []
  end.

(** [Path(p).stem] *)
Definition stem (p : string) : text :=
  match suffix_dot p with
  | Some i => firstn i (name p)
  | None => name p
  end.

End PurePath.

(** ** Python values

    The values [json.loads] produces, which the service passes around
    without checking their types. *)

Inductive value : Type :=
  | VNone
  | VBool (b : bool)
  | VNum (q : Q)
  | VStr (s : string)
  | VList (l : list value)
  | VDict (d : list (string * value))
  | VNaN.

Module Py.

(** Truthiness, as tested by [if x:]. *)
Definition truthy (v : value) : bool :=
  match v with
  | VNone => false
  | VBool b => b
  | VNum q => negb (Qeq_bool q 0)
  | VStr s => negb (String.eqb s "")
  | VList l => match l with [] => false | _ => true end
  | VDict d => match d with [] => false | _ => true end
  | VNaN => true
  end.

(** A number as a comparison sees it: a rational, or NaN. *)
Inductive number :=
  | Finite (q : Q)
  | NaN.

(** The number a value stands for in a comparison: [bool] is a subtype of
    [int].  [None]: comparing the value with a number raises TypeError. *)
Definition num_of (v : value) : option number :=
  match v with
  | VNum q => Some (Finite q)
  | VBool true => Some (Finite 1)
  | VBool false => Some (Finite 0)
  | VNaN => Some NaN
  | _ => None
  end.

Definition Qlt_bool (a b : Q) : bool := negb (Qle_bool b a).

(** [v < q] and [v > q] for a number [q]; [None] is TypeError.  With
    NaN on one side both are false. *)
Definition lt_num (v : value) (q : Q) : option bool :=
  match num_of v with
  | Some (Finite x) => Some (Qlt_bool x q)
  | Some NaN => Some false
  | None => None
  end.

Definition gt_num (v : value) (q : Q) : option bool :=
  match num_of v with
  | Some (Finite x) => Some (Qlt_bool q x)
  | Some NaN => Some false
  | None => None
  end.

(** [v == s] for a string [s]. *)
Definition eq_str (v : value) (s : string) : bool :=
  match v with
  | VStr s' => String.eqb s' s
  | _ => false
  end.

(** [v in l] for a list of strings [l]. *)
Definition in_strs (v : value) (l : list string) : bool :=
  existsb (eq_str v) l.

(** [d.get(k)] *)
Fixpoint dict_get (d : list (string * value)) (k : string) : option value :=
  match d with
  | [] => None
  | (k', v) :: d' => if String.eqb k' k then Some v else dict_get d' k
  end.

(** [d.get(k, default)] *)
Definition get (d : list (string * value)) (k : string) (default : value) : value :=
  match dict_get d k with
  | Some v => v
  | None => default
  end.

(** [d[k] = v]: a key keeps its first position. *)
Fixpoint dict_set (d : list (string * value)) (k : string) (v : value)
  : list (string * value) :=
  match d with
  | [] => [(k, v)]
  | (k', v') :: d' =>
      if String.eqb k' k then (k, v) :: d' else (k', v') :: dict_set d' k v
  end.

End Py.

(** ** [json.loads]

    A decoder for the JSON grammar over 8-bit text, standing for the
    standard library's, the constant NaN included.  Escapes [\uXXXX]
    above U+00FF and the constants Infinity and -Infinity, which Python
    also accepts, are not decoded. *)

Module Json.

Definition is_ws (c : ascii) : bool :=
  match nat_of_ascii c with
  | 32%nat | 9%nat | 10%nat | 13%nat => true
  | _ => false
  end.

Fixpoint skip_ws (s : text) : text :=
  match s with
  | c :: s' => if is_ws c then skip_ws s' else s
  | [] => []
  end.

Definition digit_of (c : ascii) : option Z :=
  let n := nat_of_ascii c in
  if (48 <=? n)%nat && (n <=? 57)%nat then Some (Z.of_nat (n - 48)) else None.

Definition hex_of (c : ascii) : option nat :=
  let n := nat_of_ascii c in
  if (48 <=? n)%nat && (n <=? 57)%nat then Some (n - 48)%nat
  else if (65 <=? n)%nat && (n <=? 70)%nat then Some (n - 55)%nat
  else if (97 <=? n)%nat && (n <=? 102)%nat then Some (n - 87)%nat
  else None.

(** The digits at the front of [s]: their value continuing from [acc],
    how many there are, and what follows them. *)
Fixpoint digits (acc : Z) (n : nat) (s : text) : Z * nat * text :=
  match s with
  | c :: s' =>
      match digit_of c with
      | Some d => digits (10 * acc + d) (S n) s'
      | None => (acc, n, s)
      end
  | [] => (acc, n, s)
  end.

(** The integer part: a single zero, or digits that start with a non-zero. *)
Definition int_part (s : text) : option (Z * text) :=
  match s with
  | c :: s' =>
      match digit_of c with
      | Some 0 => Some (0, s')
      | Some d => let '(v, _, r) := digits d 1 s' in Some (v, r)
      | None => None
      end
  | [] => None
  end.

(** [s] begins with the character [c], after which comes the result. *)
Definition after (c : ascii) (s : text) : option text :=
  match s with
  | c' :: s' => if Ascii.eqb c' c then Some s' else None
  | [] => None
  end.

(** The optional fraction, a dot and digits: its numerator and number of
    digits. *)
Definition frac_part (s : text) : Z * nat * text :=
  match after "." s with
  | Some s' =>
      match digits 0 0 s' with
      | (_, O, _) => (0, O, s)
      | r => r
      end
  | None => (0, O, s)
  end.

(** The optional exponent: [e] or [E], an optional sign, digits. *)
Definition exp_part (s : text) : Z * text :=
  let unsigned (sgn : Z) (s' : text) :=
    match digits 0 0 s' with
    | (_, O, _) => (0, s)
    | (v, _, r) => (sgn * v, r)
    end in
  match s with
  | c :: s' =>
      if Ascii.eqb c "e" || Ascii.eqb c "E" then
        match after "-" s' with
        | Some s'' => unsigned (-1) s''
        | None =>
            match after "+" s' with
            | Some s'' => unsigned 1 s''
            | None => unsigned 1 s'
            end
        end
      else (0, s)
  | [] => (0, s)
  end.

Definition pow10 (e : Z) : Q :=
  if 0 <=? e then inject_Z (10 ^ e) else / inject_Z (10 ^ (- e)).

Definition number (s : text) : option (Q * text) :=
  let '(sgn, s0) :=
    match after "-" s with
    | Some s' => ((-1)%Z, s')
    | None => (1, s)
    end in
  match int_part s0 with
  | Some (i, s1) =>
      let '(f, k, s2) := frac_part s1 in
      let '(e, s3) := exp_part s2 in
      let mantissa := (inject_Z i + inject_Z f * pow10 (- Z.of_nat k))%Q in
      Some (Qred (inject_Z sgn * mantissa * pow10 e), s3)
  | None => None
  end.

(** The body of a string, after its opening quote. *)
Fixpoint string_body (s : text) : option (string * text) :=
  let cons (c : ascii) (r : option (string * text)) :=
    match r with
    | Some (str, rest) => Some (String c str, rest)
    | None => None
    end in
  match s with
  | [] => None
  | c :: s' =>
      if Ascii.eqb c Text.DQ then Some ("", s')
      else if Ascii.eqb c "\" then
        match s' with
        | e :: s'' =>
            if Ascii.eqb e Text.DQ then cons Text.DQ (string_body s'')
            else if Ascii.eqb e "\" then cons "\"%char (string_body s'')
            else if Ascii.eqb e "/" then cons "/"%char (string_body s'')
            else if Ascii.eqb e "b" then cons "008"%char (string_body s'')
            else if Ascii.eqb e "f" then cons "012"%char (string_body s'')
            else if Ascii.eqb e "n" then cons "010"%char (string_body s'')
            else if Ascii.eqb e "r" then cons "013"%char (string_body s'')
            else if Ascii.eqb e "t" then cons "009"%char (string_body s'')
            else if Ascii.eqb e "u" then
              match s'' with
              | h1 :: h2 :: h3 :: h4 :: s4 =>
                  match hex_of h1, hex_of h2, hex_of h3, hex_of h4 with
                  | Some O, Some O, Some a, Some b =>
                      cons (ascii_of_nat (16 * a + b)) (string_body s4)
                  | _, _, _, _ => None
                  end
              | _ => None
              end
            else None
        | [] => None
        end
      else if (nat_of_ascii c <? 32)%nat then None
      else cons c (string_body s')
  end.

Definition literal (w : string) (v : value) (s : text) : option (value * text) :=
  if Text.starts_with (txt w) s then Some (v, skipn (String.length w) s) else None.

Fixpoint parse_value (fuel : nat) (s : text) : option (value * text) :=
  match fuel with
  | O => None
  | S fuel' =>
      match skip_ws s with
      | [] => None
      | c :: r =>
          if Ascii.eqb c "{" then
            match after "}" (skip_ws r) with
            | Some r' => Some (VDict [], r')
            | None => parse_members fuel' [] r
            end
          else if Ascii.eqb c "[" then
            match after "]" (skip_ws r) with
            | Some r' => Some (VList [], r')
            | None => parse_elements fuel' [] r
            end
          else if Ascii.eqb c Text.DQ then
            match string_body r with
            | Some (str, r') => Some (VStr str, r')
            | None => None
            end
          else if Ascii.eqb c "t" then literal "true" (VBool true) (c :: r)
          else if Ascii.eqb c "f" then literal "false" (VBool false) (c :: r)
          else if Ascii.eqb c "n" then literal "null" VNone (c :: r)
          else if Ascii.eqb c "N" then literal "NaN" VNaN (c :: r)
          else
            match number (c :: r) with
            | Some (q, r') => Some (VNum q, r')
            | None => None
            end
      end
  end
with parse_members (fuel : nat) (acc : list (string * value)) (s : text)
  : option (value * text) :=
  match fuel with
  | O => None
  | S fuel' =>
      match after Text.DQ (skip_ws s) with
      | None => None
      | Some r =>
          match string_body r with
          | None => None
          | Some (k, r1) =>
              match after ":" (skip_ws r1) with
              | None => None
              | Some r2 =>
                  match parse_value fuel' r2 with
                  | None => None
                  | Some (v, r3) =>
                      match after "," (skip_ws r3) with
                      | Some r4 => parse_members fuel' (Py.dict_set acc k v) r4
                      | None =>
                          match after "}" (skip_ws r3) with
                          | Some r4 => Some (VDict (Py.dict_set acc k v), r4)
                          | None => None
                          end
                      end
                  end
              end
          end
      end
  end
with parse_elements (fuel : nat) (acc : list value) (s : text)
  : option (value * text) :=
  match fuel with
  | O => None
  | S fuel' =>
      match parse_value fuel' s with
      | None => None
      | Some (v, r) =>
          match after "," (skip_ws r) with
          | Some r' => parse_elements fuel' (acc ++ [v]) r'
          | None =>
              match after "]" (skip_ws r) with
              | Some r' => Some (VList (acc ++ [v]), r')
              | None => None
              end
          end
      end
  end.

(** [json.loads(s)]; [None] is JSONDecodeError.  The fuel is more than the
    decoder can use on [s]: see [loads_enough_fuel]. *)
Definition loads (s : text) : option value :=
  match parse_value (S (length s)) s with
  | Some (v, r) => match skip_ws r with [] => Some v | _ => None end
  | None => None
  end.

End Json.

(** ** The data classes *)

Record AnalysisResult := {
  ar_file_path : string;
  primary_topic : value;
  content_type : value;
  key_concepts : value;
  temporal_markers : value;
  project_references : value;
  relationship_hints : value;
  ar_confidence : value;
  analyzed_at : Q
}.

Record Connection := {
  source_file : string;
  target_file : string;
  connection_type : value;
  strength_score : value;
  confidence : value;
  reason : value;
  suggested_link : value;
  auto_applied : bool;
  created_at : Q
}.

(** [connection.auto_applied = b] *)
Definition set_auto_applied (b : bool) (c : Connection) : Connection :=
  {| source_file := source_file c; target_file := target_file c;
     connection_type := connection_type c; strength_score := strength_score c;
     confidence := confidence c; reason := reason c;
     suggested_link := suggested_link c; auto_applied := b;
     created_at := created_at c |}.

(** ** The world: files, clock reads and analyzer calls *)

Record File := {
  st_size : Z;               (* what [stat] reports, in bytes *)
  contents : option text;    (* its text, bytes that are not UTF-8 left
                                out; [None]: opening it raises *)
  decodes : bool;            (* [false]: some bytes are not UTF-8 *)
  writable : bool            (* [false]: writing it raises *)
}.

(** How one run of the [ollama] process ends. *)
Inductive Run :=
  | Exited (returncode : Z) (stdout : text)
  | TimedOut
  | Crashed.

Record World := {
  vault : gmap string File;
  clock_reads : nat;
  ollama_calls : nat
}.

Definition set_vault (v : gmap string File) (w : World) : World :=
  {| vault := v; clock_reads := clock_reads w; ollama_calls := ollama_calls w |}.

(** [path.exists()] *)
Definition exists_ (w : World) (p : string) : bool :=
  match vault w !! p with Some _ => true | None => false end.

(** [path.read_text(encoding='utf-8')]: it raises on bytes that are not
    UTF-8. *)
Definition read_text (w : World) (p : string) : option text :=
  match vault w !! p with
  | Some f => if decodes f then contents f else None
  | None => None
  end.

(** [path.read_text(encoding='utf-8', errors='ignore')] *)
Definition read_text_ignore (w : World) (p : string) : option text :=
  match vault w !! p with Some f => contents f | None => None end.

(** [path.write_text(content, encoding='utf-8')]; [None] when it raises. *)
Definition write_text (w : World) (p : string) (content : text) : option World :=
  match vault w !! p with
  | Some f =>
      if writable f
      then Some (set_vault (<[p := {| st_size := Z.of_nat (length content);
                                      contents := Some content;
                                      decodes := true;
                                      writable := true |}]> (vault w)) w)
      else None
  | None => None
  end.

(** ** OllamaClient *)

Module OllamaClient.

(** The pattern of [extract_json_from_response]: an opening brace,
    characters other than braces, any number of inner groups (an opening
    brace, characters other than braces, a closing brace, characters other
    than braces), and a closing brace.  [group_tail inner s] matches what
    follows the opening brace, [inner] telling whether an inner group is
    open; it gives the matched characters. *)
Fixpoint group_tail (inner : bool) (s : text) : option text :=
  match s with
  | [] => None
  | c :: s' =>
      if Ascii.eqb c "{" then
        if inner then None else option_map (cons c) (group_tail true s')
      else if Ascii.eqb c "}" then
        if inner then option_map (cons c) (group_tail false s') else Some [c]
      else option_map (cons c) (group_tail inner s')
  end.

(** The match of the pattern at the front of [s], if there is one. *)
Definition match_at (s : text) : option text :=
  match s with
  | c :: s' => if Ascii.eqb c "{" then option_map (cons c) (group_tail false s') else None
  | [] => None
  end.

(** [re.findall(json_pattern, s, re.DOTALL)]: the matches from left to
    right, the search resuming after each match.  [skip] counts the
    characters of the last match still to be passed over. *)
Fixpoint findall_from (skip : nat) (s : text) : list text :=
  match s with
  | [] => []
  | _ :: s' =>
      match skip with
      | S k => findall_from k s'
      | O =>
          match match_at s with
          | Some m => m :: findall_from (length m - 1) s'
          | None => findall_from 0 s'
          end
      end
  end.

Definition findall (s : text) : list text := findall_from 0 s.

(** The [for match in matches] loop. *)
Fixpoint first_loads (matches : list text) : value :=
  match matches with
  | [] => VNone
  | m :: rest =>
      match Json.loads m with
      | Some v => v
      | None => first_loads rest
      end
  end.

(** The result is a Python value, [VNone] being [None]. *)
Definition extract_json_from_response (response : option text) : value :=
  match response with
  | None => VNone
  | Some [] => VNone
  | Some r =>
      match Json.loads r with
      | Some v => v
      | None => first_loads (findall r)
      end
  end.

Section Oracles.

(** The value of the [n]-th [time.time()] and the outcome of the [n]-th
    run of the analyzer process. *)
Variable clock : nat -> Q.
Variable ollama : nat -> Run.

Definition time_time (w : World) : Q * World :=
  (clock (clock_reads w),
   {| vault := vault w; clock_reads := S (clock_reads w);
      ollama_calls := ollama_calls w |}).

(** The prompt is not modelled: the reply is the oracle's. *)
Definition call_ollama (w : World) : option text * World :=
  (match ollama (ollama_calls w) with
   | Exited 0 stdout => Some (Text.strip stdout)
   | _ => None
   end,
   {| vault := vault w; clock_reads := clock_reads w;
      ollama_calls := S (ollama_calls w) |}).

Definition analyze_file_content (w : World) (file_path : string)
  : option AnalysisResult * World :=
  match read_text w file_path with
  | None => (None, w)
  | Some content =>
      let (response, w1) := call_ollama w in
      let result_data := extract_json_from_response response in
      if Py.truthy result_data then
        match result_data with
        | VDict d =>
            let (now, w2) := time_time w1 in
            (Some {| ar_file_path := file_path;
                     primary_topic := Py.get d "primary_topic" (VStr "Unknown");
                     content_type := Py.get d "content_type" (VStr "unknown");
                     key_concepts := Py.get d "key_concepts" (VList []);
                     temporal_markers := Py.get d "temporal_markers" (VList []);
                     project_references := Py.get d "project_references" (VList []);
                     relationship_hints := Py.get d "relationship_hints" (VList []);
                     ar_confidence := Py.get d "confidence" (VNum (1 # 2));
                     analyzed_at := now |}, w2)
        | _ => (None, w1)      (* no [get] on it: the error is caught *)
        end
      else (None, w1)
  end.

Definition analyze_connection (w : World) (analysis_a analysis_b : AnalysisResult)
  : option Connection * World :=
  let (response, w1) := call_ollama w in
  let result_data := extract_json_from_response response in
  if Py.truthy result_data then
    match result_data with
    | VDict d =>
        match Py.gt_num (Py.get d "connection_score" (VNum 0)) 2 with
        | Some true =>
            let (now, w2) := time_time w1 in
            (Some {| source_file := ar_file_path analysis_a;
                     target_file := ar_file_path analysis_b;
                     connection_type := Py.get d "connection_type" (VStr "thematic");
                     strength_score := Py.get d "connection_score" (VNum 0);
                     confidence := Py.get d "confidence" (VNum (1 # 2));
                     reason := Py.get d "reason" (VStr "No reason provided");
                     suggested_link := Py.get d "suggested_link" VNone;
                     auto_applied := false;
                     created_at := now |}, w2)
        | Some false => (None, w1)
        | None => (None, w1)   (* the comparison raises: caught *)
        end
    | _ => (None, w1)
    end
  else (None, w1).

End Oracles.

End OllamaClient.

(** ** DatabaseManager

    The two tables the service uses, as lists of rows in insertion order. *)

Record AnalysisRow := {
  row_analysis : AnalysisResult;
  content_hash : option string
}.

Record ConnectionRow := {
  row_id : Z;
  row_connection : Connection;     (* the columns copied from the object *)
  applied_at : option Q
}.

Module DatabaseManager.

(** What [sqlite3] accepts as a parameter: lists and dicts are refused.
    (An [int] that does not fit 64 bits is refused too; the model, in
    which a number is a rational, has no such numbers apart.) *)
Definition bindable (v : value) : bool :=
  match v with
  | VList _ | VDict _ => false
  | _ => true
  end.

(** The cell that holds a bound value: SQLite stores a NaN as NULL. *)
Definition cell (v : value) : value :=
  match v with
  | VNaN => VNone
  | _ => v
  end.

(** The columns of a row as they are stored.  (The four lists of an
    analysis are stored as JSON texts and decoded when read.) *)
Definition stored_analysis (a : AnalysisResult) : AnalysisResult :=
  {| ar_file_path := ar_file_path a;
     primary_topic := cell (primary_topic a);
     content_type := cell (content_type a);
     key_concepts := key_concepts a;
     temporal_markers := temporal_markers a;
     project_references := project_references a;
     relationship_hints := relationship_hints a;
     ar_confidence := cell (ar_confidence a);
     analyzed_at := analyzed_at a |}.

Definition stored_connection (c : Connection) : Connection :=
  {| source_file := source_file c;
     target_file := target_file c;
     connection_type := cell (connection_type c);
     strength_score := cell (strength_score c);
     confidence := cell (confidence c);
     reason := cell (reason c);
     suggested_link := cell (suggested_link c);
     auto_applied := auto_applied c;
     created_at := created_at c |}.

(** The order of stored cells: NULL, then numbers, then text.  (A text
    cell that spells a number stays text here.) *)
Definition sql_rank (v : value) : nat :=
  match v with
  | VNone | VNaN => 0%nat
  | VNum _ | VBool _ => 1%nat
  | _ => 2%nat
  end.

Definition sql_compare (a b : value) : comparison :=
  match Py.num_of a, Py.num_of b with
  | Some (Py.Finite x), Some (Py.Finite y) => (x ?= y)%Q
  | _, _ =>
      match a, b with
      | VStr s, VStr t => String.compare s t
      | _, _ => Nat.compare (sql_rank a) (sql_rank b)
      end
  end.

(** [cell >= ?] for a number: unknown on NULL. *)
Definition sql_ge (cell : value) (bound : Q) : bool :=
  match cell with
  | VNone | VNaN => false
  | _ => match sql_compare cell (VNum bound) with Lt => false | _ => true end
  end.

(** ORDER BY: insertion of a row into rows sorted by [before]. *)
Fixpoint insert_by {A} (before : A -> A -> bool) (x : A) (l : list A) : list A :=
  match l with
  | [] => [x]
  | y :: l' => if before y x then y :: insert_by before x l' else x :: l
  end.

Definition order_by {A} (before : A -> A -> bool) (l : list A) : list A :=
  fold_right (insert_by before) [] l.

(** INSERT OR REPLACE on the primary key [file_path]; [None] when a
    parameter cannot be bound. *)
Definition save_analysis (table : list AnalysisRow) (analysis : AnalysisResult)
    (hash : option string) : option (list AnalysisRow) :=
  if bindable (primary_topic analysis) && bindable (content_type analysis)
     && bindable (ar_confidence analysis)
  then Some (List.filter (fun r => negb (String.eqb (ar_file_path (row_analysis r))
                                               (ar_file_path analysis))) table
             ++ [{| row_analysis := stored_analysis analysis; content_hash := hash |}])
  else None.

(** INSERT with an AUTOINCREMENT id; [applied_at] is not among the columns
    given, so it is NULL. *)
Definition save_connection (table : list ConnectionRow) (connection : Connection)
    : option (list ConnectionRow) :=
  if bindable (connection_type connection) && bindable (strength_score connection)
     && bindable (confidence connection) && bindable (reason connection)
     && bindable (suggested_link connection)
  then Some (table ++ [{| row_id := Z.of_nat (length table) + 1;
                          row_connection := stored_connection connection;
                          applied_at := None |}])
  else None.

(** SELECT ... ORDER BY analyzed_at DESC *)
Definition get_all_analyses (table : list AnalysisRow) : list AnalysisResult :=
  order_by (fun a b => Qle_bool (analyzed_at b) (analyzed_at a))
           (map row_analysis table).

Definition cell_ge (a b : value) : bool :=
  match sql_compare a b with Lt => false | _ => true end.

(** SELECT ... WHERE auto_applied = FALSE AND strength_score >= ? AND
    confidence >= ? ORDER BY strength_score DESC, confidence DESC *)
Definition get_pending_connections (table : list ConnectionRow)
    (min_score min_confidence : Q) : list Connection :=
  order_by (fun a b =>
              match sql_compare (strength_score a) (strength_score b) with
              | Gt => true
              | Eq => cell_ge (confidence a) (confidence b)
              | Lt => false
              end)
    (map row_connection
       (List.filter (fun r => negb (auto_applied (row_connection r))
                         && sql_ge (strength_score (row_connection r)) min_score
                         && sql_ge (confidence (row_connection r)) min_confidence)
               table)).

(** SELECT * FROM file_analysis WHERE file_path = ?, and [fetchone]: the
    row of the path, its lists decoded again.  A cell is read back as it
    was stored, which is what SQLite does for a text in a TEXT column and a
    number in a REAL column. *)
Definition get_analysis (table : list AnalysisRow) (file_path : string)
  : option AnalysisResult :=
  option_map row_analysis
    (List.find (fun r => String.eqb (ar_file_path (row_analysis r)) file_path) table).

End DatabaseManager.

(** ** The task queue: [queue.PriorityQueue] of tuples
    [(priority, -time.time(), task)]

    The queue keeps its tuples in a list that [heapq] orders as a binary
    heap, the children of the entry at [i] being at [2*i + 1] and
    [2*i + 2]; the operations are those of CPython's [heapq], which swap
    entries in place. *)

Record Task := {
  file_path : string;
  task_type : string;
  queued_at : Q
}.

Record Entry := {
  priority : Z;
  neg_time : Q;
  task : Task
}.

Module PriorityQueue.

(** [a == b] for two task dicts. *)
Definition task_eqb (a b : Task) : bool :=
  String.eqb (file_path a) (file_path b) && String.eqb (task_type a) (task_type b)
  && Qeq_bool (queued_at a) (queued_at b).

(** [a < b] for two of the tuples: the first components that differ
    decide.  When the priorities are equal and the times are equal, the
    task dicts are compared: equal dicts make the tuples equal, and [<]
    between dicts that differ raises TypeError, which is [None] here. *)
Definition lt (a b : Entry) : option bool :=
  if negb (priority a =? priority b) then Some (priority a <? priority b)
  else if negb (Qeq_bool (neg_time a) (neg_time b))
       then Some (Py.Qlt_bool (neg_time a) (neg_time b))
       else if task_eqb (task a) (task b) then Some false else None.

(** The list that holds the heap when a sift has ended, or when a
    comparison in it has raised. *)
Inductive Sift :=
  | Sifted (heap : list Entry)
  | TypeError (heap : list Entry).

Definition heap_of (r : Sift) : list Entry :=
  match r with Sifted heap => heap | TypeError heap => heap end.

(** [heapq]'s [siftdown]: the item at [pos] is swapped with its parent as
    long as it is lower.  The loop runs at most [pos] times. *)
Fixpoint siftdown_loop (turns : nat) (heap : list Entry) (startpos pos : nat) : Sift :=
  match turns with
  | O => Sifted heap
  | S turns' =>
      if (startpos <? pos)%nat then
        let parentpos := ((pos - 1) / 2)%nat in
        match heap !! pos, heap !! parentpos with
        | Some newitem, Some parent =>
            match lt newitem parent with
            | None => TypeError heap
            | Some false => Sifted heap
            | Some true =>
                siftdown_loop turns' (<[pos := parent]> (<[parentpos := newitem]> heap))
                              startpos parentpos
            end
        | _, _ => Sifted heap
        end
      else Sifted heap
  end.

Definition siftdown (heap : list Entry) (startpos pos : nat) : Sift :=
  siftdown_loop pos heap startpos pos.

(** The position of the lower child of the entry at [pos], which has a
    child: the left one, unless there is a right one and the left one is
    not lower than it.  [None]: comparing the two raised. *)
Definition lower_child (heap : list Entry) (pos : nat) : option nat :=
  let childpos := (2 * pos + 1)%nat in
  if (childpos + 1 <? length heap)%nat then
    match heap !! childpos, heap !! (childpos + 1)%nat with
    | Some a, Some b =>
        match lt a b with
        | Some true => Some childpos
        | Some false => Some (childpos + 1)%nat
        | None => None
        end
    | _, _ => Some childpos
    end
  else Some childpos.

(** [heapq]'s [siftup]: the lower child is moved up until a leaf is
    reached, where the item is left and sifted down again.  The loop runs
    fewer times than the heap has entries. *)
Fixpoint siftup_loop (turns : nat) (heap : list Entry) (startpos pos : nat) : Sift :=
  match turns with
  | O => siftdown heap startpos pos
  | S turns' =>
      if (pos <? length heap / 2)%nat then
        match lower_child heap pos with
        | None => TypeError heap
        | Some childpos =>
            match heap !! childpos, heap !! pos with
            | Some tmp1, Some tmp2 =>
                siftup_loop turns' (<[pos := tmp1]> (<[childpos := tmp2]> heap))
                            startpos childpos
            | _, _ => Sifted heap
            end
        end
      else siftdown heap startpos pos
  end.

Definition siftup (heap : list Entry) (pos : nat) : Sift :=
  siftup_loop (length heap) heap pos pos.

(** [heappush]: the item is appended, then sifted; when a comparison
    raises, the item stays where the sift has brought it. *)
Definition heappush (heap : list Entry) (item : Entry) : Sift :=
  siftdown (heap ++ [item]) 0 (length heap).

(** What [heappop] gives: the lowest item and the heap without it; or
    TypeError, when the first item has been taken out already and the
    heap is left without it; or IndexError on an empty heap. *)
Inductive Pop :=
  | Item (e : Entry) (heap : list Entry)
  | PopError (heap : list Entry)
  | IndexError.

Definition heappop (heap : list Entry) : Pop :=
  match rev heap with
  | [] => IndexError
  | lastelt :: front =>
      match rev front with          (* the heap without its last item *)
      | [] => Item lastelt []
      | returnitem :: rest =>
          match siftup (lastelt :: rest) 0 with
          | Sifted heap' => Item returnitem heap'
          | TypeError heap' => PopError heap'
          end
      end
  end.

(** [queue.PriorityQueue]: [put] is [heappush], [get] is [heappop] and
    [empty] tells whether the heap has no entry. *)
Definition put (q : list Entry) (item : Entry) : Sift := heappush q item.

Definition get (q : list Entry) : Pop := heappop q.

Definition empty (q : list Entry) : bool :=
  match q with [] => true | _ => false end.

End PriorityQueue.

(** ** BackgroundVaultAnalyzer *)

Record AutoApply := {
  enabled : bool;
  confidence_threshold : Q;
  strength_threshold : Q;
  max_per_hour : Z;
  safe_connection_types : list string
}.

Record Safety := {
  max_file_size_mb : Q;
  skip_patterns : list string
}.

Record Config := {
  auto_apply : AutoApply;
  safety : Safety
}.

Definition default_config : Config :=
  {| auto_apply :=
       {| enabled := true;
          confidence_threshold := 75 # 100;
          strength_threshold := 7;
          max_per_hour := 15;
          safe_connection_types := ["temporal"; "project"; "thematic"] |};
     safety :=
       {| max_file_size_mb := 5;
          skip_patterns := [".git"; ".obsidian"; "temp"; ".temp"; "__pycache__"] |} |}.

Record Stats := {
  files_processed : Z;
  connections_found : Z;
  connections_applied : Z;
  errors : Z;
  last_activity : Q
}.

(** The fields of the service object, the two tables of its database and
    the world it runs in. *)
Record Service := {
  config : Config;
  file_hashes : gmap string string;
  task_queue : list Entry;
  processing_stats : Stats;
  connection_application_count : Z;
  last_connection_hour : Z;
  file_analysis : list AnalysisRow;
  connections : list ConnectionRow;
  world : World
}.

Definition set_file_hashes (m : gmap string string) (s : Service) : Service :=
  {| config := config s; file_hashes := m; task_queue := task_queue s;
     processing_stats := processing_stats s;
     connection_application_count := connection_application_count s;
     last_connection_hour := last_connection_hour s;
     file_analysis := file_analysis s; connections := connections s;
     world := world s |}.

Definition set_task_queue (q : list Entry) (s : Service) : Service :=
  {| config := config s; file_hashes := file_hashes s; task_queue := q;
     processing_stats := processing_stats s;
     connection_application_count := connection_application_count s;
     last_connection_hour := last_connection_hour s;
     file_analysis := file_analysis s; connections := connections s;
     world := world s |}.

Definition set_processing_stats (st : Stats) (s : Service) : Service :=
  {| config := config s; file_hashes := file_hashes s; task_queue := task_queue s;
     processing_stats := st;
     connection_application_count := connection_application_count s;
     last_connection_hour := last_connection_hour s;
     file_analysis := file_analysis s; connections := connections s;
     world := world s |}.

Definition set_hourly (count hour : Z) (s : Service) : Service :=
  {| config := config s; file_hashes := file_hashes s; task_queue := task_queue s;
     processing_stats := processing_stats s;
     connection_application_count := count;
     last_connection_hour := hour;
     file_analysis := file_analysis s; connections := connections s;
     world := world s |}.

Definition set_file_analysis (t : list AnalysisRow) (s : Service) : Service :=
  {| config := config s; file_hashes := file_hashes s; task_queue := task_queue s;
     processing_stats := processing_stats s;
     connection_application_count := connection_application_count s;
     last_connection_hour := last_connection_hour s;
     file_analysis := t; connections := connections s;
     world := world s |}.

Definition set_connections (t : list ConnectionRow) (s : Service) : Service :=
  {| config := config s; file_hashes := file_hashes s; task_queue := task_queue s;
     processing_stats := processing_stats s;
     connection_application_count := connection_application_count s;
     last_connection_hour := last_connection_hour s;
     file_analysis := file_analysis s; connections := t;
     world := world s |}.

Definition set_world (w : World) (s : Service) : Service :=
  {| config := config s; file_hashes := file_hashes s; task_queue := task_queue s;
     processing_stats := processing_stats s;
     connection_application_count := connection_application_count s;
     last_connection_hour := last_connection_hour s;
     file_analysis := file_analysis s; connections := connections s;
     world := w |}.

(** The service after a call that may raise, and whether it raised. *)
Record Outcome := {
  after : Service;
  raised : bool
}.

Coercion after : Outcome >-> Service.

Definition returned (s : Service) : Outcome := {| after := s; raised := false |}.

(** [stats[...] += 1] for the four counters, and [stats["last_activity"] = t]. *)
Definition count_processed (t : Q) (st : Stats) : Stats :=
  {| files_processed := files_processed st + 1;
     connections_found := connections_found st;
     connections_applied := connections_applied st;
     errors := errors st; last_activity := t |}.

Definition count_found (st : Stats) : Stats :=
  {| files_processed := files_processed st;
     connections_found := connections_found st + 1;
     connections_applied := connections_applied st;
     errors := errors st; last_activity := last_activity st |}.

Definition count_applied (st : Stats) : Stats :=
  {| files_processed := files_processed st;
     connections_found := connections_found st;
     connections_applied := connections_applied st + 1;
     errors := errors st; last_activity := last_activity st |}.

Definition count_error (st : Stats) : Stats :=
  {| files_processed := files_processed st;
     connections_found := connections_found st;
     connections_applied := connections_applied st;
     errors := errors st + 1; last_activity := last_activity st |}.

(** [int(x)]: truncation towards zero. *)
Definition py_int (x : Q) : Z := Z.quot (Qnum x) (Zpos (Qden x)).

Module BackgroundVaultAnalyzer.

Definition RELATED_NOTES : text := txt "## Related Notes".
Definition SEE_ALSO : text := txt "## See Also".

Section Oracles.

Variable clock : nat -> Q.          (* the successive [time.time()] *)
Variable ollama : nat -> Run.       (* the successive analyzer runs *)
Variable md5 : text -> string.      (* [hashlib.md5(...).hexdigest()] *)
Variable str_of : value -> text.    (* [str(v)] of a value that is no [str] *)

Definition _should_process_file (s : Service) (file_path : string) : bool :=
  match vault (world s) !! file_path with
  | None => false                   (* [stat] raises *)
  | Some f =>
      let size_mb := (inject_Z (st_size f) / inject_Z (1024 * 1024))%Q in
      if Py.Qlt_bool (max_file_size_mb (safety (config s))) size_mb then false
      else
        let path_str := Text.lower (txt file_path) in
        if existsb (fun pattern => Text.contains (txt pattern) path_str)
                   (skip_patterns (safety (config s)))
        then false
        else Text.eqb (Text.lower (PurePath.suffix file_path)) (txt ".md")
  end.

Definition _get_file_hash (w : World) (file_path : string) : option string :=
  option_map md5 (read_text_ignore w file_path).

(** It raises when [put] does; the tuple is in the queue by then. *)
Definition _queue_analysis_task (s : Service) (file_path : string)
    (priority : Z) (task_type : string) : Outcome :=
  let (t1, w1) := OllamaClient.time_time clock (world s) in
  let task := {| file_path := file_path; task_type := task_type; queued_at := t1 |} in
  let (t2, w2) := OllamaClient.time_time clock w1 in
  let item := {| priority := priority; neg_time := (- t2)%Q; task := task |} in
  match PriorityQueue.put (task_queue s) item with
  | PriorityQueue.Sifted q =>
      {| after := set_world w2 (set_task_queue q s); raised := false |}
  | PriorityQueue.TypeError q =>
      {| after := set_world w2 (set_task_queue q s); raised := true |}
  end.

(** The body of the loop of [_scan_vault_files]; an exception leaves
    the loop before the baseline of the file is written. *)
Definition scan_file (s : Service) (file_path : string) : Outcome :=
  if negb (_should_process_file s file_path) then returned s
  else
    match _get_file_hash (world s) file_path with
    | None => returned s
    | Some file_hash =>
        if String.eqb file_hash "" then returned s
        else
          let queued :=
            match file_hashes s !! file_path with
            | None => _queue_analysis_task s file_path 1 "new_file"
            | Some known =>
                if negb (String.eqb known file_hash)
                then _queue_analysis_task s file_path 2 "modified_file"
                else returned s
            end in
          if raised queued then queued
          else returned (set_file_hashes (<[file_path := file_hash]> (file_hashes queued))
                                         queued)
    end.

Fixpoint scan_loop (markdown_files : list string) (s : Service) : Outcome :=
  match markdown_files with
  | [] => returned s
  | file_path :: rest =>
      let o := scan_file s file_path in
      if raised o then o else scan_loop rest o
  end.

(** [markdown_files] is what [vault_path.rglob] yields.  An exception in
    the loop is caught and counted. *)
Definition _scan_vault_files (markdown_files : list string) (s : Service) : Service :=
  let o := scan_loop markdown_files s in
  if raised o then set_processing_stats (count_error (processing_stats o)) o
  else o.

(** The [else] branch of [force_analysis]: every file of the walk. *)
Fixpoint force_all (markdown_files : list string) (s : Service) : Outcome :=
  match markdown_files with
  | [] => returned s
  | file_path :: rest =>
      if _should_process_file s file_path then
        let o := _queue_analysis_task s file_path 0 "forced" in
        if raised o then o else force_all rest o
      else force_all rest s
  end.

(** [force_analysis(file_path)]; [markdown_files] as above.  An empty
    string is as false as [None].  Nothing is caught here. *)
Definition force_analysis (file_path : option string) (markdown_files : list string)
    (s : Service) : Outcome :=
  match file_path with
  | Some p =>
      if negb (String.eqb p "") then
        if exists_ (world s) p then _queue_analysis_task s p 0 "forced"
        else returned s
      else force_all markdown_files s
  | None => force_all markdown_files s
  end.

Definition _process_analysis_task (s : Service) (t : Task) : Service :=
  let (analysis, w1) :=
    OllamaClient.analyze_file_content clock ollama (world s) (file_path t) in
  let s1 := set_world w1 s in
  match analysis with
  | Some a =>
      let file_hash := _get_file_hash w1 (file_path t) in
      match DatabaseManager.save_analysis (file_analysis s1) a file_hash with
      | Some table =>
          let (now, w2) := OllamaClient.time_time clock w1 in
          set_world w2
            (set_processing_stats (count_processed now (processing_stats s1))
               (set_file_analysis table s1))
      | None => set_processing_stats (count_error (processing_stats s1)) s1
      end
  | None => set_processing_stats (count_error (processing_stats s1)) s1
  end.

(** One turn of the loop of [_task_processor_loop]: the task taken, if
    the queue was not empty, and the service after processing it. *)
Definition _task_processor_step (s : Service) : option Task * Service :=
  if negb (PriorityQueue.empty (task_queue s)) then
    match PriorityQueue.get (task_queue s) with
    | PriorityQueue.Item e q =>
        (Some (task e), _process_analysis_task (set_task_queue q s) (task e))
    | PriorityQueue.PopError q =>    (* caught and counted; the task is lost *)
        (None, set_processing_stats (count_error (processing_stats s))
                 (set_task_queue q s))
    | PriorityQueue.IndexError => (None, s)
    end
  else (None, s).

(** The result is [None] when a comparison raises TypeError. *)
Definition _should_auto_apply_connection (s : Service) (connection : Connection)
  : option bool * Service :=
  let (now, w1) := OllamaClient.time_time clock (world s) in
  let current_hour := py_int (now / 3600) in
  let s1 :=
    if negb (current_hour =? last_connection_hour s)
    then set_hourly 0 current_hour (set_world w1 s)
    else set_world w1 s in
  let cfg := auto_apply (config s1) in
  if max_per_hour cfg <=? connection_application_count s1 then (Some false, s1)
  else
    match Py.lt_num (confidence connection) (confidence_threshold cfg) with
    | None => (None, s1)
    | Some true => (Some false, s1)
    | Some false =>
        match Py.lt_num (strength_score connection) (strength_threshold cfg) with
        | None => (None, s1)
        | Some true => (Some false, s1)
        | Some false =>
            if negb (Py.in_strs (connection_type connection) (safe_connection_types cfg))
            then (Some false, s1)
            else (Some (enabled cfg), s1)
        end
    end.

Definition link_text (connection : Connection) : text :=
  let target_name := PurePath.stem (target_file connection) in
  if Py.truthy (suggested_link connection)
  then txt "- [[" ++ target_name ++ txt "]] - "
       ++ match suggested_link connection with
          | VStr l => txt l
          | v => str_of v
          end
  else txt "- [[" ++ target_name ++ txt "]]".

(** The text written back for the text read. *)
Definition linked (content link : text) : text :=
  if Text.contains RELATED_NOTES content then
    Text.replace RELATED_NOTES (RELATED_NOTES ++ Text.LF :: link) content
  else if Text.contains SEE_ALSO content then
    Text.replace SEE_ALSO (SEE_ALSO ++ Text.LF :: link) content
  else
    Text.rstrip content
    ++ [Text.LF; Text.LF] ++ RELATED_NOTES ++ [Text.LF; Text.LF] ++ link ++ [Text.LF].

(** The result, the service and the connection object afterwards. *)
Definition _apply_connection (s : Service) (connection : Connection)
  : bool * Service * Connection :=
  if negb (exists_ (world s) (source_file connection))
     || negb (exists_ (world s) (target_file connection))
  then (false, s, connection)
  else
    match read_text (world s) (source_file connection) with
    | None => (false, s, connection)
    | Some content =>
        match write_text (world s) (source_file connection)
                         (linked content (link_text connection)) with
        | None => (false, s, connection)
        | Some w =>
            (true,
             set_hourly (connection_application_count s + 1) (last_connection_hour s)
                        (set_world w s),
             set_auto_applied true connection)
        end
    end.

(** The state of one cycle of [_connection_analyzer_loop]: the number of
    connections found so far and the service, or the service at the
    point where an exception left the cycle. *)
Inductive Cycle :=
  | Running (connections_found : Z) (s : Service)
  | Raised (s : Service).

Definition max_connections_per_run : Z := 20.

(** The body of the inner loop, after its test of the cap. *)
Definition compare_pair (found : Z) (s : Service) (analysis_a analysis_b : AnalysisResult)
  : Cycle :=
  let (connection, w1) :=
    OllamaClient.analyze_connection clock ollama (world s) analysis_a analysis_b in
  let s1 := set_world w1 s in
  match connection with
  | None => Running found s1
  | Some c =>
      match DatabaseManager.save_connection (connections s1) c with
      | None => Raised s1
      | Some table =>
          let s2 := set_processing_stats (count_found (processing_stats s1))
                      (set_connections table s1) in
          match _should_auto_apply_connection s2 c with
          | (None, s3) => Raised s3
          | (Some false, s3) => Running (found + 1) s3
          | (Some true, s3) =>
              let '(applied, s4, _) := _apply_connection s3 c in
              if applied
              then Running (found + 1)
                     (set_processing_stats (count_applied (processing_stats s4)) s4)
              else Running (found + 1) s4
          end
      end
  end.

(** [for analysis_b in all_analyses[i+1:50]] *)
Fixpoint inner_loop (analysis_a : AnalysisResult) (rest : list AnalysisResult)
    (found : Z) (s : Service) : Cycle :=
  match rest with
  | [] => Running found s
  | analysis_b :: rest' =>
      if max_connections_per_run <=? found then Running found s
      else
        match compare_pair found s analysis_a analysis_b with
        | Running found' s' => inner_loop analysis_a rest' found' s'
        | Raised s' => Raised s'
        end
  end.

(** [for i, analysis_a in enumerate(all_analyses[:50])] *)
Fixpoint outer_loop (window : list AnalysisResult) (found : Z) (s : Service) : Cycle :=
  match window with
  | [] => Running found s
  | analysis_a :: rest =>
      match inner_loop analysis_a rest found s with
      | Running found' s' =>
          if max_connections_per_run <=? found' then Running found' s'
          else outer_loop rest found' s'
      | Raised s' => Raised s'
      end
  end.

(** One turn of the [while] loop of [_connection_analyzer_loop]. *)
Definition _connection_analyzer_cycle (s : Service) : Service :=
  let all_analyses := DatabaseManager.get_all_analyses (file_analysis s) in
  if (length all_analyses <? 2)%nat then s
  else
    match outer_loop (firstn 50 all_analyses) 0 s with
    | Running _ s' => s'
    | Raised s' => set_processing_stats (count_error (processing_stats s')) s'
    end.

End Oracles.

(** What [get_status] reports: the three groups of the dict. *)
Record Status := {
  running : bool;
  uptime_hours : Q;
  active_threads : nat;
  queue_size : nat;
  files_tracked : nat;
  reported_files_processed : Z;
  reported_connections_found : Z;
  reported_connections_applied : Z;
  reported_errors : Z;
  files_per_hour : Q;
  connections_per_hour : Q
}.

(** [max(x, 1)] *)
Definition max_1 (x : Q) : Q := if Py.Qlt_bool x 1 then 1 else x.

(** [get_status()].  [start_time] is the entry of that name in
    [processing_stats], [is_running] the flag [self.running], and
    [threads] tells of each thread of [self.threads] whether it is alive. *)
Definition get_status (clock : nat -> Q) (start_time : Q) (is_running : bool)
    (threads : list bool) (s : Service) : Status * Service :=
  let (now, w1) := OllamaClient.time_time clock (world s) in
  let uptime := (now - start_time)%Q in
  let st := processing_stats s in
  ({| running := is_running;
      uptime_hours := (uptime / 3600)%Q;
      active_threads := length (List.filter (fun alive => alive) threads);
      queue_size := length (task_queue s);
      files_tracked := size (file_hashes s);
      reported_files_processed := files_processed st;
      reported_connections_found := connections_found st;
      reported_connections_applied := connections_applied st;
      reported_errors := errors st;
      files_per_hour := (inject_Z (files_processed st) / max_1 (uptime / 3600))%Q;
      connections_per_hour :=
        (inject_Z (connections_found st) / max_1 (uptime / 3600))%Q |},
   set_world w1 s).

End BackgroundVaultAnalyzer.

Import BackgroundVaultAnalyzer.

(** * The vocabulary of the properties *)

(** *** The auto-apply policy *)

(** The hour of the clock reading that [_should_auto_apply_connection]
    takes, and the hourly counter after the roll-over test. *)
Definition hour_now (clock : nat -> Q) (s : Service) : Z :=
  py_int (clock (clock_reads (world s)) / 3600).

Definition counter_after_rollover (clock : nat -> Q) (s : Service) : Z :=
  if hour_now clock s =? last_connection_hour s
  then connection_application_count s else 0.

Definition at_least (v : value) (threshold : Q) : Prop :=
  exists q, Py.num_of v = Some (Py.Finite q) /\ (threshold <= q)%Q.

(** What the test [v < threshold] lets through: a number at or above the
    threshold, and NaN. *)
Definition not_below (v : value) (threshold : Q) : Prop :=
  at_least v threshold \/ Py.num_of v = Some Py.NaN.

Definition type_allowed (v : value) (allowed : list string) : Prop :=
  exists t, v = VStr t /\ In t allowed.

(** *** The task queue *)

(** [precedes a b]: [a] is not after [b] in the order of the queue: a lower
    priority number, or the same one and an enqueue time that is not
    earlier. *)
Definition enqueue_time (e : Entry) : Q := (- neg_time e)%Q.

Definition precedes (a b : Entry) : Prop :=
  priority a < priority b
  \/ (priority a = priority b /\ (enqueue_time b <= enqueue_time a)%Q).

(** No two entries of the queue are such that comparing them raises. *)
Definition tie_free (q : list Entry) : Prop :=
  forall a b, In a q -> In b q -> PriorityQueue.lt a b <> None.

(** The entry at [j] is a child of the entry at [i]. *)
Definition child (i j : nat) : Prop := (j = 2 * i + 1 \/ j = 2 * i + 2)%nat.

(** The queue is a heap: no entry is after one of its children. *)
Definition heap_ok (q : list Entry) : Prop :=
  forall i j a b, q !! i = Some a -> q !! j = Some b -> child i j -> precedes a b.

(** The entries in the order in which [n] successive [get] retrieve them. *)
Fixpoint drain (n : nat) (q : list Entry) : list Entry :=
  match n with
  | O => []
  | S n' =>
      match PriorityQueue.get q with
      | PriorityQueue.Item e q' => e :: drain n' q'
      | _ => []
      end
  end.

(** A heap but for the entry at [pos], which may be before its parent
    ([hole_up]), or before its parent and after its children
    ([hole_down]); the children of [pos] are not before its parent. *)
Definition hole_up (q : list Entry) (pos : nat) : Prop :=
  (forall i j a b,
      q !! i = Some a -> q !! j = Some b -> child i j -> j <> pos -> precedes a b)
  /\ (forall p c a b,
         q !! p = Some a -> q !! c = Some b -> child p pos -> child pos c ->
         precedes a b).

Definition hole_down (q : list Entry) (pos : nat) : Prop :=
  (forall i j a b,
      q !! i = Some a -> q !! j = Some b -> child i j -> i <> pos -> j <> pos ->
      precedes a b)
  /\ (forall p c a b,
         q !! p = Some a -> q !! c = Some b -> child p pos -> child pos c ->
         precedes a b).

(** *** Connection discovery *)

Definition above (v : value) (bound : Q) : Prop :=
  exists x, Py.num_of v = Some (Py.Finite x) /\ (bound < x)%Q.

(** The rows of connections that are stronger than the noise threshold. *)
Definition strong_rows (rows : list ConnectionRow) : Prop :=
  Forall (fun r => above (strength_score (row_connection r)) 2) rows.

(** [s'] has the connections of [s] and, after them, only strong rows. *)
Definition adds_strong_rows (s s' : Service) : Prop :=
  exists added, connections s' = connections s ++ added /\ strong_rows added.

(** The service a cycle has reached. *)
Definition cycle_service (c : Cycle) : Service :=
  match c with Running _ s => s | Raised s => s end.

(** *** Replies *)

(** What the analyzer's next reply decodes to, and a field absent from it. *)
Definition response_data (ollama : nat -> Run) (w : World) : value :=
  OllamaClient.extract_json_from_response (fst (OllamaClient.call_ollama ollama w)).

Definition absent (data : value) (k : string) : Prop :=
  exists d, data = VDict d /\ Py.dict_get d k = None.

(** *** The scanner *)

(** The entries of a queue that are for the document at [p]. *)
Definition entries_for (p : string) (q : list Entry) : list Entry :=
  List.filter (fun e => String.eqb (file_path (task e)) p) q.

(** What the monitor and the task processor do in turn, each after the
    world has moved on to a new vault: a scan, [markdown_files] being what
    the walk yields, or one turn of the task processor. *)
Inductive Action :=
  | Scan (v : gmap string File) (markdown_files : list string)
  | Process (v : gmap string File).

(** The entries of the queue of [after] that are not entries of the queue
    of [before], each counted as often as it is there: what has been put
    on the queue in between, when nothing was taken from it. *)
Definition time_eqb (a b : Q) : bool :=
  (Qnum a =? Qnum b) && (Qden a =? Qden b)%positive.

Definition entry_eqb (a b : Entry) : bool :=
  (priority a =? priority b) && time_eqb (neg_time a) (neg_time b)
  && String.eqb (file_path (task a)) (file_path (task b))
  && String.eqb (task_type (task a)) (task_type (task b))
  && time_eqb (queued_at (task a)) (queued_at (task b)).

Fixpoint remove_one (e : Entry) (q : list Entry) : list Entry :=
  match q with
  | [] => []
  | x :: q' => if entry_eqb e x then q' else x :: remove_one e q'
  end.

Definition enqueued_by (before after : Service) : list Entry :=
  fold_left (fun q e => remove_one e q) (task_queue before) (task_queue after).

(** The clock rises from one reading to the next. *)
Definition rising (clock : nat -> Q) : Prop :=
  forall m n, (m < n)%nat -> (clock m < clock n)%Q.

(** The entries of the queue were enqueued before the next reading of the
    clock. *)
Definition in_time (clock : nat -> Q) (s : Service) : Prop :=
  Forall (fun e => (enqueue_time e < clock (clock_reads (world s)))%Q) (task_queue s).

(** The tuple that [_queue_analysis_task] puts on the queue of [s]. *)
Definition queued_entry (clock : nat -> Q) (s : Service) (p : string)
    (pr : Z) (ty : string) : Entry :=
  {| priority := pr;
     neg_time := (- clock (S (clock_reads (world s))))%Q;
     task := {| file_path := p; task_type := ty;
                queued_at := clock (clock_reads (world s)) |} |}.

(** The service after the actions, and the entries enqueued by the scans
    among them, [log] being those enqueued before. *)
Fixpoint run (clock : nat -> Q) (ollama : nat -> Run) (md5 : text -> string)
    (actions : list Action) (s : Service) (log : list Entry) : Service * list Entry :=
  match actions with
  | [] => (s, log)
  | Scan v markdown_files :: rest =>
      let s0 := set_world (set_vault v (world s)) s in
      let s1 := _scan_vault_files clock md5 markdown_files s0 in
      run clock ollama md5 rest s1 (enqueued_by s0 s1 ++ log)
  | Process v :: rest =>
      let s0 := set_world (set_vault v (world s)) s in
      run clock ollama md5 rest (snd (_task_processor_step clock ollama md5 s0)) log
  end.

(** The vaults that the scans among the actions see. *)
Fixpoint scanned (actions : list Action) : list (gmap string File) :=
  match actions with
  | [] => []
  | Scan v _ :: rest => v :: scanned rest
  | Process _ :: rest => scanned rest
  end.

(** The document at [p], whenever it is there, holds the text [bytes]. *)
Definition holds_bytes (p : string) (bytes : text) (v : gmap string File) : Prop :=
  forall f, v !! p = Some f -> contents f = Some bytes.

(** What [scan_file] does, case by case: it passes over the file; or the
    hash is the baseline, which is written again; or a task is put on the
    queue, and the baseline is written unless [put] raised. *)
Definition scan_kind (known : option string) (h : string) (pr : Z) (ty : string) : Prop :=
  (known = None /\ pr = 1 /\ ty = "new_file")
  \/ ((exists k, known = Some k /\ k <> h) /\ pr = 2 /\ ty = "modified_file").

Inductive scan_case (clock : nat -> Q) (md5 : text -> string)
    (s : Service) (p : string) : Outcome -> Prop :=
  | scan_skip :
      _should_process_file s p = false
      \/ _get_file_hash md5 (world s) p = None
      \/ _get_file_hash md5 (world s) p = Some "" ->
      scan_case clock md5 s p (returned s)
  | scan_same h :
      _should_process_file s p = true ->
      _get_file_hash md5 (world s) p = Some h -> h <> "" ->
      file_hashes s !! p = Some h ->
      scan_case clock md5 s p
        (returned (set_file_hashes (<[p := h]> (file_hashes s)) s))
  | scan_queue h pr ty :
      _should_process_file s p = true ->
      _get_file_hash md5 (world s) p = Some h -> h <> "" ->
      scan_kind (file_hashes s !! p) h pr ty ->
      raised (_queue_analysis_task clock s p pr ty) = false ->
      scan_case clock md5 s p
        (returned (set_file_hashes
                     (<[p := h]> (file_hashes (_queue_analysis_task clock s p pr ty)))
                     (_queue_analysis_task clock s p pr ty)))
  | scan_raise h pr ty :
      _should_process_file s p = true ->
      _get_file_hash md5 (world s) p = Some h -> h <> "" ->
      scan_kind (file_hashes s !! p) h pr ty ->
      raised (_queue_analysis_task clock s p pr ty) = true ->
      scan_case clock md5 s p (_queue_analysis_task clock s p pr ty).

(** The conditions of the inclusion policy.  The file at [p] is larger
    than the configuration allows. *)
Definition oversized (s : Service) (p : string) : Prop :=
  exists f, vault (world s) !! p = Some f
    /\ (max_file_size_mb (safety (config s))
        < inject_Z (st_size f) / inject_Z (1024 * 1024))%Q.

(** [p] contains [pattern] when the case of letters is ignored. *)
Definition icontains (pattern p : string) : Prop :=
  Text.contains (Text.lower (txt pattern)) (Text.lower (txt p)) = true.

(** The extension of [p] is the watched one, the case of letters ignored. *)
Definition watched_extension (p : string) : Prop :=
  Text.lower (PurePath.suffix p) = txt ".md".

(** The state of the bookkeeping for [p] while the scans go on: nothing
    added for it yet, or one entry added and the baseline at [h]. *)
Definition at_most_once (p h : string) (added : list Entry) (s : Service) : Prop :=
  entries_for p added = []
  \/ (length (entries_for p added) = 1%nat /\ file_hashes s !! p = Some h).

(** A forced task. *)
Definition forced (e : Entry) : Prop :=
  priority e = 0 /\ task_type (task e) = "forced".

(** *** Brace groups *)

(** [closes opened s]: the text [s] closes [S opened] open braces, the last
    of them with its last character. *)
Fixpoint closes (opened : nat) (s : text) : bool :=
  match s with
  | [] => false
  | c :: s' =>
      if Ascii.eqb c "{" then closes (S opened) s'
      else if Ascii.eqb c "}" then
        match opened with
        | O => match s' with [] => true | _ => false end
        | S o => closes o s'
        end
      else closes opened s'
  end.

(** A balanced brace-delimited text: it opens with a brace that its last
    character closes. *)
Definition brace_delimited (m : text) : bool :=
  match m with
  | c :: s => Ascii.eqb c "{" && closes 0 s
  | [] => false
  end.

Definition segment_of (r m : text) : Prop :=
  exists pre post, r = pre ++ m ++ post.

Definition unparseable (m : text) : Prop := Json.loads m = None.

(** [shallow inner s]: the braces of [s] come in pairs that hold no brace;
    [inner] tells whether such a pair is open where [s] starts. *)
Fixpoint shallow (inner : bool) (s : text) : bool :=
  match s with
  | [] => negb inner
  | c :: s' =>
      if Ascii.eqb c "{" then (if inner then false else shallow true s')
      else if Ascii.eqb c "}" then (if inner then shallow false s' else false)
      else shallow inner s'
  end.

(** The text [body] between braces. *)
Definition braced (body : text) : text := "{"%char :: body ++ ["}"%char].

(** A group of the scan: an opening brace, a text whose braces come in
    pairs that hold no brace, and a closing brace. *)
Definition group (m : text) : Prop :=
  exists body, m = braced body /\ shallow false body = true.

(** A group can be read at the front of [s]. *)
Definition group_at (s : text) : Prop :=
  exists m rest, group m /\ s = m ++ rest.

(** [scanned_groups r gs]: [gs] are the groups met when [r] is read from
    left to right, each of them read at the first place, after the group
    before it, at which a group can be read; after the last of them no
    group can be read any more. *)
Inductive scanned_groups : text -> list text -> Prop :=
  | no_group r :
      (forall pre post, r = pre ++ post -> ~ group_at post) ->
      scanned_groups r []
  | next_group pre m post gs :
      group m ->
      (forall p1 p2, pre = p1 ++ p2 -> p2 <> [] -> ~ group_at (p2 ++ m ++ post)) ->
      scanned_groups post gs ->
      scanned_groups (pre ++ m ++ post) (m :: gs).

(** * Further vocabulary *)

(** The tasks that the scanner enqueues. *)
Definition new_file_entry (p : string) (e : Entry) : Prop :=
  file_path (task e) = p /\ priority e = 1 /\ task_type (task e) = "new_file".

Definition modified_file_entry (p : string) (e : Entry) : Prop :=
  file_path (task e) = p /\ priority e = 2 /\ task_type (task e) = "modified_file".

(** [saves n s s']: [s'] has the connection rows of [s] and [n] more, and
    its counter of connections found has grown by [n]. *)
Definition saves (n : nat) (s s' : Service) : Prop :=
  exists added,
    connections s' = connections s ++ added
    /\ length added = n
    /\ connections_found (processing_stats s')
       = connections_found (processing_stats s) + Z.of_nat n.

(** The number of pairs among [n] analyses. *)
Fixpoint pairs (n : nat) : nat :=
  match n with
  | O => O
  | S m => (m + pairs m)%nat
  end.

(** The hourly counter is within the cap of the configuration. *)
Definition within_cap (s : Service) : Prop :=
  connection_application_count s <= max_per_hour (auto_apply (config s)).

(** *** The tables *)

(** Cells that SQLite gives back as they were bound: a text or NULL in a
    TEXT column, a number or NULL in a REAL column. *)
Definition text_cell (v : value) : Prop := v = VNone \/ exists t, v = VStr t.

Definition real_cell (v : value) : Prop := v = VNone \/ exists q, v = VNum q.

(** A number that a REAL column holds exactly, and that can be bound
    whether it is an [int] or a [float]: none beyond 2^53. *)
Definition exact_cell (v : value) : Prop :=
  v = VNone
  \/ exists q, v = VNum q
               /\ (- (9007199254740992) <= q)%Q /\ (q <= 9007199254740992)%Q.

Definition stored_as_is (a : AnalysisResult) : Prop :=
  text_cell (primary_topic a) /\ text_cell (content_type a)
  /\ exact_cell (ar_confidence a).

Definition numeric_cells (r : ConnectionRow) : Prop :=
  real_cell (strength_score (row_connection r))
  /\ real_cell (confidence (row_connection r)).

(** The rows of the analysis table that are for the document at [p]. *)
Definition rows_for (p : string) (table : list AnalysisRow) : list AnalysisRow :=
  List.filter (fun r => String.eqb (ar_file_path (row_analysis r)) p) table.

(** The orders of the two listings. *)
Definition newer_first (a b : AnalysisResult) : Prop :=
  (analyzed_at b <= analyzed_at a)%Q.

Definition stronger_first (a b : Connection) : Prop :=
  exists x y, Py.num_of (strength_score a) = Some (Py.Finite x)
              /\ Py.num_of (strength_score b) = Some (Py.Finite y) /\ (y <= x)%Q.

(** *** What a cycle may touch *)

(** The documents of which the service holds an analysis. *)
Definition analysed (s : Service) (p : string) : Prop :=
  exists r, In r (file_analysis s) /\ ar_file_path (row_analysis r) = p.

(** [s'] differs from [s] at most in the clock, the analyzer runs, the
    connections, the counters and statistics, and the documents among
    [paths]. *)
Definition touches_only (paths : string -> Prop) (s s' : Service) : Prop :=
  config s' = config s /\ task_queue s' = task_queue s
  /\ file_hashes s' = file_hashes s /\ file_analysis s' = file_analysis s
  /\ forall p, ~ paths p -> vault (world s') !! p = vault (world s) !! p.

(** The world, but for the clock reads and the analyzer runs. *)
Definition same_documents (s s' : Service) : Prop :=
  vault (world s') = vault (world s).

(** *** Forced tasks and the queue *)

(** An entry that a task forced at the clock reading [now] overtakes: its
    priority number is higher, or it is 0 and the entry was enqueued
    before. *)
Definition overtaken_at (now : Q) (e : Entry) : Prop :=
  0 < priority e \/ (priority e = 0 /\ (enqueue_time e < now)%Q).

(** The queue of the service is a heap in which no two entries tie and
    whose entries were enqueued before the next reading of the clock. *)
Definition sound (clock : nat -> Q) (s : Service) : Prop :=
  heap_ok (task_queue s) /\ tie_free (task_queue s) /\ in_time clock s.

(** *** Objects in prose *)

(** No opening brace in [s]. *)
Definition no_opening (s : text) : bool :=
  forallb (fun c => negb (Ascii.eqb c "{")) s.

(** *** The direction of connections *)

(** The row links the documents of two of the analyses [all], the source
    being the one analysed later, or at the same time. *)
Definition newer_to_older (all : list AnalysisResult) (r : ConnectionRow) : Prop :=
  exists a b,
    In a all /\ In b all /\ newer_first a b
    /\ source_file (row_connection r) = ar_file_path a
    /\ target_file (row_connection r) = ar_file_path b.

(** [s'] has the connection rows of [s] and, after them, rows that satisfy
    [Q]. *)
Definition adds_rows (Q : ConnectionRow -> Prop) (s s' : Service) : Prop :=
  exists added, connections s' = connections s ++ added /\ Forall Q added.

(** *** A failed analyzer run *)

(** The next run of the analyzer fails: the process times out, cannot be
    run, exits with a code other than 0, or prints nothing but white
    space. *)
Definition next_run_fails (ollama : nat -> Run) (w : World) : Prop :=
  match ollama (ollama_calls w) with
  | Exited code stdout => code <> 0 \/ Text.strip stdout = []
  | TimedOut | Crashed => True
  end.

(** *** A baseline that is up to date *)

(** The baseline holds the present hash of every document of [files] that
    the inclusion policy accepts and that can be hashed. *)
Definition up_to_date (md5 : text -> string) (files : list string) (s : Service) : Prop :=
  forall p h,
    In p files -> _should_process_file s p = true ->
    _get_file_hash md5 (world s) p = Some h -> h <> "" ->
    file_hashes s !! p = Some h.

(** *** Turns of the task processor *)

(** The tasks taken by [n] successive turns of the task processor, and the
    service after them. *)
Fixpoint process_turns (clock : nat -> Q) (ollama : nat -> Run) (md5 : text -> string)
    (n : nat) (s : Service) : list Task * Service :=
  match n with
  | O => ([], s)
  | S k =>
      let (taken, s1) := _task_processor_step clock ollama md5 s in
      let (later, s2) := process_turns clock ollama md5 k s1 in
      (match taken with Some t => t :: later | None => later end, s2)
  end.

(** * Scenarios

    Concrete worlds and services on which the properties are tried. *)

Module Scenario.

Definition clock (n : nat) : Q := inject_Z (1000 + Z.of_nat n).
Definition md5 (t : text) : string := string_of_list_ascii t.
Definition str_of (v : value) : text := [].

Definition quoted (s : string) : text := Text.DQ :: txt s ++ [Text.DQ].

Definition lines (ls : list string) : text :=
  concat (map (fun l => txt l ++ [Text.LF]) ls).

Definition note (body : text) : File :=
  {| st_size := Z.of_nat (length body); contents := Some body; decodes := true;
     writable := true |}.

(** The service as [__init__] leaves it. *)
Definition init (cfg : Config) (v : gmap string File) : Service :=
  {| config := cfg; file_hashes := ∅; task_queue := [];
     processing_stats :=
       {| files_processed := 0; connections_found := 0; connections_applied := 0;
          errors := 0; last_activity := 0 |};
     connection_application_count := 0; last_connection_hour := 0;
     file_analysis := []; connections := [];
     world := {| vault := v; clock_reads := 0; ollama_calls := 0 |} |}.

Definition a_md : string := "/vault/a.md".
Definition b_md : string := "/vault/b.md".

Definition alpha : text := lines ["# Alpha"; ""; "Plans for spring."].
Definition beta : text := lines ["# Beta"; ""; "Plans for summer."].

Definition vault0 : gmap string File :=
  <[a_md := note alpha]> (<[b_md := note beta]> ∅).

(** A clock that gives the same reading four times in a row. *)
Definition coarse (n : nat) : Q := inject_Z (1000 + Z.of_nat (n / 4)).

Definition idle : Service := init default_config vault0.

(** The hourly counter at the cap. *)
Definition capped : Service := set_hourly 15 0 idle.

Definition best : Connection :=
  {| source_file := a_md; target_file := b_md;
     connection_type := VStr "thematic"; strength_score := VNum 10;
     confidence := VNum 1; reason := VStr "same plans";
     suggested_link := VNone; auto_applied := false; created_at := 0 |}.

(** A reply that scores a pair 8 with confidence 0.9. *)
Definition reply_connection : text :=
  txt "{" ++ quoted "connection_score" ++ txt ": 8, "
  ++ quoted "connection_type" ++ txt ": " ++ quoted "thematic" ++ txt ", "
  ++ quoted "reason" ++ txt ": " ++ quoted "both are plans" ++ txt ", "
  ++ quoted "confidence" ++ txt ": 0.9}".

(** A reply that scores a pair 8 and gives NaN as its confidence. *)
Definition reply_nan : text :=
  txt "{" ++ quoted "connection_score" ++ txt ": 8, "
  ++ quoted "connection_type" ++ txt ": " ++ quoted "thematic" ++ txt ", "
  ++ quoted "reason" ++ txt ": " ++ quoted "both are plans" ++ txt ", "
  ++ quoted "confidence" ++ txt ": NaN}".

Definition ollama_nan (n : nat) : Run := Exited 0 reply_nan.

(** A reply with a topic and nothing else, and one with a score only. *)
Definition reply_topic : text :=
  txt "{" ++ quoted "primary_topic" ++ txt ": " ++ quoted "Plans" ++ txt "}".

Definition reply_score : text :=
  txt "{" ++ quoted "connection_score" ++ txt ": 5}".

Definition ollama_connection (n : nat) : Run := Exited 0 reply_connection.
Definition ollama_topic (n : nat) : Run := Exited 0 reply_topic.
Definition ollama_score (n : nat) : Run := Exited 0 reply_score.

Definition analysis (p : string) (t : Q) : AnalysisResult :=
  {| ar_file_path := p; primary_topic := VStr "Plans"; content_type := VStr "project";
     key_concepts := VList [VStr "plans"]; temporal_markers := VList [];
     project_references := VList []; relationship_hints := VList [];
     ar_confidence := VNum (9 # 10); analyzed_at := t |}.

(** Both notes are classified; no connection is known yet. *)
Definition classified : Service :=
  set_file_analysis
    [{| row_analysis := analysis b_md 900; content_hash := None |};
     {| row_analysis := analysis a_md 950; content_hash := None |}] idle.

(** A reply in which a brace group that does not decode encloses an
    object that does. *)
Definition inner_object : text := txt "{" ++ quoted "a" ++ txt ":1}".
Definition reply_enclosed : text := txt "{x" ++ inner_object ++ txt "}".

Definition reply_chatty : text :=
  txt "Sure! Here it is: " ++ reply_topic ++ txt " Hope this helps.".

(** A source note with one "Related Notes" section, which its first
    paragraph mentions. *)
Definition twice : text :=
  lines ["# Alpha"; "See ## Related Notes below."; "## Related Notes"; "- [[old]]"].

Definition vault_twice : gmap string File := <[a_md := note twice]> vault0.

(** A source note with one "Related Notes" section. *)
Definition once : text := lines ["# Alpha"; "## Related Notes"; "- [[old]]"].
Definition vault_once : gmap string File := <[a_md := note once]> vault0.

(** An exclusion list with a capital letter in a pattern, and a note in a
    directory of that name. *)
Definition config_capital : Config :=
  {| auto_apply := auto_apply default_config;
     safety := {| max_file_size_mb := 5; skip_patterns := ["Temp"] |} |}.

Definition temp_md : string := "/vault/Temp/draft.md".

Definition vault_temp : gmap string File :=
  <[temp_md := note (lines ["draft"])]> vault0.



End Scenario.

(** * Further scenarios *)

Module MoreScenarios.

Import Scenario.

(** The baseline knows an older text of the first note. *)
Definition stale : Service :=
  set_file_hashes (<[a_md := md5 (lines ["# Alpha"])]> ∅) idle.

(** The baseline knows the present text of the first note. *)
Definition settled : Service :=
  set_file_hashes (<[a_md := md5 alpha]> ∅) idle.

(** Both notes are classified and the hourly counter is at the cap. *)
Definition classified_capped : Service := set_hourly 15 0 classified.

(** Both notes are classified and auto-apply is switched off. *)
Definition config_disabled : Config :=
  {| auto_apply :=
       {| enabled := false;
          confidence_threshold := 75 # 100;
          strength_threshold := 7;
          max_per_hour := 15;
          safe_connection_types := ["temporal"; "project"; "thematic"] |};
     safety := safety default_config |}.

Definition classified_disabled : Service :=
  set_file_analysis (file_analysis classified) (init config_disabled vault0).

(** A table of connections: a strong one, a weak one, and a strong one
    that is marked applied. *)
Definition weak : Connection :=
  {| source_file := b_md; target_file := a_md;
     connection_type := VStr "thematic"; strength_score := VNum 3;
     confidence := VNum (9 # 10); reason := VStr "both are notes";
     suggested_link := VNone; auto_applied := false; created_at := 0 |}.

Definition pending_table : list ConnectionRow :=
  [{| row_id := 1; row_connection := weak; applied_at := None |};
   {| row_id := 2; row_connection := best; applied_at := None |};
   {| row_id := 3; row_connection := set_auto_applied true best; applied_at := None |}].

(** Both notes were found by a scan and wait in the queue. *)
Definition scanned_once : Service := _scan_vault_files clock md5 [a_md; b_md] idle.

(** Three tasks enqueued one after the other, at priorities 1, 2 and 1. *)
Definition one_md : string := "/vault/one.md".
Definition two_md : string := "/vault/two.md".
Definition three_md : string := "/vault/three.md".

Definition three_tasks : Service :=
  let s1 : Service := _queue_analysis_task clock idle one_md 1 "new_file" in
  let s2 : Service := _queue_analysis_task clock s1 two_md 2 "modified_file" in
  _queue_analysis_task clock s2 three_md 1 "new_file".

(** A reply in which prose surrounds an object that holds an object. *)
Definition prose_before : text := txt "Here is the analysis: ".

Definition nested_body : text :=
  quoted "primary_topic" ++ txt ": " ++ quoted "Plans" ++ txt ", "
  ++ quoted "meta" ++ txt ": {" ++ quoted "n" ++ txt ": 1}".

Definition prose_after : text := txt " I hope this helps.".

(** A service that has been up for a quarter of an hour. *)
Definition busy : Service :=
  set_processing_stats
    {| files_processed := 12; connections_found := 3; connections_applied := 1;
       errors := 2; last_activity := 900 |} idle.

(** The analyzer process exits with an error. *)
Definition ollama_failing (n : nat) : Run := Exited 1 (txt "Error: model not found").

End MoreScenarios.

(** * Properties *)

Lemma Qlt_bool_true (a b : Q) : Py.Qlt_bool a b = true <-> (a < b)%Q.
Proof.
  unfold Py.Qlt_bool. rewrite negb_true_iff.
  split; intros H.
  - apply Qnot_le_lt. intros Hle. apply Qle_bool_iff in Hle. congruence.
  - destruct (Qle_bool b a) eqn:E; [|reflexivity].
    apply Qle_bool_iff in E. exfalso. exact (Qlt_not_le _ _ H E).
Qed.

Lemma Qlt_bool_false (a b : Q) : Py.Qlt_bool a b = false <-> (b <= a)%Q.
Proof.
  unfold Py.Qlt_bool. rewrite negb_false_iff. apply Qle_bool_iff.
Qed.

(** ** The auto-apply policy *)

Section AutoApplyPolicy.

Variable clock : nat -> Q.


Lemma in_strs_true v l : Py.in_strs v l = true <-> type_allowed v l.
Proof.
  unfold Py.in_strs, type_allowed. rewrite existsb_exists. split.
  - intros (t & Hin & Heq). destruct v; simpl in Heq; try discriminate.
    apply String.eqb_eq in Heq. subst. eauto.
  - intros (t & -> & Hin). exists t. split; [assumption|]. simpl. apply String.eqb_refl.
Qed.

Lemma lt_num_false v q : Py.lt_num v q = Some false <-> not_below v q.
Proof.
  unfold Py.lt_num, not_below, at_least. destruct (Py.num_of v) as [[x|]|]; split.
  - intros H. injection H as H. apply Qlt_bool_false in H. eauto.
  - intros [(q' & [= <-] & Hle) | H]; [|discriminate]. f_equal. now apply Qlt_bool_false.
  - auto.
  - reflexivity.
  - discriminate.
  - intros [(q' & H & _) | H]; discriminate.
Qed.

Lemma nan_not_at_least v q : Py.num_of v = Some Py.NaN -> ~ at_least v q.
Proof. intros H (x & Hx & _). congruence. Qed.

(** The service in which the policy is evaluated, after the counter was
    reset or kept. *)
Lemma should_auto_apply_state s c :
  let s1 := snd (_should_auto_apply_connection clock s c) in
  connection_application_count s1 = counter_after_rollover clock s
  /\ config s1 = config s.
Proof.
  unfold _should_auto_apply_connection, counter_after_rollover, hour_now. simpl.
  destruct (py_int (clock (clock_reads (world s)) / 3600) =? last_connection_hour s);
    simpl;
    repeat match goal with
           | |- context [if ?b then _ else _] => destruct b; simpl
           | |- context [match ?o with Some _ => _ | None => _ end] => destruct o; simpl
           end; auto.
Qed.

End AutoApplyPolicy.

Section NanConfidence.

Import Scenario.

(** C2, at a failing input.  The analyzer scores the pair of two
    classified notes 8 and gives NaN as its confidence.  The connection
    that [analyze_connection] builds from the reply has that confidence,
    which is not at or above the threshold 0.75; the hourly counter is 0,
    the strength 8 is above 6, the type is allowed and auto-apply is
    enabled.  [_should_auto_apply_connection] returns true, and the
    discovery cycle applies the connection. *)
Theorem nan_confidence_is_auto_applied :
  let cfg := auto_apply (config classified) in
  let s' := _connection_analyzer_cycle clock ollama_nan str_of classified in
  exists c,
    fst (OllamaClient.analyze_connection clock ollama_nan (world classified)
           (analysis a_md 950) (analysis b_md 900)) = Some c
    /\ confidence c = VNaN
    /\ ~ at_least (confidence c) (confidence_threshold cfg)
    /\ counter_after_rollover clock classified < max_per_hour cfg
    /\ at_least (strength_score c) (strength_threshold cfg)
    /\ type_allowed (connection_type c) (safe_connection_types cfg)
    /\ enabled cfg = true
    /\ fst (_should_auto_apply_connection clock classified c) = Some true
    /\ connections_applied (processing_stats s') = 1.
Proof.
  cbv zeta. eexists. split; [vm_compute; reflexivity|]. cbn [confidence].
  split; [reflexivity|].
  split; [apply nan_not_at_least; reflexivity|].
  split; [vm_compute; reflexivity|].
  split; [exists 8%Q; split; [reflexivity | vm_compute; discriminate]|].
  split; [exists "thematic"%string; split; [reflexivity | vm_compute; auto]|].
  split; [reflexivity|].
  split; vm_compute; reflexivity.
Qed.

End NanConfidence.

(** ** The task queue *)

Section Queue.

Import PriorityQueue.

Lemma precedes_refl a : precedes a a.
Proof. right. split; [reflexivity | apply Qle_refl]. Qed.

Lemma precedes_trans a b c : precedes a b -> precedes b c -> precedes a c.
Proof.
  unfold precedes. intros [Hab | [Hab Hab']] [Hbc | [Hbc Hbc']].
  - left. lia.
  - left. lia.
  - left. lia.
  - right. split; [congruence | eapply Qle_trans; eassumption].
Qed.

Lemma lt_true a b : lt a b = Some true -> precedes a b.
Proof.
  unfold lt, precedes, enqueue_time.
  destruct (Z.eqb_spec (priority a) (priority b)) as [E | E]; simpl.
  - destruct (Qeq_bool (neg_time a) (neg_time b)); simpl.
    + destruct (task_eqb _ _); discriminate.
    + intros [= H]. apply Qlt_bool_true in H. right. split; [assumption|].
      apply Qopp_le_compat. now apply Qlt_le_weak.
  - intros [= H]. apply Z.ltb_lt in H. now left.
Qed.

Lemma lt_false a b : lt a b = Some false -> precedes b a.
Proof.
  unfold lt, precedes, enqueue_time.
  destruct (Z.eqb_spec (priority a) (priority b)) as [E | E]; simpl.
  - destruct (Qeq_bool (neg_time a) (neg_time b)) eqn:Ht; simpl.
    + intros _. right. split; [congruence|]. apply Qeq_bool_iff in Ht.
      apply Qopp_le_compat. rewrite Ht. apply Qle_refl.
    + intros [= H]. apply Qlt_bool_false in H. right. split; [congruence|].
      now apply Qopp_le_compat.
  - intros [= H]. apply Z.ltb_ge in H. left. lia.
Qed.

Lemma tie_free_perm q q' : Permutation q q' -> tie_free q -> tie_free q'.
Proof.
  intros Hp H a b Ha Hb.
  apply H; eapply Permutation_in; try eassumption; now symmetry.
Qed.

Lemma lookup_In (h : list Entry) i x : h !! i = Some x -> In x h.
Proof. intros H. apply list_elem_of_In. eapply list_elem_of_lookup_2. exact H. Qed.

(** *** The sifts permute the heap *)

Lemma siftdown_loop_perm turns : forall h sp pos,
  Permutation (heap_of (siftdown_loop turns h sp pos)) h.
Proof.
  induction turns as [| turns IH]; intros h sp pos; cbn [siftdown_loop];
    [reflexivity|].
  destruct (sp <? pos)%nat; [|reflexivity].
  destruct (h !! pos) as [x|] eqn:Hx; [|reflexivity].
  destruct (h !! ((pos - 1) / 2)%nat) as [y|] eqn:Hy; [|reflexivity].
  destruct (lt x y) as [[|]|]; try reflexivity.
  rewrite IH. now apply Permutation_insert_swap.
Qed.

Lemma siftup_loop_perm turns : forall h sp pos,
  Permutation (heap_of (siftup_loop turns h sp pos)) h.
Proof.
  induction turns as [| turns IH]; intros h sp pos; cbn [siftup_loop];
    [apply siftdown_loop_perm|].
  destruct (pos <? length h / 2)%nat; [|apply siftdown_loop_perm].
  destruct (lower_child h pos) as [c|]; [|reflexivity].
  destruct (h !! c) as [x|] eqn:Hx; [|reflexivity].
  destruct (h !! pos) as [y|] eqn:Hy; [|reflexivity].
  rewrite IH. now apply Permutation_insert_swap.
Qed.

Lemma heappush_perm h e : Permutation (heap_of (heappush h e)) (e :: h).
Proof.
  unfold heappush, siftdown. rewrite siftdown_loop_perm.
  symmetry. apply Permutation_cons_append.
Qed.

(** The heap that [heappop] took apart. *)
Lemma heappop_shape (h : list Entry) :
  match rev h with
  | [] => h = []
  | lastelt :: front =>
      match rev front with
      | [] => h = [lastelt]
      | returnitem :: rest => h = returnitem :: rest ++ [lastelt]
      end
  end.
Proof.
  destruct (rev h) as [| lastelt front] eqn:Hr.
  - apply (f_equal (@rev Entry)) in Hr. now rewrite rev_involutive in Hr.
  - apply (f_equal (@rev Entry)) in Hr. rewrite rev_involutive in Hr. simpl in Hr.
    destruct (rev front) as [| returnitem rest]; subst h; reflexivity.
Qed.

Lemma heappop_perm h :
  match heappop h with
  | Item e h' => Permutation (e :: h') h /\ h !! 0%nat = Some e
  | PopError h' => exists e, Permutation (e :: h') h /\ h !! 0%nat = Some e
  | IndexError => h = []
  end.
Proof.
  unfold heappop. pose proof (heappop_shape h) as Hs.
  destruct (rev h) as [| lastelt front]; [assumption|].
  destruct (rev front) as [| returnitem rest]; [subst h; split; reflexivity|].
  pose proof (siftup_loop_perm (length (lastelt :: rest)) (lastelt :: rest) 0 0) as Hp.
  unfold siftup.
  assert (Hh : Permutation (returnitem :: lastelt :: rest) h).
  { subst h. apply perm_skip. apply Permutation_cons_append. }
  destruct (siftup_loop _ _ _ _) as [h' | h']; simpl in Hp.
  - split; [|now subst h]. now rewrite Hp.
  - exists returnitem. split; [|now subst h]. now rewrite Hp.
Qed.

(** *** On a queue without ties no comparison raises *)

Lemma siftdown_loop_total turns : forall h sp pos,
  tie_free h -> exists h', siftdown_loop turns h sp pos = Sifted h'.
Proof.
  induction turns as [| turns IH]; intros h sp pos Hfree; cbn [siftdown_loop];
    [eauto|].
  destruct (sp <? pos)%nat; [|eauto].
  destruct (h !! pos) as [x|] eqn:Hx; [|eauto].
  destruct (h !! ((pos - 1) / 2)%nat) as [y|] eqn:Hy; [|eauto].
  destruct (lt x y) as [[|]|] eqn:Hlt; [|eauto|].
  - apply IH. eapply tie_free_perm; [|exact Hfree].
    symmetry. now apply Permutation_insert_swap.
  - exfalso. apply (Hfree x y); [eapply lookup_In | eapply lookup_In |]; eassumption.
Qed.

Lemma lower_child_total h pos :
  tie_free h -> exists c, lower_child h pos = Some c.
Proof.
  intros Hfree. unfold lower_child.
  destruct (2 * pos + 1 + 1 <? length h)%nat; [|eauto].
  destruct (h !! (2 * pos + 1)%nat) as [a|] eqn:Ha; [|eauto].
  destruct (h !! (2 * pos + 1 + 1)%nat) as [b|] eqn:Hb; [|eauto].
  destruct (lt a b) as [[|]|] eqn:Hlt; [eauto | eauto |].
  exfalso. apply (Hfree a b); [eapply lookup_In | eapply lookup_In |]; eassumption.
Qed.

Lemma siftup_loop_total turns : forall h sp pos,
  tie_free h -> exists h', siftup_loop turns h sp pos = Sifted h'.
Proof.
  induction turns as [| turns IH]; intros h sp pos Hfree; cbn [siftup_loop];
    [now apply siftdown_loop_total|].
  destruct (pos <? length h / 2)%nat; [|now apply siftdown_loop_total].
  destruct (lower_child_total h pos Hfree) as (c & ->).
  destruct (h !! c) as [x|] eqn:Hx; [|eauto].
  destruct (h !! pos) as [y|] eqn:Hy; [|eauto].
  apply IH. eapply tie_free_perm; [|exact Hfree].
  symmetry. now apply Permutation_insert_swap.
Qed.

(** *** The sifts restore the heap *)

Lemma parent_child pos : (0 < pos)%nat -> child ((pos - 1) / 2) pos.
Proof.
  intros H. unfold child. pose proof (Nat.div_mod_eq (pos - 1) 2) as Hd.
  pose proof (Nat.mod_upper_bound (pos - 1) 2). lia.
Qed.

Lemma lookup_swap (h : list Entry) i j x y k :
  h !! i = Some x -> h !! j = Some y ->
  <[i := y]> (<[j := x]> h) !! k
  = if decide (k = i) then Some y else if decide (k = j) then Some x else h !! k.
Proof.
  intros Hi Hj. apply lookup_lt_Some in Hi, Hj.
  destruct (decide (k = i)) as [-> | Hki].
  - apply list_lookup_insert_eq. now rewrite length_insert.
  - rewrite list_lookup_insert_ne by congruence.
    destruct (decide (k = j)) as [-> | Hkj].
    + now apply list_lookup_insert_eq.
    + apply list_lookup_insert_ne. congruence.
Qed.

Ltac lookups :=
  repeat match goal with
         | H : context [decide (?a = ?b)] |- _ =>
             destruct (decide (a = b)); [subst|]
         | H : Some _ = Some _ |- _ => injection H as <-
         end.

Ltac kids := unfold child in *; lia.

Ltac from_heap H := eapply H; first [eassumption | kids].

(** [lower] is what is known of the two entries swapped. *)
Ltac heap_case Ha Hb lower :=
  first
    [ exact lower
    | solve [exfalso; kids]
    | solve [from_heap Ha]
    | solve [from_heap Hb]
    | solve [from_heap lower]
    | match goal with
      | m : Entry |- _ =>
          solve [apply (precedes_trans _ m); first [exact lower | from_heap Ha | from_heap Hb]]
      end ].

Lemma hole_up_root h : hole_up h 0 -> heap_ok h.
Proof. intros [Ha _] i j a b Hi Hj Hc. apply (Ha i j); try assumption. kids. Qed.

Lemma siftdown_loop_heap turns : forall h pos h',
  (pos <= turns)%nat -> hole_up h pos ->
  siftdown_loop turns h 0 pos = Sifted h' -> heap_ok h'.
Proof.
  induction turns as [| turns IH]; intros h pos h' Hle Hup; cbn [siftdown_loop].
  - intros [= <-]. assert (pos = 0)%nat as -> by lia. now apply hole_up_root.
  - destruct (Nat.ltb_spec 0 pos) as [Hpos | Hpos].
    2: { intros [= <-]. assert (pos = 0)%nat as -> by lia. now apply hole_up_root. }
    pose proof (parent_child pos Hpos) as Hpc.
    set (p := ((pos - 1) / 2)%nat) in *. clearbody p.
    destruct Hup as [Ha Hb].
    destruct (h !! pos) as [x|] eqn:Hx.
    2: { intros [= <-] i j a b Hi Hj Hc. apply (Ha i j a b); try assumption. congruence. }
    destruct (h !! p) as [y|] eqn:Hy.
    2: { intros [= <-] i j a b Hi Hj Hc.
         destruct (decide (j = pos)) as [-> | Hne]; [|now apply (Ha i j a b)].
         assert (i = p) as -> by kids. congruence. }
    destruct (lt x y) as [[|]|] eqn:Hlt; [| |discriminate].
    + intros Hres.
      apply (IH (<[pos := y]> (<[p := x]> h)) p h'); [kids | | exact Hres].
      apply lt_true in Hlt. split.
      * intros i j a b Hi Hj Hc Hne.
        rewrite (lookup_swap h pos p x y) in Hi, Hj by assumption.
        lookups; heap_case Ha Hb Hlt.
      * intros g c a b Hi Hj Hg Hc.
        rewrite (lookup_swap h pos p x y) in Hi, Hj by assumption.
        lookups; heap_case Ha Hb Hlt.
    + intros [= <-]. apply lt_false in Hlt. intros i j a b Hi Hj Hc.
      destruct (decide (j = pos)) as [-> | Hne]; [|now apply (Ha i j a b)].
      assert (i = p) as -> by kids.
      congruence.
Qed.

Lemma lower_child_spec h pos c :
  (2 * pos + 1 < length h)%nat ->
  lower_child h pos = Some c ->
  child pos c /\ (c < length h)%nat
  /\ forall d x b, h !! c = Some x -> h !! d = Some b -> child pos d -> precedes x b.
Proof.
  intros Hlen. unfold lower_child.
  destruct (Nat.ltb_spec (2 * pos + 1 + 1) (length h)) as [Hr | Hr].
  - destruct (lookup_lt_is_Some_2 h (2 * pos + 1)%nat Hlen) as (a & Ha).
    destruct (lookup_lt_is_Some_2 h (2 * pos + 1 + 1)%nat Hr) as (b & Hb).
    rewrite Ha, Hb. destruct (lt a b) as [[|]|] eqn:Hlt; [| |discriminate].
    + intros Hsome. apply (inj Some) in Hsome. subst c. apply lt_true in Hlt. split; [kids|]. split; [assumption|].
      intros d x b' Hx Hd Hc. assert (x = a) as -> by congruence.
      destruct Hc as [-> | ->].
      * assert (b' = a) as -> by congruence. apply precedes_refl.
      * replace (2 * pos + 2)%nat with (2 * pos + 1 + 1)%nat in Hd by lia.
        assert (b' = b) as -> by congruence. exact Hlt.
    + intros Hsome. apply (inj Some) in Hsome. subst c. apply lt_false in Hlt. split; [kids|]. split; [assumption|].
      intros d x b' Hx Hd Hc. assert (x = b) as -> by congruence.
      destruct Hc as [-> | ->].
      * assert (b' = a) as -> by congruence. exact Hlt.
      * replace (2 * pos + 2)%nat with (2 * pos + 1 + 1)%nat in Hd by lia.
        assert (b' = b) as -> by congruence. apply precedes_refl.
  - intros Hsome. apply (inj Some) in Hsome. subst c.
    split; [kids|]. split; [assumption|].
    intros d x b Hx Hd Hc. destruct Hc as [-> | ->].
    + assert (b = x) as -> by congruence. apply precedes_refl.
    + apply lookup_lt_Some in Hd. lia.
Qed.

Lemma siftup_loop_heap turns : forall h pos h',
  hole_down h pos -> (pos < length h)%nat -> (length h <= pos + turns)%nat ->
  siftup_loop turns h 0 pos = Sifted h' -> heap_ok h'.
Proof.
  induction turns as [| turns IH]; intros h pos h' Hdown Hpos Hturns;
    cbn [siftup_loop]; [lia|].
  destruct Hdown as [Ha Hb].
  pose proof (Nat.div_mod_eq (length h) 2) as Hd.
  pose proof (Nat.mod_upper_bound (length h) 2) as Hm.
  destruct (Nat.ltb_spec pos (length h / 2)) as [Hin | Hleaf].
  - assert (Hlen : (2 * pos + 1 < length h)%nat) by lia.
    destruct (lower_child h pos) as [c|] eqn:Hc; [|discriminate].
    destruct (lower_child_spec h pos c Hlen Hc) as (Hchild & Hclen & Hlow).
    destruct (lookup_lt_is_Some_2 h c Hclen) as (v & Hv).
    destruct (lookup_lt_is_Some_2 h pos Hpos) as (x & Hx).
    rewrite Hv, Hx. intros Hres.
    apply (IH (<[pos := v]> (<[c := x]> h)) c h'); [| | | exact Hres].
    + pose proof (fun d b => Hlow d v b Hv) as Hl. split.
      * intros i j a b Hi Hj Hij Hni Hnj.
        rewrite (lookup_swap h pos c x v) in Hi, Hj by assumption.
        lookups; heap_case Ha Hb Hl.
      * intros g d a b Hi Hj Hg Hcd.
        rewrite (lookup_swap h pos c x v) in Hi, Hj by assumption.
        lookups; heap_case Ha Hb Hl.
    + now rewrite !length_insert.
    + rewrite !length_insert. kids.
  - intros Hres. apply (siftdown_loop_heap pos h pos h'); [lia | | exact Hres].
    split; [|exact Hb].
    intros i j a b Hi Hj Hc Hne.
    destruct (decide (i = pos)) as [-> | Hi'].
    + apply lookup_lt_Some in Hj. kids.
    + now apply (Ha i j).
Qed.

(** The first entry of a heap is not after any other. *)
Lemma heap_root h a : heap_ok h -> h !! 0%nat = Some a -> Forall (precedes a) h.
Proof.
  intros Hok Ha. apply List.Forall_forall. intros b Hin.
  apply list_elem_of_In, list_elem_of_lookup_1 in Hin as (j & Hj).
  revert b Hj. induction j as [j IH] using lt_wf_ind. intros b Hj.
  destruct (Nat.eq_dec j 0%nat) as [-> | Hpos].
  - assert (b = a) as -> by congruence. apply precedes_refl.
  - pose proof (parent_child j ltac:(lia)) as Hc.
    assert (Hp : ((j - 1) / 2 < j)%nat) by kids.
    destruct (lookup_lt_is_Some_2 h ((j - 1) / 2)%nat) as (c & Hcv).
    { apply lookup_lt_Some in Hj. lia. }
    eapply precedes_trans; [exact (IH _ Hp c Hcv)|].
    exact (Hok _ j c b Hcv Hj Hc).
Qed.

Lemma heappush_heap h e h' :
  heap_ok h -> heappush h e = Sifted h' -> heap_ok h'.
Proof.
  intros Hok. unfold heappush, siftdown.
  apply siftdown_loop_heap; [lia|]. split.
  - intros i j a b Hi Hj Hc Hne.
    assert (Hjl : (j < length h)%nat).
    { apply lookup_lt_Some in Hj. rewrite length_app in Hj. simpl in Hj. lia. }
    rewrite lookup_app_l in Hi by kids. rewrite lookup_app_l in Hj by assumption.
    now apply (Hok i j).
  - intros p c a b _ Hc _ Hpc. apply lookup_lt_Some in Hc.
    rewrite length_app in Hc. simpl in Hc. kids.
Qed.

(** On a heap without ties, [heappop] gives the first entry, which is not
    after any other, and leaves a heap of the others. *)
Lemma heappop_heap h :
  heap_ok h -> tie_free h -> h <> [] ->
  exists e h',
    heappop h = Item e h' /\ h !! 0%nat = Some e /\ Forall (precedes e) h
    /\ Permutation (e :: h') h /\ heap_ok h'.
Proof.
  intros Hok Hfree Hne. pose proof (heappop_perm h) as Hperm.
  pose proof (heappop_shape h) as Hshape. unfold heappop in *.
  destruct (rev h) as [| lastelt front]; [contradiction|].
  destruct (rev front) as [| returnitem rest].
  { destruct Hperm as [Hp H0]. exists lastelt, []. split; [reflexivity|].
    split; [assumption|]. split; [now apply heap_root|]. split; [assumption|].
    intros i j a b Hi. discriminate Hi. }
  assert (Hfree' : tie_free (lastelt :: rest)).
  { intros a b Hina Hinb. apply Hfree; subst h.
    - destruct Hina as [<- | Hina]; [right; apply in_or_app; right; now left|].
      right. apply in_or_app. now left.
    - destruct Hinb as [<- | Hinb]; [right; apply in_or_app; right; now left|].
      right. apply in_or_app. now left. }
  unfold siftup in *.
  destruct (siftup_loop_total (length (lastelt :: rest)) (lastelt :: rest) 0 0 Hfree')
    as (h' & Hs).
  rewrite Hs in *. destruct Hperm as [Hp H0].
  exists returnitem, h'. split; [reflexivity|]. split; [assumption|].
  split; [now apply heap_root|]. split; [assumption|].
  apply (siftup_loop_heap _ _ _ _) in Hs; [assumption | | simpl; lia | lia].
  split.
  - intros i j a b Hi Hj Hc Hni Hnj.
    destruct i as [| i]; [contradiction|]. destruct j as [| j]; [contradiction|].
    simpl in Hi, Hj. apply (Hok (S i) (S j)); [| |assumption]; subst h; simpl.
    + now apply lookup_app_l_Some.
    + now apply lookup_app_l_Some.
  - intros p c a b _ _ Hp0. kids.
Qed.

(** *** Putting an entry that ties with none *)

Lemma lt_same a : lt a a = Some false.
Proof.
  unfold lt, task_eqb. rewrite Z.eqb_refl. simpl.
  assert (Ht : Qeq_bool (neg_time a) (neg_time a) = true)
    by (apply Qeq_bool_iff; reflexivity).
  assert (Hq : Qeq_bool (queued_at (task a)) (queued_at (task a)) = true)
    by (apply Qeq_bool_iff; reflexivity).
  now rewrite Ht, !String.eqb_refl, Hq.
Qed.

(** Entries enqueued at different times are compared without raising. *)
Lemma lt_times a b :
  ~ (enqueue_time a == enqueue_time b)%Q -> lt a b <> None /\ lt b a <> None.
Proof.
  unfold enqueue_time, lt. intros Hne.
  assert (H1 : Qeq_bool (neg_time a) (neg_time b) = false).
  { destruct (Qeq_bool _ _) eqn:E; [|reflexivity]. apply Qeq_bool_iff in E.
    exfalso. apply Hne. now rewrite E. }
  assert (H2 : Qeq_bool (neg_time b) (neg_time a) = false).
  { destruct (Qeq_bool (neg_time b) _) eqn:E; [|reflexivity]. apply Qeq_bool_iff in E.
    exfalso. apply Hne. now rewrite E. }
  rewrite H1, H2. split; destruct (negb _); discriminate.
Qed.

Lemma tie_free_cons e h :
  tie_free h -> (forall b, In b h -> lt e b <> None /\ lt b e <> None) ->
  tie_free (e :: h).
Proof.
  intros Hfree He a b [<- | Ha] [<- | Hb].
  - rewrite lt_same. discriminate.
  - now apply He.
  - now apply He.
  - now apply Hfree.
Qed.

Lemma heappush_total h e :
  tie_free (e :: h) ->
  exists h', heappush h e = Sifted h' /\ Permutation h' (e :: h).
Proof.
  intros Hfree. unfold heappush, siftdown.
  destruct (siftdown_loop_total (length h) (h ++ [e]) 0 (length h)) as (h' & Hs).
  { eapply tie_free_perm; [|exact Hfree]. apply Permutation_cons_append. }
  exists h'. split; [assumption|].
  pose proof (heappush_perm h e) as Hp. unfold heappush, siftdown in Hp.
  now rewrite Hs in Hp.
Qed.

Lemma siftdown_loop_fresh turns : forall h pos e,
  h !! pos = Some e -> (forall b, In b h -> lt e b <> None) ->
  exists h', siftdown_loop turns h 0 pos = Sifted h'.
Proof.
  induction turns as [| turns IH]; intros h pos e He Hfresh; cbn [siftdown_loop];
    [eauto|].
  destruct (0 <? pos)%nat; [|eauto].
  rewrite He.
  destruct (h !! ((pos - 1) / 2)%nat) as [y|] eqn:Hy; [|eauto].
  destruct (lt e y) as [[|]|] eqn:Hlt; [|eauto|].
  - assert (Hperm : Permutation (<[pos := y]> (<[((pos - 1) / 2)%nat := e]> h)) h)
      by now apply Permutation_insert_swap.
    apply (IH _ _ e).
    + destruct (decide (((pos - 1) / 2)%nat = pos)) as [E | E].
      * rewrite E in *. assert (y = e) as -> by congruence.
        apply list_lookup_insert_eq. rewrite length_insert.
        now apply lookup_lt_Some in He.
      * rewrite list_lookup_insert_ne by congruence.
        apply list_lookup_insert_eq. now apply lookup_lt_Some in Hy.
    + intros b Hb. apply Hfresh. now apply (Permutation_in _ Hperm).
  - exfalso. apply (Hfresh y); [eapply lookup_In; eassumption | assumption].
Qed.

(** An entry that ties with none of the queue is put without raising. *)
Lemma heappush_fresh h e :
  (forall b, In b h -> lt e b <> None) -> exists h', heappush h e = Sifted h'.
Proof.
  intros Hfresh. unfold heappush, siftdown.
  apply (siftdown_loop_fresh _ _ _ e); [now apply list_lookup_middle|].
  intros b Hb. apply in_app_or in Hb as [Hb | [<- | []]]; [now apply Hfresh|].
  rewrite lt_same. discriminate.
Qed.

(** *** An entry that is lower than all the others goes first *)

Lemma siftdown_loop_lowest turns : forall h pos e,
  (pos <= turns)%nat -> h !! pos = Some e ->
  (forall i b, i <> pos -> h !! i = Some b -> lt e b = Some true) ->
  exists h', siftdown_loop turns h 0 pos = Sifted h' /\ h' !! 0%nat = Some e.
Proof.
  induction turns as [| turns IH]; intros h pos e Hle He Hlow; cbn [siftdown_loop].
  - assert (pos = 0)%nat as -> by lia. eauto.
  - destruct (Nat.ltb_spec 0 pos) as [Hpos | Hpos].
    2: { assert (pos = 0)%nat as -> by lia. eauto. }
    pose proof (parent_child pos Hpos) as Hpc.
    set (p := ((pos - 1) / 2)%nat) in *. clearbody p.
    rewrite He.
    destruct (lookup_lt_is_Some_2 h p) as (y & Hy).
    { apply lookup_lt_Some in He. kids. }
    rewrite Hy, (Hlow p y) by (try assumption; kids).
    apply IH; [kids | |].
    + rewrite (lookup_swap h pos p e y) by assumption.
      destruct (decide (p = pos)); [kids|]. now rewrite decide_True.
    + intros i b Hi Hb. rewrite (lookup_swap h pos p e y) in Hb by assumption.
      destruct (decide (i = pos)) as [-> | Hne].
      * injection Hb as <-. apply (Hlow p); [kids | assumption].
      * rewrite decide_False in Hb by assumption. now apply (Hlow i).
Qed.

Lemma heappush_lowest h e :
  Forall (fun b => lt e b = Some true) h ->
  exists h', heappush h e = Sifted h' /\ h' !! 0%nat = Some e
             /\ Permutation h' (e :: h).
Proof.
  intros Hlow. unfold heappush, siftdown.
  destruct (siftdown_loop_lowest (length h) (h ++ [e]) (length h) e) as (h' & Hs & H0).
  - lia.
  - now apply list_lookup_middle.
  - intros i b Hi Hb. rewrite List.Forall_forall in Hlow. apply Hlow.
    assert (Hlt : (i < length h)%nat).
    { apply lookup_lt_Some in Hb. rewrite length_app in Hb. simpl in Hb. lia. }
    rewrite lookup_app_l in Hb by assumption. eapply lookup_In. exact Hb.
  - exists h'. split; [assumption|]. split; [assumption|].
    pose proof (heappush_perm h e) as Hp. unfold heappush, siftdown in Hp.
    now rewrite Hs in Hp.
Qed.

(** On a queue without ties [heappop] takes the first entry. *)
Lemma heappop_first h e :
  tie_free h -> h !! 0%nat = Some e ->
  exists h', heappop h = Item e h' /\ Permutation (e :: h') h.
Proof.
  intros Hfree H0. pose proof (heappop_perm h) as Hperm.
  pose proof (heappop_shape h) as Hshape. unfold heappop in *.
  destruct (rev h) as [| lastelt front]; [subst h; discriminate|].
  destruct (rev front) as [| returnitem rest].
  { destruct Hperm as [Hp H1]. assert (lastelt = e) as -> by congruence. eauto. }
  assert (Hfree' : tie_free (lastelt :: rest)).
  { intros a b Hina Hinb. apply Hfree; subst h.
    - destruct Hina as [<- | Hina]; [right; apply in_or_app; right; now left|].
      right. apply in_or_app. now left.
    - destruct Hinb as [<- | Hinb]; [right; apply in_or_app; right; now left|].
      right. apply in_or_app. now left. }
  unfold siftup in *.
  destruct (siftup_loop_total (length (lastelt :: rest)) (lastelt :: rest) 0 0 Hfree')
    as (h' & Hs).
  rewrite Hs in *. destruct Hperm as [Hp H1].
  assert (returnitem = e) as -> by congruence. eauto.
Qed.

(** *** The order in which a heap is emptied *)

Lemma tie_free_tail e h h' : tie_free h -> Permutation (e :: h') h -> tie_free h'.
Proof.
  intros Hfree Hp a b Ha Hb.
  apply Hfree; apply (Permutation_in _ Hp); now right.
Qed.

Lemma drain_sorted n : forall q,
  heap_ok q -> tie_free q -> length q = n ->
  Permutation (drain n q) q /\ StronglySorted precedes (drain n q).
Proof.
  induction n as [| n IH]; intros q Hok Hfree Hlen.
  - destruct q; [|discriminate]. split; constructor.
  - assert (Hne : q <> []) by (destruct q; [discriminate | congruence]).
    destruct (heappop_heap q Hok Hfree Hne) as (e & q' & Hpop & _ & Hall & Hp & Hok').
    cbn [drain]. unfold get. rewrite Hpop.
    assert (Hlen' : length q' = n).
    { apply Permutation_length in Hp. simpl in Hp. lia. }
    destruct (IH q' Hok' (tie_free_tail _ _ _ Hfree Hp) Hlen') as [Hd Hs]. split.
    + rewrite <- Hp. now apply perm_skip.
    + constructor; [assumption|].
      apply List.Forall_forall. intros b Hb. rewrite List.Forall_forall in Hall.
      apply Hall. apply (Permutation_in _ Hp). right.
      now apply (Permutation_in _ Hd).
Qed.

End Queue.

Section Scheduler.

Variable clock : nat -> Q.
Variable ollama : nat -> Run.
Variable md5 : text -> string.

(** What [_queue_analysis_task] changes: the clock is read twice and the
    tuple is in the queue, whether [put] raised or not. *)
Lemma queue_task_spec s p pr ty :
  let o := _queue_analysis_task clock s p pr ty in
  Permutation (task_queue o) (queued_entry clock s p pr ty :: task_queue s)
  /\ clock_reads (world o) = S (S (clock_reads (world s)))
  /\ config o = config s /\ vault (world o) = vault (world s)
  /\ file_hashes o = file_hashes s
  /\ processing_stats o = processing_stats s.
Proof.
  cbv zeta. unfold _queue_analysis_task. simpl.
  pose proof (heappush_perm (task_queue s) (queued_entry clock s p pr ty))
    as Hp.
  unfold PriorityQueue.put, queued_entry in *.
  destruct (PriorityQueue.heappush _ _); simpl in *; repeat split; assumption.
Qed.

Lemma queue_task_raised s p pr ty :
  raised (_queue_analysis_task clock s p pr ty) = false
  <-> exists q, PriorityQueue.put (task_queue s) (queued_entry clock s p pr ty)
                = PriorityQueue.Sifted q.
Proof.
  unfold _queue_analysis_task, queued_entry. simpl.
  destruct (PriorityQueue.put _ _); simpl; split; eauto.
  - discriminate.
  - intros (q & Hq). discriminate.
Qed.

Lemma process_keeps_queue s t :
  task_queue (_process_analysis_task clock ollama md5 s t) = task_queue s.
Proof.
  unfold _process_analysis_task.
  destruct (OllamaClient.analyze_file_content clock ollama (world s) (file_path t))
    as [[a|] w1]; simpl; [|reflexivity].
  destruct (DatabaseManager.save_analysis _ _ _); reflexivity.
Qed.

(** A turn of the task processor on a queue without ties takes the first
    entry of the heap. *)
Lemma processor_step_takes s e :
  tie_free (task_queue s) -> task_queue s !! 0%nat = Some e ->
  fst (_task_processor_step clock ollama md5 s) = Some (task e)
  /\ Permutation (e :: task_queue (snd (_task_processor_step clock ollama md5 s)))
                 (task_queue s).
Proof.
  intros Hfree H0. unfold _task_processor_step.
  destruct (task_queue s) as [| x q] eqn:Hq; [discriminate|]. simpl negb. cbv iota.
  destruct (heappop_first (x :: q) e Hfree H0) as (q' & Hpop & Hperm).
  unfold PriorityQueue.get. rewrite Hpop. simpl.
  split; [reflexivity|]. now rewrite process_keeps_queue.
Qed.

End Scheduler.

Section LostTask.

Import Scenario.

(** C3, at a failing input.  A scan finds two new notes, and the clock
    gives the same reading for both: the tuples tie on priority and time,
    so [put] compares their task dicts and raises, which the scan counts
    as an error, both tuples being in the queue.  A task forced
    afterwards, at a later reading, goes first in the queue.  The next
    turn of the task processor takes it out and raises when the two tied
    tuples are compared: the turn processes nothing and the forced task,
    of priority 0, is lost.  The next two turns take the tasks of
    priority 1. *)
Theorem tied_tasks_lose_forced_task :
  let show := map (fun e => (priority e, file_path (task e), enqueue_time e)) in
  let s1 := _scan_vault_files coarse md5 [a_md; b_md] idle in
  let s2 : Service := force_analysis coarse (Some a_md) [] s1 in
  let turn := _task_processor_step coarse ollama_topic md5 in
  show (task_queue s1) = [(1, a_md, 1000%Q); (1, b_md, 1000%Q)]
  /\ errors (processing_stats s1) = 1
  /\ show (task_queue s2) = [(0, a_md, 1001%Q); (1, b_md, 1000%Q); (1, a_md, 1000%Q)]
  /\ fst (turn s2) = None
  /\ show (task_queue (snd (turn s2))) = [(1, b_md, 1000%Q); (1, a_md, 1000%Q)]
  /\ errors (processing_stats (snd (turn s2))) = 2
  /\ map (fun t => (task_type t, file_path t))
         (fst (process_turns coarse ollama_topic md5 3 s2))
     = [("new_file"%string, b_md); ("new_file"%string, a_md)]
  /\ task_queue (snd (process_turns coarse ollama_topic md5 3 s2)) = [].
Proof. vm_compute. repeat split; reflexivity. Qed.

End LostTask.

(** ** Connection discovery *)


Section Discovery.

Variable clock : nat -> Q.
Variable ollama : nat -> Run.
Variable str_of : value -> text.

Lemma analyze_connection_score w a b :
  match fst (OllamaClient.analyze_connection clock ollama w a b) with
  | Some c => above (strength_score c) 2
  | None => True
  end.
Proof.
  unfold OllamaClient.analyze_connection. simpl.
  destruct (Py.truthy _); simpl; [|exact I].
  destruct (OllamaClient.extract_json_from_response _) as [| | | | |d|]; simpl; try exact I.
  unfold Py.gt_num.
  destruct (Py.num_of (Py.get d "connection_score" (VNum 0))) as [[x|]|] eqn:Hx;
    simpl; try exact I.
  destruct (Py.Qlt_bool 2 x) eqn:Hlt; simpl; [|exact I].
  exists x. split; [assumption | now apply Qlt_bool_true].
Qed.

Lemma cell_above v q : above v q -> above (DatabaseManager.cell v) q.
Proof. intros (x & Hx & Hlt). destruct v; try discriminate; exists x; auto. Qed.

Lemma adds_strong_rows_refl s s' :
  connections s' = connections s -> adds_strong_rows s s'.
Proof. intros H. exists []. rewrite app_nil_r. split; [assumption | constructor]. Qed.

Lemma adds_strong_rows_trans s1 s2 s3 :
  adds_strong_rows s1 s2 -> adds_strong_rows s2 s3 -> adds_strong_rows s1 s3.
Proof.
  intros (a1 & H1 & F1) (a2 & H2 & F2). exists (a1 ++ a2). split.
  - rewrite H2, H1. now rewrite <- app_assoc.
  - apply Forall_app. split; assumption.
Qed.

Lemma should_auto_apply_connections s c :
  connections (snd (_should_auto_apply_connection clock s c)) = connections s.
Proof.
  unfold _should_auto_apply_connection. simpl.
  destruct (negb _); simpl;
    repeat match goal with
           | |- context [if ?b then _ else _] => destruct b; simpl
           | |- context [match ?o with Some _ => _ | None => _ end] => destruct o; simpl
           end; reflexivity.
Qed.

Lemma apply_connection_connections s c :
  connections (snd (fst (_apply_connection str_of s c))) = connections s.
Proof.
  unfold _apply_connection.
  destruct (negb _ || negb _); simpl; [reflexivity|].
  destruct (read_text _ _); simpl; [|reflexivity].
  destruct (write_text _ _ _); reflexivity.
Qed.


Lemma compare_pair_adds found s a b :
  adds_strong_rows s (cycle_service (compare_pair clock ollama str_of found s a b)).
Proof.
  unfold compare_pair.
  pose proof (analyze_connection_score (world s) a b) as Hscore.
  destruct (OllamaClient.analyze_connection clock ollama (world s) a b) as [[c|] w1];
    simpl in *; [|now apply adds_strong_rows_refl].
  unfold DatabaseManager.save_connection.
  destruct (_ && _); simpl; [|now apply adds_strong_rows_refl].
  match goal with
  | |- context [_should_auto_apply_connection clock ?s2 c] =>
      pose proof (should_auto_apply_connections s2 c) as Hsame;
      destruct (_should_auto_apply_connection clock s2 c) as [[[|]|] s3]
  end; simpl in *.
  - pose proof (apply_connection_connections s3 c) as Happ.
    destruct (_apply_connection str_of s3 c) as [[applied s4] c']. simpl in *.
    eexists. split.
    + destruct applied; simpl; rewrite Happ, Hsame; reflexivity.
    + constructor; [now apply cell_above | constructor].
  - eexists. split; [rewrite Hsame; reflexivity|].
    constructor; [now apply cell_above | constructor].
  - eexists. split; [rewrite Hsame; reflexivity|].
    constructor; [now apply cell_above | constructor].
Qed.

Lemma inner_loop_adds a rest : forall found s,
  adds_strong_rows s (cycle_service (inner_loop clock ollama str_of a rest found s)).
Proof.
  induction rest as [| b rest IH]; intros found s; simpl.
  - now apply adds_strong_rows_refl.
  - destruct (max_connections_per_run <=? found); [now apply adds_strong_rows_refl|].
    pose proof (compare_pair_adds found s a b) as Hstep.
    destruct (compare_pair clock ollama str_of found s a b) as [found' s' | s'];
      simpl in *; [|assumption].
    eapply adds_strong_rows_trans; [eassumption | apply IH].
Qed.

Lemma outer_loop_adds window : forall found s,
  adds_strong_rows s (cycle_service (outer_loop clock ollama str_of window found s)).
Proof.
  induction window as [| a rest IH]; intros found s; simpl.
  - now apply adds_strong_rows_refl.
  - pose proof (inner_loop_adds a rest found s) as Hin.
    destruct (inner_loop clock ollama str_of a rest found s) as [found' s' | s'];
      simpl in *; [|assumption].
    destruct (max_connections_per_run <=? found'); [assumption|].
    eapply adds_strong_rows_trans; [eassumption | apply IH].
Qed.

(** C4.  Whatever the analyzer replies, a connection returned by
    [analyze_connection] has a score that is a number above 2 (any other
    result is dropped and [None] returned), and the rows that a discovery
    cycle saves all have a score above 2. *)
Theorem discovery_drops_weak_connections (s : Service) (w : World)
    (a b : AnalysisResult) :
  match fst (OllamaClient.analyze_connection clock ollama w a b) with
  | Some c => above (strength_score c) 2
  | None => True
  end
  /\ adds_strong_rows s (_connection_analyzer_cycle clock ollama str_of s).
Proof.
  split; [apply analyze_connection_score|].
  unfold _connection_analyzer_cycle.
  destruct (_ <? 2)%nat; [now apply adds_strong_rows_refl|].
  pose proof (outer_loop_adds
                (firstn 50 (DatabaseManager.get_all_analyses (file_analysis s))) 0 s) as H.
  destruct (outer_loop _ _ _ _ 0 s) as [found' s' | s']; simpl in *; assumption.
Qed.

End Discovery.

(** ** Defaults for absent fields *)


Section Defaults.

Variable clock : nat -> Q.
Variable ollama : nat -> Run.

Lemma get_absent data d k default :
  data = VDict d -> absent data k -> Py.get d k default = default.
Proof.
  intros -> (d' & [= <-] & Hnone). unfold Py.get. now rewrite Hnone.
Qed.

Lemma analysis_fields w p r :
  fst (OllamaClient.analyze_file_content clock ollama w p) = Some r ->
  exists d, response_data ollama w = VDict d
    /\ primary_topic r = Py.get d "primary_topic" (VStr "Unknown")
    /\ content_type r = Py.get d "content_type" (VStr "unknown")
    /\ key_concepts r = Py.get d "key_concepts" (VList [])
    /\ temporal_markers r = Py.get d "temporal_markers" (VList [])
    /\ project_references r = Py.get d "project_references" (VList [])
    /\ relationship_hints r = Py.get d "relationship_hints" (VList [])
    /\ ar_confidence r = Py.get d "confidence" (VNum (1 # 2)).
Proof.
  unfold OllamaClient.analyze_file_content, response_data.
  destruct (read_text w p); simpl; [|discriminate].
  destruct (Py.truthy _); simpl; [|discriminate].
  destruct (OllamaClient.extract_json_from_response _) as [| | | | |d|]; simpl;
    try discriminate.
  intros [= <-]. exists d. simpl. repeat split; reflexivity.
Qed.

Lemma connection_fields w a b c :
  fst (OllamaClient.analyze_connection clock ollama w a b) = Some c ->
  exists d, response_data ollama w = VDict d
    /\ connection_type c = Py.get d "connection_type" (VStr "thematic")
    /\ strength_score c = Py.get d "connection_score" (VNum 0)
    /\ confidence c = Py.get d "confidence" (VNum (1 # 2))
    /\ reason c = Py.get d "reason" (VStr "No reason provided")
    /\ suggested_link c = Py.get d "suggested_link" VNone.
Proof.
  unfold OllamaClient.analyze_connection, response_data. simpl.
  destruct (Py.truthy _); simpl; [|discriminate].
  destruct (OllamaClient.extract_json_from_response _) as [| | | | |d|]; simpl;
    try discriminate.
  destruct (Py.gt_num _ 2) as [[|]|]; simpl; try discriminate.
  intros [= <-]. exists d. simpl. repeat split; reflexivity.
Qed.

(** C9, as amended.  In a classification built from a reply, an absent
    [primary_topic] is "Unknown", an absent [content_type] is "unknown",
    each absent list-valued field is the empty list and an absent
    confidence is 0.5; in a connection built from a reply, an absent
    confidence is 0.5, an absent [connection_type] is "thematic", an
    absent [reason] is "No reason provided" and an absent
    [suggested_link] is [None]. *)
Theorem absent_fields_take_defaults (w : World) :
  let data := response_data ollama w in
  (forall p r,
      fst (OllamaClient.analyze_file_content clock ollama w p) = Some r ->
      (absent data "primary_topic" -> primary_topic r = VStr "Unknown")
      /\ (absent data "content_type" -> content_type r = VStr "unknown")
      /\ (absent data "key_concepts" -> key_concepts r = VList [])
      /\ (absent data "temporal_markers" -> temporal_markers r = VList [])
      /\ (absent data "project_references" -> project_references r = VList [])
      /\ (absent data "relationship_hints" -> relationship_hints r = VList [])
      /\ (absent data "confidence" -> ar_confidence r = VNum (1 # 2)))
  /\ (forall a b c,
        fst (OllamaClient.analyze_connection clock ollama w a b) = Some c ->
        (absent data "confidence" -> confidence c = VNum (1 # 2))
        /\ (absent data "connection_type" -> connection_type c = VStr "thematic")
        /\ (absent data "reason" -> reason c = VStr "No reason provided")
        /\ (absent data "suggested_link" -> suggested_link c = VNone)).
Proof.
  intros data. split.
  - intros p r Hr.
    destruct (analysis_fields w p r Hr) as (d & Hd & H1 & H2 & H3 & H4 & H5 & H6 & H7).
    rewrite H1, H2, H3, H4, H5, H6, H7.
    repeat split; intros Habs; eapply get_absent; eassumption.
  - intros a b c Hc.
    destruct (connection_fields w a b c Hc) as (d & Hd & H1 & _ & H3 & H4 & H5).
    rewrite H1, H3, H4, H5.
    repeat split; intros Habs; eapply get_absent; eassumption.
Qed.

End Defaults.

(** ** The scanner *)

Section Scanner.

Variable clock : nat -> Q.
Variable md5 : text -> string.

Lemma entries_for_app p q1 q2 :
  entries_for p (q1 ++ q2) = entries_for p q1 ++ entries_for p q2.
Proof. apply List.filter_app. Qed.

Lemma entries_for_perm p q q' :
  Permutation q q' -> Permutation (entries_for p q) (entries_for p q').
Proof.
  unfold entries_for. induction 1 as [| x l l' _ IH | x y l | l l' l'' _ IH1 _ IH2]; simpl.
  - constructor.
  - destruct (String.eqb _ p); [now constructor | assumption].
  - destruct (String.eqb (file_path (task x)) p), (String.eqb (file_path (task y)) p);
      try reflexivity. apply perm_swap.
  - now transitivity (List.filter (fun e => String.eqb (file_path (task e)) p) l').
Qed.

Lemma entries_for_others p p' more :
  p' <> p -> Forall (fun e => file_path (task e) = p') more -> entries_for p more = [].
Proof.
  intros Hne Hall. induction Hall as [| e more He _ IH]; [reflexivity|].
  unfold entries_for in *. simpl. rewrite He.
  destruct (String.eqb_spec p' p); [contradiction | exact IH].
Qed.

(** *** The entries put on the queue *)

Lemma time_eqb_eq a b : time_eqb a b = true <-> a = b.
Proof.
  unfold time_eqb. rewrite andb_true_iff, Z.eqb_eq, Pos.eqb_eq.
  destruct a, b; simpl. split; [intros [-> ->]; reflexivity | intros [= -> ->]; auto].
Qed.

Lemma entry_eqb_eq a b : entry_eqb a b = true <-> a = b.
Proof.
  unfold entry_eqb.
  rewrite !andb_true_iff, Z.eqb_eq, !time_eqb_eq, !String.eqb_eq.
  destruct a as [pa ta [fa ya qa]], b as [pb tb [fb yb qb]]; simpl. split.
  - intros ((((-> & ->) & ->) & ->) & ->). reflexivity.
  - intros [= -> -> -> -> ->]. auto.
Qed.

Lemma remove_one_perm e q : In e q -> Permutation (e :: remove_one e q) q.
Proof.
  induction q as [| x q IH]; intros Hin; [destruct Hin|]. simpl.
  destruct (entry_eqb e x) eqn:E.
  - apply entry_eqb_eq in E. now subst.
  - destruct Hin as [-> | Hin].
    + assert (entry_eqb e e = true) by now apply entry_eqb_eq. congruence.
    + rewrite perm_swap. now rewrite IH.
Qed.

Lemma enqueued_by_perm before after added :
  Permutation (task_queue after) (added ++ task_queue before) ->
  Permutation (enqueued_by before after) added.
Proof.
  unfold enqueued_by. generalize (task_queue after) as q.
  induction (task_queue before) as [| e old IH]; intros q Hp; simpl.
  - now rewrite app_nil_r in Hp.
  - apply IH.
    assert (Hin : In e q).
    { apply (Permutation_in _ (Permutation_sym Hp)). apply in_or_app. right. now left. }
    apply Permutation_cons_inv with (a := e).
    rewrite (remove_one_perm e q Hin), Hp. symmetry. apply Permutation_middle.
Qed.

(** *** One file of the walk *)

Lemma should_process_depends s s' p :
  config s = config s' -> vault (world s) = vault (world s') ->
  _should_process_file s p = _should_process_file s' p.
Proof. unfold _should_process_file. now intros -> ->. Qed.

Lemma get_file_hash_depends w w' p :
  vault w = vault w' -> _get_file_hash md5 w p = _get_file_hash md5 w' p.
Proof. unfold _get_file_hash, read_text_ignore. now intros ->. Qed.

Lemma scan_file_cases s p : scan_case clock md5 s p (scan_file clock md5 s p).
Proof.
  unfold scan_file.
  destruct (_should_process_file s p) eqn:Hproc; simpl; [|constructor; auto].
  destruct (_get_file_hash md5 (world s) p) as [h|] eqn:Hhash; [|constructor; auto].
  destruct (String.eqb_spec h "") as [-> | Hempty]; [constructor; auto|].
  destruct (file_hashes s !! p) as [known|] eqn:Hknown.
  - destruct (String.eqb_spec known h) as [-> | Hne]; simpl.
    + now apply scan_same.
    + destruct (raised (_queue_analysis_task clock s p 2 "modified_file")) eqn:Hr.
      * apply (scan_raise clock md5 s p h 2 "modified_file"); try assumption.
        right. rewrite Hknown. eauto.
      * apply (scan_queue clock md5 s p h 2 "modified_file"); try assumption.
        right. rewrite Hknown. eauto.
  - destruct (raised (_queue_analysis_task clock s p 1 "new_file")) eqn:Hr.
    + apply (scan_raise clock md5 s p h 1 "new_file"); try assumption.
      left. rewrite Hknown. auto.
    + apply (scan_queue clock md5 s p h 1 "new_file"); try assumption.
      left. rewrite Hknown. auto.
Qed.

Lemma scan_kind_entry s p h pr ty :
  scan_kind (file_hashes s !! p) h pr ty ->
  let e := queued_entry clock s p pr ty in
  file_path (task e) = p
  /\ (new_file_entry p e \/ modified_file_entry p e)
  /\ match file_hashes s !! p with
     | None => new_file_entry p e
     | Some _ => modified_file_entry p e
     end.
Proof.
  intros [(Hk & -> & ->) | ((k & Hk & _) & -> & ->)]; rewrite Hk; cbv zeta;
    repeat split; auto; [left | right]; repeat split.
Qed.

(** What the scan of one file leaves as it is, and what it may add. *)
Lemma scan_file_frame s p :
  let o := scan_file clock md5 s p in
  config o = config s /\ vault (world o) = vault (world s)
  /\ (clock_reads (world s) <= clock_reads (world o))%nat
  /\ connections o = connections s /\ file_analysis o = file_analysis s.
Proof.
  cbv zeta. destruct (scan_file_cases s p); simpl;
    try (repeat split; (reflexivity || lia)).
  - destruct (queue_task_spec clock s p pr ty) as (_ & Hr & Hc & Hv & _).
    unfold _queue_analysis_task in *. simpl in *.
    destruct (PriorityQueue.put _ _); simpl in *; repeat split; (assumption || lia).
  - destruct (queue_task_spec clock s p pr ty) as (_ & Hr & Hc & Hv & _).
    unfold _queue_analysis_task in *. simpl in *.
    destruct (PriorityQueue.put _ _); simpl in *; repeat split; (assumption || lia).
Qed.

Lemma scan_file_adds s p :
  exists more,
    Permutation (task_queue (scan_file clock md5 s p)) (more ++ task_queue s)
    /\ Forall (fun e => file_path (task e) = p
                        /\ _should_process_file s p = true
                        /\ (new_file_entry p e \/ modified_file_entry p e)) more.
Proof.
  destruct (scan_file_cases s p) as [| h | h pr ty Hp Hh Hne Hk Hr | h pr ty Hp Hh Hne Hk Hr].
  - exists []. split; [reflexivity | constructor].
  - exists []. split; [reflexivity | constructor].
  - exists [queued_entry clock s p pr ty]. split.
    + apply (queue_task_spec clock s p pr ty).
    + destruct (scan_kind_entry s p h pr ty Hk) as (Hpath & Hkind & _).
      constructor; [|constructor]. auto.
  - exists [queued_entry clock s p pr ty]. split.
    + apply (queue_task_spec clock s p pr ty).
    + destruct (scan_kind_entry s p h pr ty Hk) as (Hpath & Hkind & _).
      constructor; [|constructor]. auto.
Qed.

(** Scanning a file leaves the baseline of any other path as it is. *)
Lemma scan_file_other s p p' :
  p' <> p ->
  file_hashes (scan_file clock md5 s p') !! p = file_hashes s !! p.
Proof.
  intros Hne.
  destruct (scan_file_cases s p') as [| h | h pr ty | h pr ty]; simpl;
    try reflexivity.
  - now rewrite lookup_insert_ne.
  - rewrite lookup_insert_ne by assumption.
    now rewrite (proj1 (proj2 (proj2 (proj2 (proj2 (queue_task_spec clock s p' pr ty)))))).
  - now rewrite (proj1 (proj2 (proj2 (proj2 (proj2 (queue_task_spec clock s p' pr ty)))))).
Qed.

(** A file that is passed over: it cannot be hashed, or its hash is its
    baseline. *)
Lemma scan_file_passes s p :
  _get_file_hash md5 (world s) p = None
  \/ (exists h, _get_file_hash md5 (world s) p = Some h /\ file_hashes s !! p = Some h) ->
  task_queue (scan_file clock md5 s p) = task_queue s
  /\ file_hashes (scan_file clock md5 s p) !! p = file_hashes s !! p
  /\ raised (scan_file clock md5 s p) = false.
Proof.
  intros Hpass.
  destruct (scan_file_cases s p) as [| h | h pr ty Hp Hh Hne Hk Hr | h pr ty Hp Hh Hne Hk Hr];
    simpl.
  - repeat split.
  - split; [reflexivity|]. split; [|reflexivity]. rewrite lookup_insert_eq. congruence.
  - exfalso. destruct Hpass as [Hnone | (h' & Hh' & Hb)]; [congruence|].
    assert (h' = h) as -> by congruence.
    destruct Hk as [(Hk & _) | ((k & Hk & Hkh) & _)]; congruence.
  - exfalso. destruct Hpass as [Hnone | (h' & Hh' & Hb)]; [congruence|].
    assert (h' = h) as -> by congruence.
    destruct Hk as [(Hk & _) | ((k & Hk & Hkh) & _)]; congruence.
Qed.

(** *** The loop *)

Lemma scan_loop_frame files : forall s,
  let o := scan_loop clock md5 files s in
  config o = config s /\ vault (world o) = vault (world s)
  /\ (clock_reads (world s) <= clock_reads (world o))%nat
  /\ connections o = connections s /\ file_analysis o = file_analysis s.
Proof.
  induction files as [| p files IH]; intros s; cbn [scan_loop]; cbv zeta.
  - simpl. repeat split; (reflexivity || lia).
  - destruct (scan_file_frame s p) as (Hc & Hv & Hr & Hcn & Hfa).
    destruct (raised (scan_file clock md5 s p)); [repeat split; assumption|].
    destruct (IH (scan_file clock md5 s p)) as (Hc' & Hv' & Hr' & Hcn' & Hfa').
    repeat split; (congruence || lia).
Qed.

Lemma scan_frame files s :
  let s' := _scan_vault_files clock md5 files s in
  config s' = config s /\ vault (world s') = vault (world s)
  /\ (clock_reads (world s) <= clock_reads (world s'))%nat
  /\ connections s' = connections s /\ file_analysis s' = file_analysis s.
Proof.
  cbv zeta. unfold _scan_vault_files. cbv zeta.
  pose proof (scan_loop_frame files s) as H. cbv zeta in H.
  destruct (raised (scan_loop clock md5 files s)); exact H.
Qed.

Lemma scan_queue_of files s :
  task_queue (_scan_vault_files clock md5 files s)
  = task_queue (scan_loop clock md5 files s).
Proof.
  unfold _scan_vault_files. cbv zeta.
  now destruct (raised (scan_loop clock md5 files s)).
Qed.

Lemma scan_baseline_of files s :
  file_hashes (_scan_vault_files clock md5 files s)
  = file_hashes (scan_loop clock md5 files s).
Proof.
  unfold _scan_vault_files. cbv zeta.
  now destruct (raised (scan_loop clock md5 files s)).
Qed.

(** What a scan adds is for files of the walk that the policy accepts. *)
Lemma scan_loop_adds files : forall s,
  exists more,
    Permutation (task_queue (scan_loop clock md5 files s)) (more ++ task_queue s)
    /\ Forall (fun e =>
                 let p := file_path (task e) in
                 In p files /\ _should_process_file s p = true
                 /\ (new_file_entry p e \/ modified_file_entry p e)) more.
Proof.
  induction files as [| p' files IH]; intros s; cbn [scan_loop]; cbv zeta.
  - exists []. split; [reflexivity | constructor].
  - destruct (scan_file_adds s p') as (m1 & Hq1 & Hm1).
    assert (Hm1' : Forall (fun e =>
                             let p := file_path (task e) in
                             In p (p' :: files) /\ _should_process_file s p = true
                             /\ (new_file_entry p e \/ modified_file_entry p e)) m1).
    { eapply Forall_impl; [exact Hm1|]. intros e (He & Hp & Hk). cbv zeta.
      rewrite He. split; [now left|]. split; assumption. }
    destruct (raised (scan_file clock md5 s p')); [exists m1; split; assumption|].
    destruct (scan_file_frame s p') as (Hcfg & Hvault & _).
    destruct (IH (scan_file clock md5 s p')) as (m2 & Hq2 & Hm2).
    exists (m2 ++ m1). split.
    + rewrite Hq2, Hq1. now rewrite app_assoc.
    + apply Forall_app. split; [|assumption].
      eapply Forall_impl; [exact Hm2|]. intros e (Hin & Hp & Hk).
      split; [now right|]. split; [|exact Hk].
      rewrite <- Hp. symmetry. now apply should_process_depends.
Qed.

(** A scan passes over a document that cannot be hashed or whose hash
    is its baseline. *)
Lemma scan_loop_passes files : forall s p,
  _get_file_hash md5 (world s) p = None
  \/ (exists h, _get_file_hash md5 (world s) p = Some h /\ file_hashes s !! p = Some h) ->
  exists more,
    Permutation (task_queue (scan_loop clock md5 files s)) (more ++ task_queue s)
    /\ entries_for p more = []
    /\ file_hashes (scan_loop clock md5 files s) !! p = file_hashes s !! p.
Proof.
  induction files as [| p' files IH]; intros s p Hpass; cbn [scan_loop]; cbv zeta.
  - exists []. split; [reflexivity|]. split; reflexivity.
  - assert (Hstep : exists m1,
              Permutation (task_queue (scan_file clock md5 s p')) (m1 ++ task_queue s)
              /\ entries_for p m1 = []
              /\ file_hashes (scan_file clock md5 s p') !! p = file_hashes s !! p).
    { destruct (String.eqb_spec p' p) as [-> | Hne].
      - destruct (scan_file_passes s p Hpass) as (Hq & Hb & _).
        exists []. rewrite Hq. split; [reflexivity|]. split; [reflexivity | assumption].
      - destruct (scan_file_adds s p') as (m1 & Hq1 & Hm1). exists m1.
        split; [assumption|]. split; [|now apply scan_file_other].
        apply (entries_for_others p p'); [assumption|].
        eapply Forall_impl; [exact Hm1|]. now intros e (He & _). }
    destruct Hstep as (m1 & Hq1 & Hn1 & Hb1).
    destruct (raised (scan_file clock md5 s p')); [exists m1; auto|].
    destruct (scan_file_frame s p') as (_ & Hvault & _).
    destruct (IH (scan_file clock md5 s p') p) as (m2 & Hq2 & Hn2 & Hb2).
    { rewrite (get_file_hash_depends _ (world s)) by assumption. rewrite Hb1.
      exact Hpass. }
    exists (m2 ++ m1). split; [|split].
    + rewrite Hq2, Hq1. now rewrite app_assoc.
    + now rewrite entries_for_app, Hn1, Hn2.
    + congruence.
Qed.

(** *** Under a rising clock nothing raises *)

Lemma in_time_fresh s e :
  rising clock -> in_time clock s ->
  (enqueue_time e == clock (S (clock_reads (world s))))%Q ->
  forall b, In b (task_queue s) -> PriorityQueue.lt e b <> None.
Proof.
  intros Hrise Hin He b Hb. unfold in_time in Hin. rewrite List.Forall_forall in Hin.
  apply lt_times. intros Heq. specialize (Hin b Hb).
  pose proof (Hrise (clock_reads (world s)) (S (clock_reads (world s))) ltac:(lia)) as Hlt.
  apply (Qlt_irrefl (enqueue_time b)).
  eapply Qlt_le_trans; [exact (Qlt_trans _ _ _ Hin Hlt)|].
  apply Qle_lteq. right. transitivity (enqueue_time e); [symmetry; exact He | symmetry; exact Heq].
Qed.

Lemma queue_task_calm s p pr ty :
  rising clock -> in_time clock s ->
  raised (_queue_analysis_task clock s p pr ty) = false
  /\ in_time clock (_queue_analysis_task clock s p pr ty).
Proof.
  intros Hrise Hin.
  assert (Hfresh : forall b, In b (task_queue s) ->
                     PriorityQueue.lt (queued_entry clock s p pr ty) b <> None).
  { apply in_time_fresh; try assumption. unfold enqueue_time, queued_entry. simpl.
    apply Qopp_involutive. }
  destruct (heappush_fresh (task_queue s) _ Hfresh) as (q & Hq).
  split; [apply queue_task_raised; eauto|].
  destruct (queue_task_spec clock s p pr ty) as (Hperm & Hreads & _).
  unfold in_time. rewrite Hreads.
  eapply Permutation_Forall; [symmetry; exact Hperm|].
  constructor.
  - unfold enqueue_time, queued_entry. simpl. rewrite Qopp_involutive.
    apply Hrise. lia.
  - eapply Forall_impl; [exact Hin|]. intros e He.
    eapply Qlt_trans; [exact He|]. apply Hrise. lia.
Qed.

Lemma scan_file_calm s p :
  rising clock -> in_time clock s ->
  raised (scan_file clock md5 s p) = false /\ in_time clock (scan_file clock md5 s p).
Proof.
  intros Hrise Hin.
  destruct (scan_file_cases s p) as [| h | h pr ty Hp Hh Hne Hk Hr | h pr ty Hp Hh Hne Hk Hr];
    simpl; try (split; [reflexivity | assumption]).
  - split; [reflexivity|]. apply (queue_task_calm s p pr ty Hrise Hin).
  - destruct (queue_task_calm s p pr ty Hrise Hin) as [Hno _]. congruence.
Qed.

Lemma scan_loop_calm files : forall s,
  rising clock -> in_time clock s ->
  raised (scan_loop clock md5 files s) = false
  /\ in_time clock (scan_loop clock md5 files s).
Proof.
  induction files as [| p files IH]; intros s Hrise Hin; cbn [scan_loop]; cbv zeta.
  - split; [reflexivity | assumption].
  - destruct (scan_file_calm s p Hrise Hin) as [Hno Hin']. rewrite Hno.
    now apply IH.
Qed.

Lemma scan_calm files s :
  rising clock -> in_time clock s ->
  _scan_vault_files clock md5 files s = scan_loop clock md5 files s
  /\ in_time clock (_scan_vault_files clock md5 files s).
Proof.
  intros Hrise Hin. destruct (scan_loop_calm files s Hrise Hin) as [Hno Hin'].
  unfold _scan_vault_files. cbv zeta. rewrite Hno. auto.
Qed.

(** *** A document that has changed *)

Lemma scan_file_changed s p h :
  raised (scan_file clock md5 s p) = false ->
  _should_process_file s p = true ->
  _get_file_hash md5 (world s) p = Some h -> h <> "" ->
  file_hashes s !! p <> Some h ->
  exists e,
    Permutation (task_queue (scan_file clock md5 s p)) (e :: task_queue s)
    /\ file_path (task e) = p
    /\ file_hashes (scan_file clock md5 s p) !! p = Some h
    /\ match file_hashes s !! p with
       | None => new_file_entry p e
       | Some _ => modified_file_entry p e
       end.
Proof.
  intros Hno Hp Hh Hne Hbase.
  destruct (scan_file_cases s p) as [Hskip | h' | h' pr ty _ Hh' _ Hk Hr | h' pr ty _ _ _ _ Hr].
  - exfalso. destruct Hskip as [H | [H | H]]; congruence.
  - congruence.
  - assert (h' = h) as -> by congruence.
    destruct (scan_kind_entry s p h pr ty Hk) as (Hpath & _ & Hkind).
    exists (queued_entry clock s p pr ty). split; [|split; [|split]].
    + apply (queue_task_spec clock s p pr ty).
    + assumption.
    + simpl. apply lookup_insert_eq.
    + assumption.
  - simpl in Hno. congruence.
Qed.

Lemma scan_loop_changed files : forall s p h,
  rising clock -> in_time clock s ->
  In p files ->
  _should_process_file s p = true ->
  _get_file_hash md5 (world s) p = Some h -> h <> "" ->
  file_hashes s !! p <> Some h ->
  exists added e,
    Permutation (task_queue (scan_loop clock md5 files s)) (added ++ task_queue s)
    /\ entries_for p added = [e]
    /\ file_hashes (scan_loop clock md5 files s) !! p = Some h
    /\ match file_hashes s !! p with
       | None => new_file_entry p e
       | Some _ => modified_file_entry p e
       end.
Proof.
  induction files as [| p' files IH]; intros s p h Hrise Htime Hin Hp Hh Hne Hbase;
    [destruct Hin|].
  cbn [scan_loop]; cbv zeta.
  destruct (scan_file_calm s p' Hrise Htime) as [Hno Htime']. rewrite Hno.
  destruct (scan_file_frame s p') as (Hcfg & Hvault & _).
  destruct (String.eqb_spec p' p) as [-> | Hother].
  - destruct (scan_file_changed s p h Hno Hp Hh Hne Hbase) as (e & Hq & Hpath & Hb & Hkind).
    destruct (scan_loop_passes files (scan_file clock md5 s p) p) as (more & Hq' & Hnil & Hb').
    { right. exists h. split; [|assumption].
      rewrite <- Hh. now apply get_file_hash_depends. }
    exists (more ++ [e]), e. split; [|split; [|split]].
    + rewrite Hq', Hq. now rewrite <- app_assoc.
    + rewrite entries_for_app, Hnil. unfold entries_for. simpl.
      now rewrite Hpath, String.eqb_refl.
    + congruence.
    + assumption.
  - destruct Hin as [-> | Hin]; [contradiction|].
    pose proof (scan_file_other s p p' Hother) as Hsame.
    destruct (scan_file_adds s p') as (m1 & Hq1 & Hm1).
    destruct (IH (scan_file clock md5 s p') p h Hrise Htime' Hin)
      as (added & e & Hq & He & Hb & Hkind).
    + rewrite <- Hp. now apply should_process_depends.
    + rewrite <- Hh. now apply get_file_hash_depends.
    + assumption.
    + now rewrite Hsame.
    + exists (added ++ m1), e. split; [|split; [|split]].
      * rewrite Hq, Hq1. now rewrite <- app_assoc.
      * rewrite entries_for_app, He, (entries_for_others p p' m1); [apply app_nil_r | assumption |].
        eapply Forall_impl; [exact Hm1|]. now intros x (Hx & _).
      * assumption.
      * now rewrite <- Hsame.
Qed.

End Scanner.

(** *** The inclusion policy *)

Section InclusionPolicy.

Import Scenario.

(** C6, at a failing input.  The exclusion list holds the pattern "Temp",
    and the vault a new note in a directory of that name, whose path
    contains the pattern whether the case of letters is ignored or not.
    The inclusion policy accepts the note, the path being put in lower
    case and the pattern not, and a scan enqueues it. *)
Theorem capital_pattern_is_enqueued :
  let s := init config_capital vault_temp in
  let s' := _scan_vault_files clock md5 [temp_md] s in
  In "Temp" (skip_patterns (safety (config s)))
  /\ Text.contains (txt "Temp") (txt temp_md) = true
  /\ icontains "Temp" temp_md
  /\ _should_process_file s temp_md = true
  /\ map (fun e => (priority e, file_path (task e), task_type (task e))) (task_queue s')
     = [(1, temp_md, "new_file")].
Proof.
  cbv zeta. split; [simpl; auto|].
  repeat split; vm_compute; reflexivity.
Qed.

End InclusionPolicy.

(** *** Unchanged documents *)

Section Unchanged.

Import Scenario.

(** C5, at a failing input.  Two scans of a vault whose two notes keep
    their bytes.  In the first scan the clock gives the same reading for
    both notes: putting the second one raises when its tuple is compared
    with the first, the tuple being in the queue by then, and the scan
    ends before the baseline of the second note is written.  The second
    scan enqueues that note again: two tasks for a document that has not
    changed. *)
Theorem unchanged_document_enqueued_twice :
  let actions := [Scan vault0 [a_md; b_md]; Scan vault0 [a_md; b_md]] in
  let s1 := _scan_vault_files coarse md5 [a_md; b_md] idle in
  Forall (holds_bytes b_md beta) (scanned actions)
  /\ file_hashes s1 !! b_md = None
  /\ errors (processing_stats s1) = 1
  /\ map (fun e => (priority e, task_type (task e), enqueue_time e))
         (entries_for b_md (snd (run coarse ollama_topic md5 actions idle [])))
     = [(1, "new_file", 1001%Q); (1, "new_file", 1000%Q)].
Proof.
  cbv zeta. split.
  - assert (H : holds_bytes b_md beta vault0).
    { intros f Hf. vm_compute in Hf. injection Hf as <-. reflexivity. }
    repeat constructor; exact H.
  - repeat split; vm_compute; reflexivity.
Qed.

End Unchanged.

(** *** Forced analysis *)

Section Forced.

Variable clock : nat -> Q.

Lemma queue_task_forced s p : forced (queued_entry clock s p 0 "forced").
Proof. split; reflexivity. Qed.

(** The walk of [force_analysis] goes through the files [done], up to
    the one at which [put] raises, if any; the tasks that it adds are
    forced tasks for those of them that the inclusion policy accepts. *)
Lemma force_all_spec files : forall s,
  config (force_all clock files s) = config s
  /\ vault (world (force_all clock files s)) = vault (world s)
  /\ file_hashes (force_all clock files s) = file_hashes s
  /\ exists added done rest,
       files = done ++ rest
       /\ Permutation (task_queue (force_all clock files s)) (added ++ task_queue s)
       /\ Forall forced added
       /\ Permutation (map (fun e => file_path (task e)) added)
                      (List.filter (_should_process_file s) done)
       /\ (raised (force_all clock files s) = false -> rest = []).
Proof.
  induction files as [| f files IH]; intros s; cbn [force_all]; cbv zeta.
  - split; [reflexivity|]. split; [reflexivity|]. split; [reflexivity|].
    exists [], [], []. split; [reflexivity|]. split; [reflexivity|].
    split; [constructor|]. split; [reflexivity | reflexivity].
  - destruct (_should_process_file s f) eqn:Hf.
    + destruct (queue_task_spec clock s f 0 "forced") as (Hq & _ & Hcfg & Hvault & Hbase & _).
      destruct (raised (_queue_analysis_task clock s f 0 "forced")) eqn:Hr.
      * repeat split; try assumption.
        exists [queued_entry clock s f 0 "forced"], [f], files.
        split; [reflexivity|]. split; [assumption|].
        split; [constructor; [apply queue_task_forced | constructor]|].
        split; [simpl; now rewrite Hf | intros H; simpl in H; congruence].
      * destruct (IH (_queue_analysis_task clock s f 0 "forced"))
          as (Hcfg' & Hvault' & Hbase' & added & done & rest & Hfiles & Hq' & Hforced
              & Hpaths & Hrest).
        split; [congruence|]. split; [congruence|]. split; [congruence|].
        exists (added ++ [queued_entry clock s f 0 "forced"]), (f :: done), rest.
        split; [simpl; congruence|]. split; [|split; [|split]].
        -- rewrite Hq', Hq. now rewrite <- app_assoc.
        -- apply Forall_app. split; [assumption|].
           constructor; [apply queue_task_forced | constructor].
        -- rewrite map_app. simpl. rewrite Hf.
           rewrite <- Permutation_cons_append. apply perm_skip.
           rewrite Hpaths. erewrite filter_ext; [reflexivity|].
           intros p. now apply should_process_depends.
        -- assumption.
    + destruct (IH s) as (Hcfg & Hvault & Hbase & added & done & rest & Hfiles & Hq
                          & Hforced & Hpaths & Hrest).
      repeat split; try assumption.
      exists added, (f :: done), rest. split; [simpl; congruence|].
      split; [assumption|]. split; [assumption|]. split; [|assumption].
      simpl. now rewrite Hf.
Qed.



End Forced.

(** ** Applying a connection *)

Section TextLemmas.

Lemma starts_with_app old : forall s,
  Text.starts_with old s = true <-> exists rest, s = old ++ rest.
Proof.
  induction old as [| a old IH]; intros s; simpl.
  - split; [intros _; now exists s | reflexivity].
  - destruct s as [| b s]; simpl.
    + split; [discriminate | intros (rest & H); discriminate].
    + rewrite andb_true_iff, IH. split.
      * intros [Hab (rest & ->)]. apply Ascii.eqb_eq in Hab. subst. now exists rest.
      * intros (rest & [= -> ->]). split; [apply Ascii.eqb_refl | now exists rest].
Qed.

Lemma contains_app old pre post : Text.contains old (pre ++ old ++ post) = true.
Proof.
  induction pre as [| c pre IH]; simpl.
  - assert (H : Text.starts_with old (old ++ post) = true)
      by (apply starts_with_app; now exists post).
    destruct (old ++ post); simpl; simpl in H; now rewrite H.
  - rewrite IH. apply orb_true_r.
Qed.

Lemma replace_none old new : forall s k,
  Text.count_from old k s = 0%nat -> Text.replace_from old new k s = skipn k s.
Proof.
  induction s as [| c s IH]; intros k; simpl.
  - now destruct k.
  - destruct k as [| k]; [|apply IH].
    destruct (Text.starts_with old (c :: s)); [discriminate|].
    intros H. change (skipn 0 (c :: s)) with (c :: skipn 0 s). f_equal.
    now apply (IH O).
Qed.

Lemma replace_once old new : old <> [] -> forall s k,
  Text.count_from old k s = 1%nat ->
  exists pre post,
    skipn k s = pre ++ old ++ post
    /\ Text.replace_from old new k s = pre ++ new ++ post.
Proof.
  intros Hold. induction s as [| c s IH]; intros k; simpl.
  - discriminate.
  - destruct k as [| k]; [|apply IH].
    destruct (Text.starts_with old (c :: s)) eqn:Hstart.
    + intros [= Hzero]. apply starts_with_app in Hstart as (rest & Hs).
      exists [], rest. split; [assumption|]. simpl. f_equal.
      rewrite (replace_none old new s _ Hzero).
      destruct old as [| a old]; [contradiction|].
      injection Hs as -> ->. simpl. rewrite Nat.sub_0_r.
      rewrite skipn_app, skipn_all, Nat.sub_diag. reflexivity.
    + intros H. destruct (IH O H) as (pre & post & Hs & Hr).
      change (skipn 0 s) with s in Hs.
      exists (c :: pre), post. split; simpl; congruence.
Qed.

End TextLemmas.

Section Apply.

Variable str_of : value -> text.

(** What a successful [_apply_connection] has done. *)
Lemma apply_success s c s' c' :
  _apply_connection str_of s c = (true, s', c') ->
  exists content,
    read_text (world s) (source_file c) = Some content
    /\ read_text (world s') (source_file c)
       = Some (linked content (link_text str_of c))
    /\ exists_ (world s) (target_file c) = true
    /\ c' = set_auto_applied true c
    /\ connection_application_count s' = connection_application_count s + 1
    /\ connections s' = connections s.
Proof.
  unfold _apply_connection.
  destruct (exists_ (world s) (source_file c)) eqn:Hsrc; simpl; [|discriminate].
  destruct (exists_ (world s) (target_file c)) eqn:Htgt; simpl; [|discriminate].
  destruct (read_text (world s) (source_file c)) as [content|] eqn:Hread; [|discriminate].
  destruct (write_text _ _ _) as [w|] eqn:Hwrite; [|discriminate].
  intros [= <- <-]. exists content. split; [reflexivity|].
  split; [|repeat split].
  unfold write_text in Hwrite.
  destruct (vault (world s) !! source_file c) as [f|]; [|discriminate].
  destruct (writable f); [|discriminate].
  injection Hwrite as <-. unfold read_text. simpl.
  now rewrite lookup_insert_eq.
Qed.

Lemma related_nonempty : RELATED_NOTES <> [] /\ SEE_ALSO <> [].
Proof. split; discriminate. Qed.

Lemma linked_under_header header content link :
  header <> [] ->
  Text.count header content = 1%nat ->
  exists pre post,
    content = pre ++ header ++ post
    /\ Text.replace header (header ++ Text.LF :: link) content
       = pre ++ header ++ Text.LF :: link ++ post.
Proof.
  intros Hne Hone.
  destruct (replace_once header (header ++ Text.LF :: link) Hne content O Hone)
    as (pre & post & Hs & Hr).
  exists pre, post. split; [exact Hs|].
  unfold Text.replace. rewrite Hr. now rewrite <- app_assoc.
Qed.

(** X30.  After a successful apply to a source document in
    which the text "## Related Notes" occurs once, the document is the
    text it was with a new line, the link, put right after that header and
    nothing else changed; likewise for "## See Also" when it occurs once
    and "## Related Notes" does not occur; and when neither occurs, the
    document is the text it was, stripped at its end, followed by a new
    "## Related Notes" section that holds the link. *)
Theorem apply_inserts_one_link (s s' : Service) (c c' : Connection) :
  _apply_connection str_of s c = (true, s', c') ->
  exists content,
    read_text (world s) (source_file c) = Some content
    /\ let link := link_text str_of c in
       let written := read_text (world s') (source_file c) in
       (Text.count RELATED_NOTES content = 1%nat ->
        exists pre post,
          content = pre ++ RELATED_NOTES ++ post
          /\ written = Some (pre ++ RELATED_NOTES ++ Text.LF :: link ++ post))
       /\ (Text.contains RELATED_NOTES content = false ->
           Text.count SEE_ALSO content = 1%nat ->
           exists pre post,
             content = pre ++ SEE_ALSO ++ post
             /\ written = Some (pre ++ SEE_ALSO ++ Text.LF :: link ++ post))
       /\ (Text.contains RELATED_NOTES content = false ->
           Text.contains SEE_ALSO content = false ->
           written = Some (Text.rstrip content ++ [Text.LF; Text.LF] ++ RELATED_NOTES
                           ++ [Text.LF; Text.LF] ++ link ++ [Text.LF])).
Proof.
  intros Happly.
  destruct (apply_success s c s' c' Happly) as (content & Hread & Hwritten & _).
  exists content. split; [assumption|]. cbv zeta. rewrite Hwritten.
  destruct related_nonempty as [Hrel Hsee].
  split; [|split].
  - intros Hone.
    destruct (linked_under_header _ _ (link_text str_of c) Hrel Hone)
      as (pre & post & Hs & Hr).
    exists pre, post. split; [assumption|].
    unfold linked. rewrite Hs at 1. rewrite contains_app. now rewrite Hr.
  - intros Hno Hone.
    destruct (linked_under_header _ _ (link_text str_of c) Hsee Hone)
      as (pre & post & Hs & Hr).
    exists pre, post. split; [assumption|].
    unfold linked. rewrite Hno. rewrite Hs at 1. rewrite contains_app. now rewrite Hr.
  - intros Hno1 Hno2. unfold linked. now rewrite Hno1, Hno2.
Qed.

End Apply.

Section LinkTwice.

Import Scenario.

(** C8, at a failing input.  The source note has one "Related Notes"
    section, and a sentence above it mentions the header.  A successful
    apply replaces every occurrence of the header text: the link is
    written twice, once under the header and once in the middle of the
    sentence, which is broken in two. *)
Theorem header_twice_two_links :
  let s := init default_config vault_twice in
  let written :=
    lines ["# Alpha"; "See ## Related Notes"; "- [[b]] below.";
           "## Related Notes"; "- [[b]]"; "- [[old]]"] in
  read_text (world s) a_md
  = Some (lines ["# Alpha"; "See ## Related Notes below."; "## Related Notes";
                 "- [[old]]"])
  /\ fst (fst (_apply_connection str_of s best)) = true
  /\ read_text (world (snd (fst (_apply_connection str_of s best)))) a_md = Some written
  /\ Text.count (link_text str_of best) written = 2%nat.
Proof. cbv zeta. repeat split; vm_compute; reflexivity. Qed.

End LinkTwice.

(** ** The decoder and its fuel *)

Section Fuel.

Lemma skip_ws_length s : (length (Json.skip_ws s) <= length s)%nat.
Proof.
  induction s as [| c s IH]; simpl; [lia|].
  destruct (Json.is_ws c); simpl; lia.
Qed.

Lemma after_length c s r : Json.after c s = Some r -> length s = S (length r).
Proof.
  destruct s as [| c' s]; simpl; [discriminate|].
  destruct (Ascii.eqb c' c); [|discriminate]. now intros [= ->].
Qed.

Lemma digits_length s : forall acc n v k r,
  Json.digits acc n s = (v, k, r) -> (length r <= length s)%nat.
Proof.
  induction s as [| c s IH]; intros acc n v k r; simpl.
  - intros [= _ _ <-]. simpl. lia.
  - destruct (Json.digit_of c).
    + intros H. apply IH in H. lia.
    + intros [= _ _ <-]. simpl. lia.
Qed.

Lemma int_part_length s v r :
  Json.int_part s = Some (v, r) -> (length r < length s)%nat.
Proof.
  destruct s as [| c s]; simpl; [discriminate|].
  destruct (Json.digit_of c) as [d|]; [|discriminate].
  destruct d.
  - intros [= _ <-]. lia.
  - destruct (Json.digits _ 1 s) as [[v' k] r'] eqn:Hd. intros [= _ <-].
    apply digits_length in Hd. lia.
  - destruct (Json.digits _ 1 s) as [[v' k] r'] eqn:Hd. intros [= _ <-].
    apply digits_length in Hd. lia.
Qed.

Lemma frac_part_length s f k r :
  Json.frac_part s = (f, k, r) -> (length r <= length s)%nat.
Proof.
  unfold Json.frac_part.
  destruct (Json.after "." s) as [s'|] eqn:Hdot; [|intros [= _ _ <-]; lia].
  apply after_length in Hdot.
  destruct (Json.digits 0 0 s') as [[v' k'] r'] eqn:Hd.
  apply digits_length in Hd.
  destruct k'; intros [= _ _ <-]; lia.
Qed.

Lemma exp_part_length s e r :
  Json.exp_part s = (e, r) -> (length r <= length s)%nat.
Proof.
  unfold Json.exp_part.
  assert (Hu : forall sgn s', (length s' <= length s)%nat ->
             match Json.digits 0 0 s' with
             | (_, O, _) => (0, s)
             | (v, _, r0) => (sgn * v, r0)
             end = (e, r) -> (length r <= length s)%nat).
  { intros sgn s' Hs'.
    destruct (Json.digits 0 0 s') as [[v' k'] r'] eqn:Hd.
    apply digits_length in Hd.
    destruct k'; intros [= _ <-]; lia. }
  destruct s as [| c s']; [intros [= _ <-]; lia|].
  destruct (Ascii.eqb c "e" || Ascii.eqb c "E"); [|intros [= _ <-]; lia].
  destruct (Json.after "-" s') as [s''|] eqn:Hm.
  { apply after_length in Hm. apply Hu. simpl. lia. }
  destruct (Json.after "+" s') as [s''|] eqn:Hp.
  { apply after_length in Hp. apply Hu. simpl. lia. }
  apply Hu. simpl. lia.
Qed.

Lemma number_length s q r : Json.number s = Some (q, r) -> (length r < length s)%nat.
Proof.
  unfold Json.number.
  assert (Hs0 : forall sgn s0, (length s0 <= length s)%nat ->
             match Json.int_part s0 with
             | Some (i, s1) =>
                 let '(f, k, s2) := Json.frac_part s1 in
                 let '(e, s3) := Json.exp_part s2 in
                 Some (Qred (inject_Z sgn
                             * (inject_Z i + inject_Z f * Json.pow10 (- Z.of_nat k))
                             * Json.pow10 e), s3)
             | None => None
             end = Some (q, r) -> (length r < length s)%nat).
  { intros sgn s0 Hlen.
    destruct (Json.int_part s0) as [[i s1]|] eqn:Hi; [|discriminate].
    apply int_part_length in Hi.
    destruct (Json.frac_part s1) as [[f k] s2] eqn:Hf. apply frac_part_length in Hf.
    destruct (Json.exp_part s2) as [e s3] eqn:He. apply exp_part_length in He.
    intros [= _ <-]. lia. }
  destruct (Json.after "-" s) as [s'|] eqn:Hm.
  - apply after_length in Hm. apply Hs0. lia.
  - apply Hs0. lia.
Qed.

Lemma string_body_length n : forall s k r,
  (length s <= n)%nat -> Json.string_body s = Some (k, r) -> (length r < length s)%nat.
Proof.
  induction n as [| n IH]; intros s k r Hn.
  - destruct s; [discriminate | simpl in Hn; lia].
  - destruct s as [| c s']; [discriminate|]. cbn [Json.string_body].
    assert (Hcons : forall (a : ascii) (t : text) (res : option (string * text)),
               (length t <= n)%nat -> (length t <= length s')%nat ->
               match Json.string_body t with
               | Some (str, rest) => Some (String a str, rest)
               | None => None
               end = Some (k, r) -> (length r < length (c :: s'))%nat).
    { intros a t _ Ht Ht'.
      destruct (Json.string_body t) as [[str rest]|] eqn:Hb; [|discriminate].
      apply IH in Hb; [|assumption]. intros [= _ <-]. simpl. lia. }
    simpl in Hn.
    destruct (Ascii.eqb c Text.DQ); [intros [= _ <-]; simpl; lia|].
    destruct (Ascii.eqb c "\").
    + destruct s' as [| e s'']; [discriminate|]. simpl in Hn.
      repeat match goal with
             | |- context [if Ascii.eqb e ?x then _ else _] =>
                 destruct (Ascii.eqb e x);
                 [apply (Hcons _ _ None); simpl; lia|]
             end.
      destruct (Ascii.eqb e "u"); [|discriminate].
      destruct s'' as [| h1 [| h2 [| h3 [| h4 s4]]]]; try discriminate.
      destruct (Json.hex_of h1) as [[|?]|]; try discriminate.
      destruct (Json.hex_of h2) as [[|?]|]; try discriminate.
      destruct (Json.hex_of h3) as [a|]; try discriminate.
      destruct (Json.hex_of h4) as [b|]; try discriminate.
      simpl in Hn. apply (Hcons _ _ None); simpl; lia.
    + destruct (nat_of_ascii c <? 32)%nat; [discriminate|].
      apply (Hcons _ _ None); simpl; lia.
Qed.

Lemma txt_length w : length (txt w) = String.length w.
Proof. induction w as [| c w IH]; simpl; congruence. Qed.

Lemma literal_length w v s v' r :
  w <> "" -> Json.literal w v s = Some (v', r) -> (length r < length s)%nat.
Proof.
  intros Hw. unfold Json.literal.
  destruct (Text.starts_with (txt w) s) eqn:Hstart; [|discriminate].
  apply starts_with_app in Hstart as (rest & ->). intros [= _ <-].
  rewrite <- txt_length, skipn_app, skipn_all, Nat.sub_diag.
  change (skipn 0 rest) with rest. rewrite app_nil_l, length_app.
  destruct w; [contradiction | simpl; lia].
Qed.

Lemma parse_length fuel :
  (forall s v r, Json.parse_value fuel s = Some (v, r) -> (length r < length s)%nat)
  /\ (forall acc s v r,
         Json.parse_members fuel acc s = Some (v, r) -> (length r < length s)%nat)
  /\ (forall acc s v r,
         Json.parse_elements fuel acc s = Some (v, r) -> (length r < length s)%nat).
Proof.
  induction fuel as [| fuel (IHv & IHm & IHe)]; [repeat split; discriminate|].
  split; [|split].
  - intros s v r. cbn [Json.parse_value].
    pose proof (skip_ws_length s) as Hs.
    destruct (Json.skip_ws s) as [| c r0]; [discriminate|]. simpl in Hs.
    pose proof (skip_ws_length r0) as Hr0.
    destruct (Ascii.eqb c "{").
    { destruct (Json.after "}" (Json.skip_ws r0)) as [r'|] eqn:Ha.
      - apply after_length in Ha. intros [= _ <-]. lia.
      - intros H. apply IHm in H. lia. }
    destruct (Ascii.eqb c "[").
    { destruct (Json.after "]" (Json.skip_ws r0)) as [r'|] eqn:Ha.
      - apply after_length in Ha. intros [= _ <-]. lia.
      - intros H. apply IHe in H. lia. }
    destruct (Ascii.eqb c Text.DQ).
    { destruct (Json.string_body r0) as [[str r']|] eqn:Hb; [|discriminate].
      apply (string_body_length _ _ _ _ (Nat.le_refl _)) in Hb. intros [= _ <-]. lia. }
    destruct (Ascii.eqb c "t").
    { intros H. apply literal_length in H; [simpl in H; lia | discriminate]. }
    destruct (Ascii.eqb c "f").
    { intros H. apply literal_length in H; [simpl in H; lia | discriminate]. }
    destruct (Ascii.eqb c "n").
    { intros H. apply literal_length in H; [simpl in H; lia | discriminate]. }
    destruct (Ascii.eqb c "N").
    { intros H. apply literal_length in H; [simpl in H; lia | discriminate]. }
    destruct (Json.number (c :: r0)) as [[q r']|] eqn:Hn; [|discriminate].
    apply number_length in Hn. intros [= _ <-]. simpl in Hn. lia.
  - intros acc s v r. cbn [Json.parse_members].
    pose proof (skip_ws_length s) as Hs.
    destruct (Json.after Text.DQ (Json.skip_ws s)) as [r0|] eqn:Ha; [|discriminate].
    apply after_length in Ha.
    destruct (Json.string_body r0) as [[k r1]|] eqn:Hb; [|discriminate].
    apply (string_body_length _ _ _ _ (Nat.le_refl _)) in Hb.
    pose proof (skip_ws_length r1) as Hr1.
    destruct (Json.after ":" (Json.skip_ws r1)) as [r2|] eqn:Hc; [|discriminate].
    apply after_length in Hc.
    destruct (Json.parse_value fuel r2) as [[v1 r3]|] eqn:Hv; [|discriminate].
    apply IHv in Hv. pose proof (skip_ws_length r3) as Hr3.
    destruct (Json.after "," (Json.skip_ws r3)) as [r4|] eqn:Hcomma.
    { apply after_length in Hcomma. intros H. apply IHm in H. lia. }
    destruct (Json.after "}" (Json.skip_ws r3)) as [r4|] eqn:Hclose; [|discriminate].
    apply after_length in Hclose. intros [= _ <-]. lia.
  - intros acc s v r. cbn [Json.parse_elements].
    destruct (Json.parse_value fuel s) as [[v1 r1]|] eqn:Hv; [|discriminate].
    apply IHv in Hv. pose proof (skip_ws_length r1) as Hr1.
    destruct (Json.after "," (Json.skip_ws r1)) as [r2|] eqn:Hcomma.
    { apply after_length in Hcomma. intros H. apply IHe in H. lia. }
    destruct (Json.after "]" (Json.skip_ws r1)) as [r2|] eqn:Hclose; [|discriminate].
    apply after_length in Hclose. intros [= _ <-]. lia.
Qed.

(** A successful run of the decoder is the same with any fuel above the
    number of characters that it reads. *)
Lemma parse_fuel fuel :
  (forall s v r,
      Json.parse_value fuel s = Some (v, r) ->
      forall fuel', (length s - length r < fuel')%nat ->
                    Json.parse_value fuel' s = Some (v, r))
  /\ (forall acc s v r,
         Json.parse_members fuel acc s = Some (v, r) ->
         forall fuel', (length s - length r < fuel')%nat ->
                       Json.parse_members fuel' acc s = Some (v, r))
  /\ (forall acc s v r,
         Json.parse_elements fuel acc s = Some (v, r) ->
         forall fuel', (length s - length r < fuel')%nat ->
                       Json.parse_elements fuel' acc s = Some (v, r)).
Proof.
  induction fuel as [| fuel (IHv & IHm & IHe)]; [repeat split; discriminate|].
  destruct (parse_length fuel) as (Lv & Lm & Le).
  split; [|split].
  - intros s v r H fuel' Hfuel. destruct fuel' as [| fuel']; [lia|].
    revert H. cbn [Json.parse_value].
    pose proof (skip_ws_length s) as Hs.
    destruct (Json.skip_ws s) as [| c r0]; [discriminate|]. simpl in Hs.
    destruct (Ascii.eqb c "{").
    { destruct (Json.after "}" (Json.skip_ws r0)) as [r'|]; [trivial|].
      intros H. pose proof (Lm _ _ _ _ H). apply (IHm _ _ _ _ H). lia. }
    destruct (Ascii.eqb c "[").
    { destruct (Json.after "]" (Json.skip_ws r0)) as [r'|]; [trivial|].
      intros H. pose proof (Le _ _ _ _ H). apply (IHe _ _ _ _ H). lia. }
    trivial.
  - intros acc s v r H fuel' Hfuel. destruct fuel' as [| fuel']; [lia|].
    cbn [Json.parse_members] in H |- *.
    pose proof (skip_ws_length s) as Hs.
    destruct (Json.after Text.DQ (Json.skip_ws s)) as [r0|] eqn:Ha; [|discriminate].
    apply after_length in Ha.
    destruct (Json.string_body r0) as [[k r1]|] eqn:Hb; [|discriminate].
    apply (string_body_length _ _ _ _ (Nat.le_refl _)) in Hb.
    pose proof (skip_ws_length r1) as Hr1.
    destruct (Json.after ":" (Json.skip_ws r1)) as [r2|] eqn:Hc; [|discriminate].
    apply after_length in Hc.
    destruct (Json.parse_value fuel r2) as [[v1 r3]|] eqn:Hv; [|discriminate].
    pose proof (Lv _ _ _ Hv) as Hr3. pose proof (skip_ws_length r3) as Hr3'.
    destruct (Json.after "," (Json.skip_ws r3)) as [r4|] eqn:Hcomma.
    + pose proof (after_length _ _ _ Hcomma) as Hr4.
      pose proof (Lm _ _ _ _ H) as Hr.
      rewrite (IHv _ _ _ Hv fuel') by lia. rewrite Hcomma.
      apply (IHm _ _ _ _ H). lia.
    + destruct (Json.after "}" (Json.skip_ws r3)) as [r4|] eqn:Hclose; [|discriminate].
      pose proof (after_length _ _ _ Hclose) as Hr4. injection H as <- <-.
      rewrite (IHv _ _ _ Hv fuel') by lia. now rewrite Hcomma, Hclose.
  - intros acc s v r H fuel' Hfuel. destruct fuel' as [| fuel']; [lia|].
    cbn [Json.parse_elements] in H |- *.
    destruct (Json.parse_value fuel s) as [[v1 r1]|] eqn:Hv; [|discriminate].
    pose proof (Lv _ _ _ Hv) as Hr1. pose proof (skip_ws_length r1) as Hr1'.
    destruct (Json.after "," (Json.skip_ws r1)) as [r2|] eqn:Hcomma.
    + pose proof (after_length _ _ _ Hcomma) as Hr2.
      pose proof (Le _ _ _ _ H) as Hr.
      rewrite (IHv _ _ _ Hv fuel') by lia. rewrite Hcomma.
      apply (IHe _ _ _ _ H). lia.
    + destruct (Json.after "]" (Json.skip_ws r1)) as [r2|] eqn:Hclose; [|discriminate].
      pose proof (after_length _ _ _ Hclose) as Hr2. injection H as <- <-.
      rewrite (IHv _ _ _ Hv fuel') by lia. now rewrite Hcomma, Hclose.
Qed.

(** [json.loads] gives every result that the decoder gives with any fuel. *)
Lemma loads_enough_fuel fuel s v r :
  Json.parse_value fuel s = Some (v, r) ->
  Json.parse_value (S (length s)) s = Some (v, r).
Proof.
  intros H. apply (proj1 (parse_fuel fuel) _ _ _ H). lia.
Qed.

End Fuel.

Section Extraction.

Lemma group_tail_closes s : forall inner m,
  OllamaClient.group_tail inner s = Some m ->
  closes (if inner then 1 else 0) m = true /\ exists rest, s = m ++ rest.
Proof.
  induction s as [| c s IH]; intros inner m; simpl; [discriminate|].
  destruct (Ascii.eqb c "{") eqn:Hopen.
  - destruct inner; [discriminate|].
    destruct (OllamaClient.group_tail true s) as [m'|] eqn:Hm'; [|discriminate].
    intros [= <-]. destruct (IH _ _ Hm') as (Hc & rest & ->).
    simpl. rewrite Hopen. split; [assumption | now exists rest].
  - destruct (Ascii.eqb c "}") eqn:Hclose.
    + destruct inner.
      * destruct (OllamaClient.group_tail false s) as [m'|] eqn:Hm'; [|discriminate].
        intros [= <-]. destruct (IH _ _ Hm') as (Hc & rest & ->).
        simpl. rewrite Hopen, Hclose. split; [assumption | now exists rest].
      * intros [= <-]. simpl. rewrite Hopen, Hclose. split; [reflexivity | now exists s].
    + destruct (OllamaClient.group_tail inner s) as [m'|] eqn:Hm'; [|discriminate].
      intros [= <-]. destruct (IH _ _ Hm') as (Hc & rest & ->).
      simpl. rewrite Hopen, Hclose. split; [assumption | now exists rest].
Qed.

Lemma match_at_group s m :
  OllamaClient.match_at s = Some m ->
  brace_delimited m = true /\ exists rest, s = m ++ rest.
Proof.
  destruct s as [| c s]; simpl; [discriminate|].
  destruct (Ascii.eqb c "{") eqn:Hopen; [|discriminate].
  destruct (OllamaClient.group_tail false s) as [m'|] eqn:Hm'; [|discriminate].
  intros [= <-]. destruct (group_tail_closes _ _ _ Hm') as (Hc & rest & ->).
  simpl. rewrite Hopen, Hc. split; [reflexivity | now exists rest].
Qed.

Lemma group_tail_shallow post : forall body inner,
  shallow inner body = true ->
  OllamaClient.group_tail inner (body ++ "}"%char :: post) = Some (body ++ ["}"%char]).
Proof.
  induction body as [| c body IH]; intros inner; simpl.
  - destruct inner; [discriminate | reflexivity].
  - destruct (Ascii.eqb c "{").
    + destruct inner; [discriminate|]. intros H. now rewrite (IH true H).
    + destruct (Ascii.eqb c "}").
      * destruct inner; [|discriminate]. intros H. now rewrite (IH false H).
      * intros H. now rewrite (IH inner H).
Qed.

Lemma match_at_braced body post :
  shallow false body = true ->
  OllamaClient.match_at (braced body ++ post) = Some (braced body).
Proof.
  intros H. unfold braced. simpl. rewrite <- app_assoc. simpl.
  now rewrite (group_tail_shallow post body false H).
Qed.

Lemma group_tail_inv s : forall inner t,
  OllamaClient.group_tail inner s = Some t ->
  exists body rest,
    t = body ++ ["}"%char] /\ shallow inner body = true /\ s = t ++ rest.
Proof.
  induction s as [| c s IH]; intros inner t; simpl; [discriminate|].
  destruct (Ascii.eqb c "{") eqn:Hopen.
  - destruct inner; [discriminate|].
    destruct (OllamaClient.group_tail true s) as [t'|] eqn:Ht'; [|discriminate].
    intros [= <-]. destruct (IH _ _ Ht') as (body & rest & -> & Hs & ->).
    exists (c :: body), rest. simpl. rewrite Hopen. repeat split. assumption.
  - destruct (Ascii.eqb c "}") eqn:Hclose.
    + destruct inner.
      * destruct (OllamaClient.group_tail false s) as [t'|] eqn:Ht'; [|discriminate].
        intros [= <-]. destruct (IH _ _ Ht') as (body & rest & -> & Hs & ->).
        exists (c :: body), rest. simpl. rewrite Hopen, Hclose. repeat split. assumption.
      * intros [= <-]. apply Ascii.eqb_eq in Hclose. subst c.
        exists [], s. repeat split.
    + destruct (OllamaClient.group_tail inner s) as [t'|] eqn:Ht'; [|discriminate].
      intros [= <-]. destruct (IH _ _ Ht') as (body & rest & -> & Hs & ->).
      exists (c :: body), rest. simpl. rewrite Hopen, Hclose. repeat split. assumption.
Qed.

(** The pattern matches at the front of a text exactly when a group can
    be read there, and the match is that group. *)
Lemma match_at_spec s m :
  OllamaClient.match_at s = Some m <-> group m /\ exists rest, s = m ++ rest.
Proof.
  split.
  - destruct s as [| c s]; simpl; [discriminate|].
    destruct (Ascii.eqb c "{") eqn:Hopen; [|discriminate].
    apply Ascii.eqb_eq in Hopen. subst c.
    destruct (OllamaClient.group_tail false s) as [t|] eqn:Ht; [|discriminate].
    intros [= <-]. destruct (group_tail_inv _ _ _ Ht) as (body & rest & -> & Hs & ->).
    split; [exists body; split; [reflexivity | assumption]|].
    exists rest. reflexivity.
  - intros [(body & -> & Hs) (rest & ->)]. now apply match_at_braced.
Qed.

Lemma match_at_none s : OllamaClient.match_at s = None <-> ~ group_at s.
Proof.
  split.
  - intros Hnone (m & rest & Hg & Hs).
    assert (H : OllamaClient.match_at s = Some m) by (apply match_at_spec; eauto).
    congruence.
  - intros Hno. destruct (OllamaClient.match_at s) as [m|] eqn:Hm; [|reflexivity].
    exfalso. apply Hno. apply match_at_spec in Hm as [Hg (rest & Hs)].
    now exists m, rest.
Qed.

Lemma group_nonempty m : group m -> m <> [].
Proof. intros (body & -> & _). discriminate. Qed.

(** *** The scan *)

Lemma findall_skip s : forall k,
  OllamaClient.findall_from k s = OllamaClient.findall_from 0 (skipn k s).
Proof.
  induction s as [| c s IH]; intros [| k]; try reflexivity.
  cbn [OllamaClient.findall_from skipn]. apply IH.
Qed.

Lemma findall_match m post :
  OllamaClient.match_at (m ++ post) = Some m ->
  OllamaClient.findall (m ++ post) = m :: OllamaClient.findall post.
Proof.
  intros Hm. unfold OllamaClient.findall.
  destruct m as [| c m]; [apply match_at_spec in Hm as [Hg _];
                          now apply group_nonempty in Hg|].
  cbn [app OllamaClient.findall_from] in *. rewrite Hm. f_equal.
  rewrite findall_skip. simpl. rewrite Nat.sub_0_r.
  now rewrite skipn_app, skipn_all, Nat.sub_diag.
Qed.

Lemma findall_no_match c s :
  OllamaClient.match_at (c :: s) = None ->
  OllamaClient.findall (c :: s) = OllamaClient.findall s.
Proof. unfold OllamaClient.findall. cbn [OllamaClient.findall_from]. now intros ->. Qed.

Lemma scanned_cons c r gs :
  ~ group_at (c :: r) -> scanned_groups r gs -> scanned_groups (c :: r) gs.
Proof.
  intros Hno H. destruct H as [r Hnone | pre m post gs Hg Hpre Hrest].
  - apply no_group. intros pre post Hr.
    destruct pre as [| c' pre]; simpl in Hr.
    + now subst post.
    + injection Hr as _ ->. now apply (Hnone pre post).
  - apply (next_group (c :: pre) m post gs Hg); [|exact Hrest].
    intros p1 p2 Hp Hne. destruct p1 as [| c' p1]; simpl in Hp.
    + subst p2. exact Hno.
    + injection Hp as _ ->. now apply (Hpre p1 p2).
Qed.

(** [findall] gives the groups of the scan. *)
Lemma findall_scanned r : scanned_groups r (OllamaClient.findall r).
Proof.
  remember (length r) as n eqn:Hn. revert r Hn.
  induction n as [n IH] using lt_wf_ind. intros r Hn.
  destruct r as [| c s].
  - apply no_group. intros pre post Hr (m & rest & Hg & Hs).
    apply group_nonempty in Hg. destruct pre, post; try discriminate.
    destruct m; [contradiction | discriminate].
  - destruct (OllamaClient.match_at (c :: s)) as [m|] eqn:Hm.
    + destruct (proj1 (match_at_spec _ _) Hm) as [Hg (post & Hs)].
      rewrite Hs in *. rewrite (findall_match m post Hm).
      apply (next_group [] m post _ Hg).
      * intros p1 p2 Hp Hne. destruct p1, p2; try discriminate. contradiction.
      * apply (IH (length post)); [|reflexivity].
        apply group_nonempty in Hg. subst n. rewrite length_app.
        destruct m; [contradiction | simpl; lia].
    + rewrite (findall_no_match c s Hm). apply scanned_cons.
      * now apply match_at_none.
      * apply (IH (length s)); [subst n; simpl; lia | reflexivity].
Qed.

(** The groups of the scan are those that [findall] gives, and no
    other. *)
Lemma scanned_findall r gs : scanned_groups r gs -> gs = OllamaClient.findall r.
Proof.
  induction 1 as [r Hnone | pre m post gs Hg Hpre _ IH].
  - induction r as [| c r IHr]; [reflexivity|].
    rewrite findall_no_match.
    + apply IHr. intros pre post Hr. apply (Hnone (c :: pre) post). simpl. now rewrite Hr.
    + apply match_at_none. now apply (Hnone [] (c :: r)).
  - subst gs. induction pre as [| c pre IHp].
    + simpl. symmetry. apply findall_match. apply match_at_spec. eauto.
    + cbn [app]. rewrite findall_no_match.
      * apply IHp. intros p1 p2 Hp Hne. apply (Hpre (c :: p1) p2); [|assumption].
        simpl. now rewrite Hp.
      * apply match_at_none. apply (Hpre [] (c :: pre)); [reflexivity | discriminate].
Qed.

Lemma findall_groups s : forall k,
  Forall (fun m => brace_delimited m = true /\ segment_of s m)
         (OllamaClient.findall_from k s).
Proof.
  assert (Hcons : forall (c : ascii) (s : text) l,
             Forall (fun m => brace_delimited m = true /\ segment_of s m) l ->
             Forall (fun m => brace_delimited m = true /\ segment_of (c :: s) m) l).
  { intros c s0 l H. eapply Forall_impl; [exact H|].
    intros m [Hb (pre & post & ->)]. split; [assumption|]. now exists (c :: pre), post. }
  induction s as [| c s IH]; intros k; cbn [OllamaClient.findall_from]; [constructor|].
  destruct k as [| k]; [|apply Hcons, IH].
  destruct (OllamaClient.match_at (c :: s)) as [m|] eqn:Hm; [|apply Hcons, IH].
  constructor; [|apply Hcons, IH].
  destruct (match_at_group _ _ Hm) as (Hb & rest & Hs).
  split; [assumption|]. exists [], rest. exact Hs.
Qed.

Lemma parse_members_dict fuel : forall acc s v r,
  Json.parse_members fuel acc s = Some (v, r) -> exists d, v = VDict d.
Proof.
  induction fuel as [| fuel IH]; intros acc s v r; simpl; [discriminate|].
  destruct (Json.after Text.DQ (Json.skip_ws s)) as [r0|]; [|discriminate].
  destruct (Json.string_body r0) as [[k r1]|]; [|discriminate].
  destruct (Json.after ":" (Json.skip_ws r1)) as [r2|]; [|discriminate].
  destruct (Json.parse_value fuel r2) as [[v' r3]|]; [|discriminate].
  destruct (Json.after "," (Json.skip_ws r3)) as [r4|]; [apply IH|].
  destruct (Json.after "}" (Json.skip_ws r3)) as [r4|]; [|discriminate].
  intros [= <- <-]. eauto.
Qed.

Lemma loads_group_dict m v :
  brace_delimited m = true -> Json.loads m = Some v -> exists d, v = VDict d.
Proof.
  destruct m as [| c s]; simpl; [discriminate|].
  intros H. apply andb_true_iff in H as [Hc _]. apply Ascii.eqb_eq in Hc. subst c.
  unfold Json.loads. cbn [Json.parse_value]. simpl Json.skip_ws.
  cbv beta iota. rewrite Ascii.eqb_refl.
  destruct (Json.after "}" (Json.skip_ws s)) as [r'|].
  - destruct (Json.skip_ws r'); [|discriminate]. intros [= <-]. eauto.
  - destruct (Json.parse_members _ _ _) as [[v' r]|] eqn:Hm; [|discriminate].
    destruct (Json.skip_ws r); [|discriminate].
    intros [= <-]. eapply parse_members_dict; eassumption.
Qed.

End Extraction.

Section ExtractionTiers.


Lemma first_loads_spec ms :
  (Forall unparseable ms /\ OllamaClient.first_loads ms = VNone)
  \/ (exists before m after_ v,
         ms = before ++ m :: after_
         /\ Forall unparseable before
         /\ Json.loads m = Some v
         /\ OllamaClient.first_loads ms = v).
Proof.
  induction ms as [| m ms IH]; simpl.
  - left. split; constructor.
  - destruct (Json.loads m) as [v|] eqn:Hm.
    + right. exists [], m, ms, v. repeat split; [constructor | assumption].
    + destruct IH as [[Hall Hnone] | (before & m' & after_ & v & -> & Hall & Hv & Hr)].
      * left. split; [constructor; assumption | assumption].
      * right. exists (m :: before), m', after_, v.
        repeat split; [constructor; assumption | assumption | assumption].
Qed.

(** C7, as amended.  [extract_json_from_response] gives [None] for no
    reply and for an empty one.  Otherwise it first decodes the whole
    reply and returns the result if that succeeds.  If it fails, the reply
    is scanned from left to right for brace groups: a group is an opening
    brace, a text whose braces come in pairs that hold no brace, and a
    closing brace; each group is read at the first place, after the group
    before it, at which one can be read, and no such place is passed
    over.  The groups, each a balanced brace-delimited segment of the
    reply, are decoded in order and the first that decodes gives the
    result, a dict: a result is returned whenever one of the groups
    decodes.  So the result is [None] only when the whole reply decodes to
    null, or does not decode and no group of the scan decodes either. *)
Theorem extract_json_tiers (r : text) :
  OllamaClient.extract_json_from_response None = VNone
  /\ OllamaClient.extract_json_from_response (Some []) = VNone
  /\ (r <> [] ->
      let result := OllamaClient.extract_json_from_response (Some r) in
      let groups := OllamaClient.findall r in
      (forall v, Json.loads r = Some v -> result = v)
      /\ (forall gs, scanned_groups r gs <-> gs = groups)
      /\ Forall (fun m => brace_delimited m = true /\ segment_of r m) groups
      /\ (Json.loads r = None ->
          (exists before m after_ d,
              groups = before ++ m :: after_
              /\ Forall unparseable before
              /\ Json.loads m = Some (VDict d)
              /\ result = VDict d)
          \/ (Forall unparseable groups /\ result = VNone))
      /\ (Json.loads r = None ->
          Exists (fun m => ~ unparseable m) groups -> exists d, result = VDict d)
      /\ (result = VNone ->
          Json.loads r = Some VNone
          \/ (Json.loads r = None /\ Forall unparseable groups))).
Proof.
  split; [reflexivity|]. split; [reflexivity|].
  intros Hr result groups.
  assert (Hspec : forall gs, scanned_groups r gs <-> gs = groups).
  { intros gs. split; [apply scanned_findall|]. intros ->. apply findall_scanned. }
  assert (Hgroups : Forall (fun m => brace_delimited m = true /\ segment_of r m) groups)
    by apply findall_groups.
  assert (Hresult : result = match Json.loads r with
                             | Some v => v
                             | None => OllamaClient.first_loads groups
                             end).
  { unfold result, OllamaClient.extract_json_from_response.
    destruct r; [contradiction | reflexivity]. }
  assert (Hscan : Json.loads r = None ->
            (exists before m after_ d,
                groups = before ++ m :: after_
                /\ Forall unparseable before
                /\ Json.loads m = Some (VDict d)
                /\ result = VDict d)
            \/ (Forall unparseable groups /\ result = VNone)).
  { intros Hnone. rewrite Hresult, Hnone.
    destruct (first_loads_spec groups)
      as [[Hall Hv] | (before & m & after_ & v & Hg & Hall & Hv & Hfirst)].
    - right. split; assumption.
    - left. assert (Hm : brace_delimited m = true).
      { rewrite Hg in Hgroups. apply Forall_app in Hgroups as [_ Hm].
        inversion Hm as [| ? ? [Hb _] _]. exact Hb. }
      destruct (loads_group_dict m v Hm Hv) as (d & ->).
      exists before, m, after_, d. repeat split; assumption. }
  split; [|split; [assumption | split; [assumption | split; [assumption | split]]]].
  - intros v Hv. now rewrite Hresult, Hv.
  - intros Hnone Hsome.
    destruct (Hscan Hnone) as [(before & m & after_ & d & _ & _ & _ & Hd) | [Hall _]];
      [eauto|].
    exfalso. apply List.Exists_exists in Hsome as (m & Hin & Hm).
    rewrite List.Forall_forall in Hall. exact (Hm (Hall m Hin)).
  - intros Hnone. destruct (Json.loads r) as [v|] eqn:Hv.
    + left. f_equal. congruence.
    + right. split; [reflexivity|].
      destruct (Hscan eq_refl) as [(before & m & after_ & d & _ & _ & _ & Hd) | [Hall _]].
      * rewrite Hd in Hnone. discriminate.
      * assumption.
Qed.

End ExtractionTiers.


Section ScenarioChecks.

Import Scenario.

Example suffix_upper : PurePath.suffix "/vault/Notes/Plan.MD" = txt ".MD".
Proof. reflexivity. Qed.

Example suffix_of_dotfile : PurePath.suffix "/vault/.md" = [].
Proof. reflexivity. Qed.

Example stem_of_dotted : PurePath.stem "/vault/a.b/Plan.v2.md" = txt "Plan.v2".
Proof. reflexivity. Qed.

Example replace_every_occurrence :
  Text.replace (txt "ab") (txt "abX") (txt "abab-ab") = txt "abXabX-abX".
Proof. reflexivity. Qed.

Example rstrip_spaces : Text.rstrip (txt "a b  ") = txt "a b".
Proof. reflexivity. Qed.

Example loads_nested :
  Json.loads (txt "{ " ++ quoted "a" ++ txt ": [1, -2.50e1, true, null, {}], "
              ++ quoted "b" ++ txt " : {" ++ quoted "c" ++ txt ":0.85} } ")
  = Some (VDict [("a", VList [VNum 1; VNum (-25); VBool true; VNone; VDict []]);
                 ("b", VDict [("c", VNum (17 # 20))])]).
Proof. vm_compute. reflexivity. Qed.

Example loads_rejects :
  map Json.loads [txt "01"; txt "1."; txt "{x{}}"; txt "[1,]"; txt "{} x"]
  = [None; None; None; None; None].
Proof. vm_compute. reflexivity. Qed.

Example findall_groups_of_reply :
  OllamaClient.findall
    (txt "Sure! {x{" ++ quoted "a" ++ txt ":1}} and {" ++ quoted "b" ++ txt ":{"
     ++ quoted "c" ++ txt ":{}}} {}")
  = [txt "{x{" ++ quoted "a" ++ txt ":1}}"; txt "{" ++ quoted "c" ++ txt ":{}}"; txt "{}"].
Proof. vm_compute. reflexivity. Qed.

Example check_connection_reply :
  Json.loads reply_connection
  = Some (VDict [("connection_score", VNum 8); ("connection_type", VStr "thematic");
                 ("reason", VStr "both are plans"); ("confidence", VNum (9 # 10))]).
Proof. vm_compute. reflexivity. Qed.

Example check_cycle :
  let s' := _connection_analyzer_cycle clock ollama_connection str_of classified in
  connections_applied (processing_stats s') = 1
  /\ read_text (world s') a_md
     = Some (lines ["# Alpha"; ""; "Plans for spring."; ""; "## Related Notes"; "";
                    "- [[b]]"]).
Proof. vm_compute. split; reflexivity. Qed.

End ScenarioChecks.

Section Witnesses.

Import Scenario.

(** A chatty reply around a JSON object. *)
Lemma extract_json_tiers_witness :
  reply_chatty <> []
  /\ OllamaClient.extract_json_from_response (Some reply_chatty)
     = VDict [("primary_topic", VStr "Plans")].
Proof.
  assert (Hne : reply_chatty <> []) by (vm_compute; discriminate).
  assert (Hfull : Json.loads reply_chatty = None) by (vm_compute; reflexivity).
  split; [exact Hne|].
  destruct (proj2 (proj2 (extract_json_tiers reply_chatty)) Hne) as (_ & _ & _ & Hscan & _).
  assert (Hgroups : OllamaClient.findall reply_chatty = [reply_topic])
    by (vm_compute; reflexivity).
  assert (Htopic : Json.loads reply_topic = Some (VDict [("primary_topic", VStr "Plans")]))
    by (vm_compute; reflexivity).
  rewrite Hgroups in Hscan.
  destruct (Hscan Hfull) as [(before & m & after_ & d & Hg & _ & Hm & ->) | [Hall _]].
  - destruct before as [| m0 before]; [|destruct before; discriminate].
    injection Hg as <- <-. rewrite Htopic in Hm. now injection Hm as <-.
  - inversion Hall as [| ? ? Hm _]. unfold unparseable in Hm. congruence.
Defined.

(** A note with one "Related Notes" section. *)
Lemma apply_inserts_one_link_witness :
  let s := init default_config vault_once in
  let link := link_text str_of best in
  fst (fst (_apply_connection str_of s best)) = true
  /\ Text.count RELATED_NOTES once = 1%nat
  /\ exists pre post,
       once = pre ++ RELATED_NOTES ++ post
       /\ read_text (world (snd (fst (_apply_connection str_of s best)))) a_md
          = Some (pre ++ RELATED_NOTES ++ Text.LF :: link ++ post).
Proof.
  cbv zeta.
  set (s := init default_config vault_once).
  assert (Hok : fst (fst (_apply_connection str_of s best)) = true)
    by (vm_compute; reflexivity).
  assert (Hcount : Text.count RELATED_NOTES once = 1%nat) by (vm_compute; reflexivity).
  split; [exact Hok|]. split; [exact Hcount|].
  assert (Happly : _apply_connection str_of s best
                   = (true, snd (fst (_apply_connection str_of s best)),
                      snd (_apply_connection str_of s best))).
  { destruct (_apply_connection str_of s best) as [[ok s'] c']. simpl in *. now subst ok. }
  destruct (apply_inserts_one_link str_of s _ best _ Happly)
    as (content & Hread & Hone & _).
  assert (Hcontent : content = once) by (vm_compute in Hread; now injection Hread as <-).
  subst content. exact (Hone Hcount).
Defined.

Example apply_inserts_one_link_text :
  read_text (world (snd (fst (_apply_connection str_of
                                (init default_config vault_once) best)))) a_md
  = Some (lines ["# Alpha"; "## Related Notes"; "- [[b]]"; "- [[old]]"]).
Proof. vm_compute. reflexivity. Qed.

(** A reply that names the topic only. *)
Lemma absent_fields_take_defaults_witness :
  let data := response_data ollama_topic (world idle) in
  (absent data "content_type" /\ absent data "confidence")
  /\ option_map (fun r => (content_type r, ar_confidence r))
       (fst (OllamaClient.analyze_file_content clock ollama_topic (world idle) a_md))
     = Some (VStr "unknown", VNum (1 # 2)).
Proof.
  cbv zeta.
  assert (Habs : absent (response_data ollama_topic (world idle)) "content_type"
                 /\ absent (response_data ollama_topic (world idle)) "confidence").
  { split; exists [("primary_topic", VStr "Plans")]; split; reflexivity. }
  split; [exact Habs|].
  destruct (fst (OllamaClient.analyze_file_content clock ollama_topic (world idle) a_md))
    as [r|] eqn:Hr; [|vm_compute in Hr; discriminate].
  destruct (proj1 (absent_fields_take_defaults clock ollama_topic (world idle)) a_md r Hr)
    as (_ & Hty & _ & _ & _ & _ & Hconf).
  simpl. now rewrite (Hty (proj1 Habs)), (Hconf (proj2 Habs)).
Defined.


End Witnesses.

Section Counterexamples.

Import Scenario.

(** C7 as stated fails: the reply contains a balanced brace-delimited
    object that decodes, and the result is [None]; and the result is
    [None] for the reply "null", which decodes as a whole. *)
Lemma enclosed_object_not_found :
  (reply_enclosed = txt "{x" ++ inner_object ++ txt "}"
   /\ brace_delimited inner_object = true
   /\ Json.loads inner_object = Some (VDict [("a", VNum 1)])
   /\ OllamaClient.extract_json_from_response (Some reply_enclosed) = VNone)
  /\ (Json.loads (txt "null") = Some VNone
      /\ OllamaClient.extract_json_from_response (Some (txt "null")) = VNone).
Proof. repeat split; vm_compute; reflexivity. Qed.

(** C9 as stated fails: an absent [content_type] becomes "unknown", and
    an absent [connection_type] and [reason] become "thematic" and "No
    reason provided", none of them "Unknown". *)
Lemma absent_text_fields_not_Unknown :
  (absent (response_data ollama_topic (world idle)) "content_type"
   /\ option_map content_type
        (fst (OllamaClient.analyze_file_content clock ollama_topic (world idle) a_md))
      = Some (VStr "unknown")
   /\ VStr "unknown" <> VStr "Unknown")
  /\ (absent (response_data ollama_score (world idle)) "connection_type"
      /\ absent (response_data ollama_score (world idle)) "reason"
      /\ option_map (fun c => (connection_type c, reason c))
           (fst (OllamaClient.analyze_connection clock ollama_score (world idle)
                   (analysis a_md 950) (analysis b_md 900)))
         = Some (VStr "thematic", VStr "No reason provided")).
Proof.
  split; [split; [|split]|split; [|split]];
    try (exists [("primary_topic", VStr "Plans")]; split; reflexivity);
    try (exists [("connection_score", VNum 5)]; split; reflexivity);
    try (vm_compute; reflexivity).
  discriminate.
Qed.

End Counterexamples.

(** ** Applied connections and the pending list *)

Section Pending.

Import Scenario.

(** C1, at a failing input.  In a discovery cycle over two classified
    notes, the analyzer scores the pair 8 with confidence 0.9; the
    connection is saved, passes the policy and is applied; after the
    cycle it is still among the pending connections, its row not marked
    applied. *)
Theorem applied_connection_still_pending :
  let s' := _connection_analyzer_cycle clock ollama_connection str_of classified in
  connections_applied (processing_stats s') = 1
  /\ connection_application_count s' = 1
  /\ map (fun c => (source_file c, target_file c, strength_score c, auto_applied c))
         (DatabaseManager.get_pending_connections (connections s') 6 (7 # 10))
     = [(a_md, b_md, VNum 8, false)].
Proof. vm_compute. repeat split; reflexivity. Qed.

End Pending.

(** * Further properties *)

(** ** What a scan enqueues *)

Section ScanChanges.

Variable clock : nat -> Q.
Variable md5 : text -> string.

Lemma hash_holds_bytes w p h :
  _get_file_hash md5 w p = Some h ->
  exists bytes, holds_bytes p bytes (vault w) /\ md5 bytes = h.
Proof.
  unfold _get_file_hash, read_text_ignore.
  destruct (vault w !! p) as [f|] eqn:Hf; [|discriminate].
  destruct (contents f) as [bytes|] eqn:Hc; [|discriminate].
  intros [= <-]. exists bytes. split; [|reflexivity].
  intros f' Hf'. congruence.
Qed.

Lemma singleton_perm (e : Entry) l : Permutation l [e] -> l = [e].
Proof. intros H. symmetry in H. now apply Permutation_length_1_inv in H. Qed.

Lemma nil_perm (l : list Entry) : Permutation l [] -> l = [].
Proof. intros H. symmetry in H. now apply Permutation_nil in H. Qed.

(** X1.  Let the clock rise from one reading to the next, and the
    entries of the queue have been enqueued before its next reading.  A
    scan that lists a document which the inclusion policy accepts and
    whose hash is not its baseline enqueues exactly one task for it,
    however often the walk yields it: a "new_file" task of priority 1 when
    the baseline does not know the path, a "modified_file" task of
    priority 2 when it knows another hash; and the baseline of the path is
    its hash afterwards. *)
Theorem scan_enqueues_changed_once (files : list string) (s : Service) (p h : string) :
  rising clock -> in_time clock s ->
  In p files ->
  _should_process_file s p = true ->
  _get_file_hash md5 (world s) p = Some h -> h <> "" ->
  file_hashes s !! p <> Some h ->
  let s' := _scan_vault_files clock md5 files s in
  file_hashes s' !! p = Some h
  /\ exists e,
       entries_for p (enqueued_by s s') = [e]
       /\ match file_hashes s !! p with
          | None => new_file_entry p e
          | Some _ => modified_file_entry p e
          end.
Proof.
  intros Hrise Htime Hin Hp Hh Hne Hbase s'.
  destruct (scan_loop_changed clock md5 files s p h Hrise Htime Hin Hp Hh Hne Hbase)
    as (added & e & Hq & He & Hb & Hk).
  unfold s'. rewrite scan_baseline_of. split; [assumption|].
  exists e. split; [|assumption].
  apply singleton_perm. rewrite <- He. apply entries_for_perm.
  apply enqueued_by_perm. now rewrite scan_queue_of.
Qed.

(** *** What a scan passes over *)

(** X2.  A scan enqueues nothing for a document that cannot be opened or
    is not there, and nothing for a document whose hash is its baseline,
    however often the walk yields them and whatever the clock reads; the
    baseline of such a document stays as it is. *)
Theorem scan_passes_over (files : list string) (s : Service) (p : string) :
  read_text_ignore (world s) p = None
  \/ (exists h, _get_file_hash md5 (world s) p = Some h /\ file_hashes s !! p = Some h) ->
  let s' := _scan_vault_files clock md5 files s in
  entries_for p (enqueued_by s s') = []
  /\ file_hashes s' !! p = file_hashes s !! p.
Proof.
  intros Hpass s'.
  destruct (scan_loop_passes clock md5 files s p) as (more & Hq & Hnil & Hb).
  { destruct Hpass as [Hread | Hsame]; [left | now right].
    unfold _get_file_hash. now rewrite Hread. }
  unfold s'. rewrite scan_baseline_of. split; [|assumption].
  apply nil_perm. rewrite <- Hnil. apply entries_for_perm.
  apply enqueued_by_perm. now rewrite scan_queue_of.
Qed.

(** *** What a scan may enqueue *)

(** X3.  Whatever a scan enqueues is a "new_file" task of priority 1 or
    a "modified_file" task of priority 2, for a document that the walk
    yields and the inclusion policy accepts. *)
Theorem scan_enqueues_only_accepted (files : list string) (s : Service) :
  Forall (fun e =>
            let p := file_path (task e) in
            In p files /\ _should_process_file s p = true
            /\ (new_file_entry p e \/ modified_file_entry p e))
         (enqueued_by s (_scan_vault_files clock md5 files s)).
Proof.
  destruct (scan_loop_adds clock md5 files s) as (more & Hq & Hall).
  eapply Permutation_Forall; [|exact Hall].
  symmetry. apply enqueued_by_perm. now rewrite scan_queue_of.
Qed.

(** *** Scanning again *)

Lemma scan_loop_baseline files s p h :
  rising clock -> in_time clock s ->
  In p files ->
  _should_process_file s p = true ->
  _get_file_hash md5 (world s) p = Some h -> h <> "" ->
  file_hashes (scan_loop clock md5 files s) !! p = Some h.
Proof.
  intros Hrise Htime Hin Hp Hh Hne.
  destruct (decide (file_hashes s !! p = Some h)) as [Hbase | Hbase].
  - destruct (scan_loop_passes clock md5 files s p) as (more & _ & _ & Hb); [eauto|].
    congruence.
  - now destruct (scan_loop_changed clock md5 files s p h Hrise Htime Hin Hp Hh Hne Hbase)
      as (added & e & _ & _ & Hb & _).
Qed.

Lemma set_file_hashes_same s : set_file_hashes (file_hashes s) s = s.
Proof. now destruct s. Qed.

Lemma scan_file_up_to_date files s p :
  up_to_date md5 files s -> In p files -> scan_file clock md5 s p = returned s.
Proof.
  intros Hup Hin. unfold scan_file.
  destruct (_should_process_file s p) eqn:Hp; simpl; [|reflexivity].
  destruct (_get_file_hash md5 (world s) p) as [h|] eqn:Hh; [|reflexivity].
  destruct (String.eqb_spec h "") as [He | He]; [reflexivity|].
  rewrite (Hup p h Hin Hp Hh He). rewrite String.eqb_refl. simpl.
  rewrite insert_id by now apply Hup. now rewrite set_file_hashes_same.
Qed.

Lemma scan_loop_up_to_date files s : forall files',
  up_to_date md5 files s -> (forall p, In p files' -> In p files) ->
  scan_loop clock md5 files' s = returned s.
Proof.
  induction files' as [| p files' IH]; intros Hup Hsub; cbn [scan_loop]; cbv zeta;
    [reflexivity|].
  rewrite (scan_file_up_to_date files s p Hup) by (apply Hsub; now left).
  simpl. apply IH; [assumption|]. intros q Hq. apply Hsub. now right.
Qed.

(** X4.  Under a rising clock, the entries of the queue having been
    enqueued before its next reading, a scan leaves the baseline up to
    date for the documents it was given; so scanning the same documents
    again, while the vault has not changed, changes nothing at all:
    nothing is enqueued, the baseline is the same and not even the clock
    is read. *)
Theorem rescan_changes_nothing (files : list string) (s : Service) :
  rising clock -> in_time clock s ->
  let s1 := _scan_vault_files clock md5 files s in
  up_to_date md5 files s1
  /\ _scan_vault_files clock md5 files s1 = s1.
Proof.
  intros Hrise Htime. cbv zeta.
  assert (Hup : up_to_date md5 files (_scan_vault_files clock md5 files s)).
  { intros p h Hin Hp Hh Hne.
    destruct (scan_frame clock md5 files s) as (Hcfg & Hvault & _).
    rewrite scan_baseline_of. apply scan_loop_baseline; try assumption.
    - rewrite <- Hp. symmetry. now apply should_process_depends.
    - rewrite <- Hh. symmetry. now apply get_file_hash_depends. }
  split; [exact Hup|].
  unfold _scan_vault_files at 1. cbv zeta.
  now rewrite (scan_loop_up_to_date files _ files Hup).
Qed.

(** *** What the inclusion policy refuses *)

Lemma text_eqb_eq a : forall b, Text.eqb a b = true <-> a = b.
Proof.
  induction a as [| c a IH]; intros [| d b]; simpl; split; try easy.
  - intros H. apply andb_true_iff in H as [Hc Hab].
    apply Ascii.eqb_eq in Hc. apply IH in Hab. congruence.
  - intros [= -> ->]. rewrite Ascii.eqb_refl. now apply IH.
Qed.

(** X27.  The inclusion policy accepts a document exactly when it is
    there, its size is not above the maximum, its path in lower case
    contains none of the patterns of the exclusion list as they are
    configured, and its extension in lower case is the watched one; and a
    scan enqueues nothing for a document that the policy refuses,
    whatever the baseline says about it. *)
Theorem refused_never_enqueued (s : Service) (p : string) (files : list string) :
  (_should_process_file s p = true <->
   exists f, vault (world s) !! p = Some f
     /\ ~ oversized s p
     /\ Forall (fun pattern => Text.contains (txt pattern) (Text.lower (txt p)) = false)
               (skip_patterns (safety (config s)))
     /\ watched_extension p)
  /\ (_should_process_file s p = false ->
      entries_for p (enqueued_by s (_scan_vault_files clock md5 files s)) = []).
Proof.
  split.
  - unfold _should_process_file, oversized, watched_extension.
    destruct (vault (world s) !! p) as [f|] eqn:Hf.
    2: { split; [discriminate | intros (f & H & _); discriminate]. }
    destruct (Py.Qlt_bool _ _) eqn:Hsize.
    { split; [discriminate|]. intros (f' & [= <-] & Hnot & _). exfalso. apply Hnot.
      exists f. split; [reflexivity|]. now apply Qlt_bool_true. }
    destruct (existsb _ _) eqn:Hpat.
    { split; [discriminate|]. intros (_ & _ & _ & Hall & _).
      apply existsb_exists in Hpat as (pattern & Hin & Hc).
      rewrite List.Forall_forall in Hall. rewrite (Hall pattern Hin) in Hc. discriminate. }
    rewrite text_eqb_eq. split.
    + intros Hext. exists f. split; [reflexivity|]. split; [|split; [|assumption]].
      * intros (f' & [= <-] & Hlt). apply Qlt_bool_true in Hlt. congruence.
      * apply List.Forall_forall. intros pattern Hin.
        destruct (Text.contains _ _) eqn:Hc; [|reflexivity].
        assert (existsb (fun pattern => Text.contains (txt pattern) (Text.lower (txt p)))
                        (skip_patterns (safety (config s))) = true)
          by (apply existsb_exists; eauto).
        congruence.
    + now intros (_ & _ & _ & _ & Hext).
  - intros Hno.
    destruct (scan_loop_adds clock md5 files s) as (more & Hq & Hall).
    apply nil_perm.
    rewrite (entries_for_perm p _ more)
      by (apply enqueued_by_perm; now rewrite scan_queue_of).
    assert (Hnil : entries_for p more = []).
    { clear Hq. induction Hall as [| e more (_ & He & _) _ IH]; [reflexivity|].
      unfold entries_for in *. simpl.
      destruct (String.eqb_spec (file_path (task e)) p) as [E | E]; [|exact IH].
      rewrite E in He. congruence. }
    now rewrite Hnil.
Qed.

End ScanChanges.

(** ** The tables *)

Section Tables.

Lemma insert_by_perm {A} (before : A -> A -> bool) x l :
  Permutation (DatabaseManager.insert_by before x l) (x :: l).
Proof.
  induction l as [| y l IH]; simpl; [apply Permutation_refl|].
  destruct (before y x); [|apply Permutation_refl].
  transitivity (y :: x :: l); [now apply perm_skip | apply perm_swap].
Qed.

Lemma order_by_perm {A} (before : A -> A -> bool) l :
  Permutation (DatabaseManager.order_by before l) l.
Proof.
  unfold DatabaseManager.order_by.
  induction l as [| x l IH]; simpl; [apply Permutation_refl|].
  transitivity (x :: fold_right (DatabaseManager.insert_by before) [] l);
    [apply insert_by_perm | now apply perm_skip].
Qed.

(** ORDER BY sorts, for an order [R] that [before] decides on the rows
    that satisfy [P]. *)
Lemma insert_by_sorted {A} (P : A -> Prop) (R : A -> A -> Prop)
    (before : A -> A -> bool) :
  (forall a b c, R a b -> R b c -> R a c) ->
  (forall a b, P a -> P b -> before a b = true -> R a b) ->
  (forall a b, P a -> P b -> before a b = false -> R b a) ->
  forall x l, P x -> Forall P l -> StronglySorted R l ->
  StronglySorted R (DatabaseManager.insert_by before x l).
Proof.
  intros Htrans Hyes Hno x l Hx. induction l as [| y l IH]; intros HP Hs; simpl.
  - repeat constructor.
  - inversion HP as [| ? ? Hy HPl]; subst. inversion Hs as [| ? ? Hsl Hall]; subst.
    destruct (before y x) eqn:Hb.
    + constructor; [now apply IH|].
      eapply Permutation_Forall; [symmetry; apply insert_by_perm|].
      constructor; [now apply Hyes | assumption].
    + constructor; [assumption|]. constructor; [now apply Hno|].
      eapply Forall_impl; [exact Hall|]. intros z Hz.
      eapply Htrans; [apply Hno; eassumption | exact Hz].
Qed.

Lemma order_by_sorted {A} (P : A -> Prop) (R : A -> A -> Prop)
    (before : A -> A -> bool) :
  (forall a b c, R a b -> R b c -> R a c) ->
  (forall a b, P a -> P b -> before a b = true -> R a b) ->
  (forall a b, P a -> P b -> before a b = false -> R b a) ->
  forall l, Forall P l -> StronglySorted R (DatabaseManager.order_by before l).
Proof.
  intros Htrans Hyes Hno. unfold DatabaseManager.order_by.
  induction l as [| x l IH]; intros HP; simpl; [constructor|].
  inversion HP as [| ? ? Hx HPl]; subst.
  apply (insert_by_sorted P R before Htrans Hyes Hno); [assumption | | now apply IH].
  eapply Permutation_Forall; [symmetry; apply (order_by_perm before)|]. exact HPl.
Qed.

Lemma find_other_path (a : AnalysisResult) row p : forall table,
  p <> ar_file_path a ->
  ar_file_path (row_analysis row) = ar_file_path a ->
  List.find (fun r => String.eqb (ar_file_path (row_analysis r)) p)
    (List.filter (fun r => negb (String.eqb (ar_file_path (row_analysis r))
                                            (ar_file_path a))) table ++ [row])
  = List.find (fun r => String.eqb (ar_file_path (row_analysis r)) p) table.
Proof.
  intros table Hne Hrow. induction table as [| r table IH]; simpl.
  - rewrite Hrow. destruct (String.eqb_spec (ar_file_path a) p); [congruence | reflexivity].
  - destruct (String.eqb_spec (ar_file_path (row_analysis r)) (ar_file_path a)) as [E | E];
      simpl.
    + rewrite E. destruct (String.eqb_spec (ar_file_path a) p); [congruence | exact IH].
    + destruct (String.eqb (ar_file_path (row_analysis r)) p); [reflexivity | exact IH].
Qed.

Lemma rows_for_replaced p row : forall table,
  ar_file_path (row_analysis row) = p ->
  rows_for p (List.filter (fun r => negb (String.eqb (ar_file_path (row_analysis r)) p))
                          table ++ [row])
  = [row].
Proof.
  intros table Hrow. unfold rows_for. rewrite List.filter_app. simpl.
  rewrite Hrow, String.eqb_refl.
  replace (List.filter _ (List.filter _ table)) with (@nil AnalysisRow); [reflexivity|].
  symmetry. induction table as [| r table IH]; simpl; [reflexivity|].
  destruct (String.eqb (ar_file_path (row_analysis r)) p) eqn:E; simpl; [exact IH|].
  now rewrite E.
Qed.

Lemma find_rows_for p table :
  List.find (fun r => String.eqb (ar_file_path (row_analysis r)) p) table
  = hd_error (rows_for p table).
Proof.
  unfold rows_for. induction table as [| r table IH]; simpl; [reflexivity|].
  destruct (String.eqb (ar_file_path (row_analysis r)) p); [reflexivity | exact IH].
Qed.

Lemma stored_as_is_bindable a :
  stored_as_is a ->
  DatabaseManager.bindable (primary_topic a) && DatabaseManager.bindable (content_type a)
  && DatabaseManager.bindable (ar_confidence a) = true.
Proof.
  intros ([-> | (t & ->)] & [-> | (t' & ->)] & [-> | (q & -> & _)]); reflexivity.
Qed.

Lemma stored_as_is_cells a :
  stored_as_is a -> DatabaseManager.stored_analysis a = a.
Proof.
  destruct a. unfold stored_as_is, text_cell, exact_cell, DatabaseManager.stored_analysis.
  simpl.
  intros ([-> | (t & ->)] & [-> | (t' & ->)] & [-> | (q & -> & _)]); reflexivity.
Qed.

(** X5.  An analysis whose topic and type are texts or [None] and whose
    confidence is [None] or a number of magnitude at most 2^53 (beyond
    it an [int] is rounded by the REAL column, or refused when it does
    not fit 64 bits) is always saved, and is then what
    [get_analysis] returns for its path; it is the one row of that path,
    whatever rows there were for it before, and what [get_analysis]
    returns for every other path is as it was. *)
Theorem saved_analysis_is_read_back (table : list AnalysisRow) (a : AnalysisResult)
    (hash : option string) :
  stored_as_is a ->
  exists table',
    DatabaseManager.save_analysis table a hash = Some table'
    /\ DatabaseManager.get_analysis table' (ar_file_path a) = Some a
    /\ rows_for (ar_file_path a) table' = [{| row_analysis := a; content_hash := hash |}]
    /\ forall p, p <> ar_file_path a ->
         DatabaseManager.get_analysis table' p = DatabaseManager.get_analysis table p.
Proof.
  intros Hcells. unfold DatabaseManager.save_analysis.
  rewrite (stored_as_is_bindable a Hcells), (stored_as_is_cells a Hcells).
  eexists. split; [reflexivity|].
  assert (Hrows : rows_for (ar_file_path a)
                    (List.filter (fun r => negb (String.eqb (ar_file_path (row_analysis r))
                                                            (ar_file_path a))) table
                     ++ [{| row_analysis := a; content_hash := hash |}])
                  = [{| row_analysis := a; content_hash := hash |}])
    by now apply rows_for_replaced.
  split; [|split; [exact Hrows|]].
  - unfold DatabaseManager.get_analysis. now rewrite find_rows_for, Hrows.
  - intros p Hne. unfold DatabaseManager.get_analysis.
    now rewrite (find_other_path a _ p table Hne).
Qed.

(** X6.  [get_all_analyses] lists every stored analysis once, the latest
    analysed first. *)
Theorem all_analyses_newest_first (table : list AnalysisRow) :
  Permutation (DatabaseManager.get_all_analyses table) (map row_analysis table)
  /\ StronglySorted newer_first (DatabaseManager.get_all_analyses table).
Proof.
  unfold DatabaseManager.get_all_analyses. split; [apply order_by_perm|].
  apply (order_by_sorted (fun _ => True)).
  - intros a b c Hab Hbc. unfold newer_first in *. eapply Qle_trans; eassumption.
  - intros a b _ _ H. now apply Qle_bool_iff.
  - intros a b _ _ H. unfold newer_first.
    destruct (Qlt_le_dec (analyzed_at a) (analyzed_at b)) as [Hlt | Hle].
    + now apply Qlt_le_weak.
    + apply Qle_bool_iff in Hle. congruence.
  - apply List.Forall_forall. auto.
Qed.

Lemma sql_ge_real cell bound :
  real_cell cell ->
  DatabaseManager.sql_ge cell bound = true <-> at_least cell bound.
Proof.
  intros [-> | (q & ->)]; unfold at_least; simpl.
  - split; [discriminate | intros (q & H & _); discriminate].
  - unfold DatabaseManager.sql_ge, DatabaseManager.sql_compare. simpl.
    destruct (q ?= bound)%Q eqn:Hcmp.
    + apply Qeq_alt in Hcmp. split; [|reflexivity]. intros _. exists q.
      split; [reflexivity|]. rewrite Hcmp. apply Qle_refl.
    + apply Qlt_alt in Hcmp. split; [discriminate|]. intros (q' & [= <-] & Hle).
      exfalso. eapply Qlt_not_le; eassumption.
    + apply Qgt_alt in Hcmp. split; [|reflexivity]. intros _. exists q.
      split; [reflexivity | now apply Qlt_le_weak].
Qed.

(** X7.  With numbers or NULL in the score and confidence cells,
    [get_pending_connections] returns exactly the connections of the rows
    that are not marked applied and whose score and confidence are numbers
    at or above the two bounds, the strongest first. *)
Theorem pending_connections_listed (table : list ConnectionRow) (min_score min_confidence : Q) :
  Forall numeric_cells table ->
  let pending := DatabaseManager.get_pending_connections table min_score min_confidence in
  (forall c,
      In c pending <->
      (exists r, In r table /\ row_connection r = c)
      /\ auto_applied c = false
      /\ at_least (strength_score c) min_score
      /\ at_least (confidence c) min_confidence)
  /\ StronglySorted stronger_first pending.
Proof.
  intros Hcells pending.
  set (keep := fun r : ConnectionRow =>
         negb (auto_applied (row_connection r))
         && DatabaseManager.sql_ge (strength_score (row_connection r)) min_score
         && DatabaseManager.sql_ge (confidence (row_connection r)) min_confidence).
  assert (Hkeep : forall r, In r table ->
            keep r = true <->
            auto_applied (row_connection r) = false
            /\ at_least (strength_score (row_connection r)) min_score
            /\ at_least (confidence (row_connection r)) min_confidence).
  { intros r Hin. rewrite List.Forall_forall in Hcells. destruct (Hcells r Hin) as [Hs Hc].
    unfold keep. rewrite !andb_true_iff, negb_true_iff.
    rewrite (sql_ge_real _ _ Hs), (sql_ge_real _ _ Hc). tauto. }
  split.
  - intros c. unfold pending, DatabaseManager.get_pending_connections.
    fold keep. split.
    + intros Hin.
      apply (Permutation_in _ (order_by_perm _ _)) in Hin.
      apply in_map_iff in Hin as (r & <- & Hr). apply filter_In in Hr as [Hr Hk].
      apply (Hkeep r Hr) in Hk. split; [eauto | exact Hk].
    + intros [(r & Hr & <-) Hk].
      apply (Permutation_in _ (Permutation_sym (order_by_perm _ _))).
      apply in_map. apply filter_In. split; [assumption | now apply Hkeep].
  - unfold pending, DatabaseManager.get_pending_connections. fold keep.
    apply (order_by_sorted (fun c => exists x, strength_score c = VNum x)).
    + intros a b c (x & y & Hx & Hy & Hxy) (y' & z & Hy' & Hz & Hyz).
      exists x, z. repeat split; try assumption.
      assert (y' = y) by congruence. subst y'. eapply Qle_trans; eassumption.
    + intros a b (x & Hx) (y & Hy) H. exists x, y. rewrite Hx, Hy.
      repeat split. unfold DatabaseManager.sql_compare in H. rewrite Hx, Hy in H.
      simpl in H. destruct (x ?= y)%Q eqn:Hcmp; [| discriminate |].
      * apply Qeq_alt in Hcmp. rewrite Hcmp. apply Qle_refl.
      * apply Qgt_alt in Hcmp. now apply Qlt_le_weak.
    + intros a b (x & Hx) (y & Hy) H. exists y, x. rewrite Hx, Hy.
      repeat split. unfold DatabaseManager.sql_compare in H. rewrite Hx, Hy in H.
      simpl in H. destruct (x ?= y)%Q eqn:Hcmp; [| | discriminate].
      * apply Qeq_alt in Hcmp. rewrite Hcmp. apply Qle_refl.
      * apply Qlt_alt in Hcmp. now apply Qlt_le_weak.
    + apply List.Forall_forall. intros c Hin.
      apply in_map_iff in Hin as (r & <- & Hr). apply filter_In in Hr as [Hr Hk].
      apply (Hkeep r Hr) in Hk as (_ & (x & Hx & _) & _).
      rewrite List.Forall_forall in Hcells. destruct (Hcells r Hr) as [[E | (q & E)] _].
      * rewrite E in Hx. discriminate.
      * eauto.
Qed.

End Tables.

(** ** The discovery cycle *)

Section CycleSteps.

Variable clock : nat -> Q.
Variable ollama : nat -> Run.
Variable str_of : value -> text.

Lemma analyze_connection_world w a b :
  vault (snd (OllamaClient.analyze_connection clock ollama w a b)) = vault w
  /\ ollama_calls (snd (OllamaClient.analyze_connection clock ollama w a b))
     = S (ollama_calls w).
Proof.
  unfold OllamaClient.analyze_connection. simpl.
  destruct (Py.truthy _); simpl; [|split; reflexivity].
  destruct (OllamaClient.extract_json_from_response _); simpl; try (split; reflexivity).
  destruct (Py.gt_num _ 2) as [[|]|]; simpl; split; reflexivity.
Qed.

(** The service in which the policy leaves the clock read and the hourly
    counter reset or kept. *)
Lemma should_auto_apply_service s c :
  exists count hour w,
    snd (_should_auto_apply_connection clock s c) = set_hourly count hour (set_world w s)
    /\ vault w = vault (world s)
    /\ ollama_calls w = ollama_calls (world s)
    /\ (count = connection_application_count s \/ count = 0).
Proof.
  unfold _should_auto_apply_connection. simpl.
  destruct (negb (py_int (clock (clock_reads (world s)) / 3600) =? last_connection_hour s));
    simpl.
  - exists 0, (py_int (clock (clock_reads (world s)) / 3600)),
      (snd (OllamaClient.time_time clock (world s))).
    split; [|simpl; auto].
    repeat match goal with
           | |- context [if ?b then _ else _] => destruct b; simpl
           | |- context [match ?o with Some _ => _ | None => _ end] => destruct o; simpl
           end; reflexivity.
  - exists (connection_application_count s), (last_connection_hour s),
      (snd (OllamaClient.time_time clock (world s))).
    split; [|simpl; auto].
    repeat match goal with
           | |- context [if ?b then _ else _] => destruct b; simpl
           | |- context [match ?o with Some _ => _ | None => _ end] => destruct o; simpl
           end; reflexivity.
Qed.

(** The policy says yes only below the cap, and only when enabled. *)
Lemma should_auto_apply_yes s c :
  fst (_should_auto_apply_connection clock s c) = Some true ->
  connection_application_count (snd (_should_auto_apply_connection clock s c))
  < max_per_hour (auto_apply (config s))
  /\ enabled (auto_apply (config s)) = true.
Proof.
  unfold _should_auto_apply_connection. simpl.
  destruct (negb (py_int (clock (clock_reads (world s)) / 3600) =? last_connection_hour s));
    simpl;
    match goal with
    | |- context [?m <=? ?k] => destruct (Z.leb_spec m k); simpl; [discriminate|]
    end;
    repeat match goal with
           | |- context [if ?b then _ else _] => destruct b eqn:?; simpl
           | |- context [match ?o with Some _ => _ | None => _ end] => destruct o; simpl
           end; try discriminate; intros [= He]; split; assumption.
Qed.

(** [_apply_connection] either fails and leaves everything as it is, or
    writes the source document and counts one application. *)
Lemma apply_connection_cases s c :
  _apply_connection str_of s c = (false, s, c)
  \/ exists content w,
       read_text (world s) (source_file c) = Some content
       /\ exists_ (world s) (target_file c) = true
       /\ write_text (world s) (source_file c) (linked content (link_text str_of c))
          = Some w
       /\ _apply_connection str_of s c
          = (true,
             set_hourly (connection_application_count s + 1) (last_connection_hour s)
                        (set_world w s),
             set_auto_applied true c).
Proof.
  unfold _apply_connection.
  destruct (exists_ (world s) (source_file c)); simpl; [|now left].
  destruct (exists_ (world s) (target_file c)); simpl; [|now left].
  destruct (read_text (world s) (source_file c)) as [content|]; [|now left].
  destruct (write_text _ _ _) as [w|] eqn:Hw; [|now left].
  right. exists content, w. repeat split. exact Hw.
Qed.

Lemma write_text_elsewhere w p content w' :
  write_text w p content = Some w' ->
  ollama_calls w' = ollama_calls w
  /\ clock_reads w' = clock_reads w
  /\ forall p', p' <> p -> vault w' !! p' = vault w !! p'.
Proof.
  unfold write_text. destruct (vault w !! p) as [f|]; [|discriminate].
  destruct (writable f); [|discriminate]. intros [= <-]. simpl.
  repeat split. intros p' Hne. now apply lookup_insert_ne.
Qed.

(** A property of pairs of services that holds along a cycle when it holds
    along each comparison; [P] holds of the stored analyses. *)
Lemma cycle_invariant (P : AnalysisResult -> Prop) (R : Service -> Service -> Prop) :
  (forall s, R s s) ->
  (forall s1 s2 s3, R s1 s2 -> R s2 s3 -> R s1 s3) ->
  (forall found s a b,
      P a -> P b -> R s (cycle_service (compare_pair clock ollama str_of found s a b))) ->
  (forall s, R s (set_processing_stats (count_error (processing_stats s)) s)) ->
  forall s,
    Forall P (map row_analysis (file_analysis s)) ->
    R s (_connection_analyzer_cycle clock ollama str_of s).
Proof.
  intros Hrefl Htrans Hstep Herr.
  assert (Hinner : forall a rest found s,
             P a -> Forall P rest ->
             R s (cycle_service (inner_loop clock ollama str_of a rest found s))).
  { intros a rest. induction rest as [| b rest IH]; intros found s Ha Hrest; simpl;
      [apply Hrefl|].
    inversion Hrest as [| ? ? Hb Hrest']; subst.
    destruct (max_connections_per_run <=? found); [apply Hrefl|].
    pose proof (Hstep found s a b Ha Hb) as H1.
    destruct (compare_pair clock ollama str_of found s a b) as [found' s' | s'];
      simpl in *; [|assumption].
    eapply Htrans; [eassumption | now apply IH]. }
  assert (Houter : forall window found s,
             Forall P window ->
             R s (cycle_service (outer_loop clock ollama str_of window found s))).
  { induction window as [| a rest IH]; intros found s Hwin; simpl; [apply Hrefl|].
    inversion Hwin as [| ? ? Ha Hrest]; subst.
    pose proof (Hinner a rest found s Ha Hrest) as H1.
    destruct (inner_loop clock ollama str_of a rest found s) as [found' s' | s'];
      simpl in *; [|assumption].
    destruct (max_connections_per_run <=? found'); [assumption|].
    eapply Htrans; [eassumption | now apply IH]. }
  intros s Hall. unfold _connection_analyzer_cycle.
  destruct (_ <? 2)%nat; [apply Hrefl|].
  assert (Hwin : Forall P (firstn 50 (DatabaseManager.get_all_analyses (file_analysis s)))).
  { apply Forall_take. unfold DatabaseManager.get_all_analyses.
    eapply Permutation_Forall; [symmetry; apply order_by_perm | exact Hall]. }
  pose proof (Houter _ 0 s Hwin) as H.
  destruct (outer_loop _ _ _ _ 0 s) as [found' s' | s']; simpl in *; [assumption|].
  eapply Htrans; [eassumption | apply Herr].
Qed.

(** *** The hourly cap *)

Lemma compare_pair_within_cap found s a b :
  let s' := cycle_service (compare_pair clock ollama str_of found s a b) in
  config s' = config s
  /\ (0 <= max_per_hour (auto_apply (config s)) -> within_cap s -> within_cap s').
Proof.
  unfold compare_pair, within_cap.
  destruct (OllamaClient.analyze_connection clock ollama (world s) a b) as [[c|] w1];
    simpl; [|split; auto].
  destruct (DatabaseManager.save_connection (connections s) c) as [table|];
    simpl; [|split; auto].
  match goal with
  | |- context [_should_auto_apply_connection clock ?s2 c] =>
      destruct (should_auto_apply_service s2 c) as (count & hour & w & Hs3 & _ & _ & Hcount);
      pose proof (should_auto_apply_yes s2 c) as Hyes;
      destruct (_should_auto_apply_connection clock s2 c) as [[[|]|] s3]
  end; simpl in *; subst s3; simpl in *.
  - destruct (Hyes eq_refl) as [Hbelow _].
    match goal with
    | |- context [_apply_connection str_of ?s3 c] =>
        destruct (apply_connection_cases s3 c) as [-> | (content & w' & _ & _ & _ & ->)]
    end; simpl; split; auto; intros; lia.
  - split; [reflexivity|]. intros. destruct Hcount; lia.
  - split; [reflexivity|]. intros. destruct Hcount; lia.
Qed.

(** X8.  When the cap of automatic applications per hour is not negative
    and the hourly counter is within it, the counter is still within it
    after a discovery cycle: the cycle applies no connection beyond the cap
    of the hour. *)
Theorem cycle_keeps_hourly_cap (s : Service) :
  0 <= max_per_hour (auto_apply (config s)) ->
  within_cap s ->
  within_cap (_connection_analyzer_cycle clock ollama str_of s).
Proof.
  intros Hmax Hcap.
  apply (cycle_invariant
           (fun _ => True)
           (fun s s' => config s' = config s
                        /\ (0 <= max_per_hour (auto_apply (config s)) ->
                            within_cap s -> within_cap s'))); try assumption.
  - intros s0. split; auto.
  - intros s1 s2 s3 [Hc1 H1] [Hc2 H2]. split; [congruence|].
    intros Hm Hw. apply H2; [now rewrite Hc1 | now apply H1].
  - intros found s0 a b _ _. apply compare_pair_within_cap.
  - intros s0. split; [reflexivity | auto].
  - apply List.Forall_forall. auto.
Qed.

(** *** The cap of a cycle *)

Lemma saves_refl s s' :
  connections s' = connections s ->
  connections_found (processing_stats s') = connections_found (processing_stats s) ->
  saves 0 s s'.
Proof.
  intros Hc Hf. exists []. rewrite app_nil_r. repeat split; [assumption|].
  rewrite Hf. simpl. lia.
Qed.

Lemma saves_trans n m s1 s2 s3 :
  saves n s1 s2 -> saves m s2 s3 -> saves (n + m) s1 s3.
Proof.
  intros (a1 & H1 & L1 & F1) (a2 & H2 & L2 & F2). exists (a1 ++ a2).
  split; [rewrite H2, H1; now rewrite <- app_assoc|].
  split; [rewrite length_app; lia|]. rewrite F2, F1. lia.
Qed.

Lemma apply_connection_frame s c :
  let s' := snd (fst (_apply_connection str_of s c)) in
  config s' = config s /\ connections s' = connections s
  /\ processing_stats s' = processing_stats s
  /\ file_analysis s' = file_analysis s /\ task_queue s' = task_queue s
  /\ file_hashes s' = file_hashes s
  /\ ollama_calls (world s') = ollama_calls (world s).
Proof.
  destruct (apply_connection_cases s c) as [-> | (content & w & _ & _ & Hw & ->)]; simpl.
  - repeat split.
  - repeat split. now destruct (write_text_elsewhere _ _ _ _ Hw) as [-> _].
Qed.

Lemma compare_pair_saves found s a b :
  match compare_pair clock ollama str_of found s a b with
  | Running found' s' =>
      (found' = found /\ saves 0 s s') \/ (found' = found + 1 /\ saves 1 s s')
  | Raised s' => saves 0 s s' \/ saves 1 s s'
  end.
Proof.
  unfold compare_pair.
  destruct (OllamaClient.analyze_connection clock ollama (world s) a b) as [[c|] w1];
    simpl; [|left; split; [reflexivity | now apply saves_refl]].
  unfold DatabaseManager.save_connection.
  destruct (_ && _); simpl; [|left; now apply saves_refl].
  match goal with
  | |- context [_should_auto_apply_connection clock ?s2 c] =>
      destruct (should_auto_apply_service s2 c) as (count & hour & w & Hs3 & _);
      destruct (_should_auto_apply_connection clock s2 c) as [[[|]|] s3]
  end; simpl in *; subst s3.
  - match goal with
    | |- context [_apply_connection str_of ?s3 c] =>
        pose proof (apply_connection_frame s3 c) as (_ & Hc & Hst & _);
        destruct (_apply_connection str_of s3 c) as [[applied s4] c']
    end; simpl in *.
    destruct applied; simpl; (right; split; [reflexivity|]); eexists [_];
      simpl; rewrite Hc, Hst; repeat split.
  - right. split; [reflexivity|]. eexists [_]. repeat split.
  - right. eexists [_]. repeat split.
Qed.

Lemma inner_loop_saves a rest : forall found s,
  found <= max_connections_per_run ->
  match inner_loop clock ollama str_of a rest found s with
  | Running found' s' =>
      exists n, found' = found + Z.of_nat n /\ found' <= max_connections_per_run
                /\ saves n s s'
  | Raised s' =>
      exists n, found + Z.of_nat n <= max_connections_per_run /\ saves n s s'
  end.
Proof.
  induction rest as [| b rest IH]; intros found s Hle; simpl.
  - exists 0%nat. split; [simpl; lia|]. split; [assumption | now apply saves_refl].
  - destruct (Z.leb_spec max_connections_per_run found) as [Hcap | Hcap].
    + exists 0%nat. split; [simpl; lia|]. split; [assumption | now apply saves_refl].
    + pose proof (compare_pair_saves found s a b) as Hstep.
      destruct (compare_pair clock ollama str_of found s a b) as [found1 s1 | s1].
      * assert (Hle1 : found1 <= max_connections_per_run)
          by (destruct Hstep as [[-> _] | [-> _]]; lia).
        specialize (IH found1 s1 Hle1).
        destruct (inner_loop clock ollama str_of a rest found1 s1) as [found2 s2 | s2].
        -- destruct IH as (n & -> & Hle2 & Hn).
           destruct Hstep as [[-> H0] | [-> H1]].
           ++ exists (0 + n)%nat. split; [simpl; lia|]. split; [assumption|].
              eapply saves_trans; eassumption.
           ++ exists (1 + n)%nat. split; [lia|]. split; [assumption|].
              eapply saves_trans; eassumption.
        -- destruct IH as (n & Hle2 & Hn).
           destruct Hstep as [[-> H0] | [-> H1]].
           ++ exists (0 + n)%nat. split; [simpl; lia|]. eapply saves_trans; eassumption.
           ++ exists (1 + n)%nat. split; [lia|]. eapply saves_trans; eassumption.
      * destruct Hstep as [H0 | H1].
        -- exists 0%nat. split; [simpl; lia | assumption].
        -- exists 1%nat. split; [lia | assumption].
Qed.

Lemma outer_loop_saves window : forall found s,
  found <= max_connections_per_run ->
  match outer_loop clock ollama str_of window found s with
  | Running found' s' =>
      exists n, found' = found + Z.of_nat n /\ found' <= max_connections_per_run
                /\ saves n s s'
  | Raised s' =>
      exists n, found + Z.of_nat n <= max_connections_per_run /\ saves n s s'
  end.
Proof.
  induction window as [| a rest IH]; intros found s Hle; simpl.
  - exists 0%nat. split; [simpl; lia|]. split; [assumption | now apply saves_refl].
  - pose proof (inner_loop_saves a rest found s Hle) as Hin.
    destruct (inner_loop clock ollama str_of a rest found s) as [found1 s1 | s1];
      [|assumption].
    destruct Hin as (n & -> & Hle1 & Hn).
    destruct (max_connections_per_run <=? found + Z.of_nat n).
    + exists n. repeat split; assumption.
    + specialize (IH (found + Z.of_nat n) s1 Hle1).
      destruct (outer_loop clock ollama str_of rest (found + Z.of_nat n) s1)
        as [found2 s2 | s2].
      * destruct IH as (m & -> & Hle2 & Hm). exists (n + m)%nat.
        split; [lia|]. split; [assumption|]. eapply saves_trans; eassumption.
      * destruct IH as (m & Hle2 & Hm). exists (n + m)%nat.
        split; [lia|]. eapply saves_trans; eassumption.
Qed.

(** X9.  One discovery cycle saves at most twenty connections, whatever
    the analyzer replies and even when the cycle is left by an exception;
    the rows are appended to the table and the counter of connections
    found grows by their number. *)
Theorem cycle_saves_at_most_twenty (s : Service) :
  exists n,
    (n <= 20)%nat
    /\ saves n s (_connection_analyzer_cycle clock ollama str_of s).
Proof.
  unfold _connection_analyzer_cycle.
  destruct (_ <? 2)%nat.
  { exists 0%nat. split; [lia | now apply saves_refl]. }
  pose proof (outer_loop_saves
                (firstn 50 (DatabaseManager.get_all_analyses (file_analysis s))) 0 s)
    as H.
  unfold max_connections_per_run in H.
  destruct (outer_loop _ _ _ _ 0 s) as [found' s' | s'].
  - destruct H as (n & -> & Hle & Hn); [lia|]. exists n. split; [lia | assumption].
  - destruct H as (n & Hle & Hn); [lia|]. exists n. split; [lia|].
    destruct Hn as (added & Hc & Hl & Hf). exists added. repeat split; assumption.
Qed.

(** *** Analyzer runs *)

Lemma compare_pair_calls found s a b :
  ollama_calls (world (cycle_service (compare_pair clock ollama str_of found s a b)))
  = S (ollama_calls (world s)).
Proof.
  unfold compare_pair.
  destruct (analyze_connection_world (world s) a b) as [_ Hcalls].
  destruct (OllamaClient.analyze_connection clock ollama (world s) a b) as [[c|] w1];
    simpl in *; [|assumption].
  destruct (DatabaseManager.save_connection (connections s) c) as [table|];
    simpl; [|assumption].
  match goal with
  | |- context [_should_auto_apply_connection clock ?s2 c] =>
      destruct (should_auto_apply_service s2 c) as (count & hour & w & Hs3 & _ & Hw & _);
      destruct (_should_auto_apply_connection clock s2 c) as [[[|]|] s3]
  end; simpl in *; subst s3; simpl in *; try congruence.
  match goal with
  | |- context [_apply_connection str_of ?s3 c] =>
      pose proof (apply_connection_frame s3 c) as (_ & _ & _ & _ & _ & _ & Hk);
      destruct (_apply_connection str_of s3 c) as [[applied s4] c']
  end; simpl in *.
  destruct applied; simpl; congruence.
Qed.

Lemma inner_loop_calls a rest : forall found s,
  let s' := cycle_service (inner_loop clock ollama str_of a rest found s) in
  (ollama_calls (world s) <= ollama_calls (world s')
   /\ ollama_calls (world s') <= ollama_calls (world s) + length rest)%nat.
Proof.
  induction rest as [| b rest IH]; intros found s; simpl; [lia|].
  destruct (max_connections_per_run <=? found); simpl; [lia|].
  pose proof (compare_pair_calls found s a b) as Hstep.
  destruct (compare_pair clock ollama str_of found s a b) as [found1 s1 | s1];
    simpl in *; [|lia].
  specialize (IH found1 s1). simpl in IH. lia.
Qed.

Lemma outer_loop_calls window : forall found s,
  let s' := cycle_service (outer_loop clock ollama str_of window found s) in
  (ollama_calls (world s) <= ollama_calls (world s')
   /\ ollama_calls (world s') <= ollama_calls (world s) + pairs (length window))%nat.
Proof.
  induction window as [| a rest IH]; intros found s; simpl; [lia|].
  pose proof (inner_loop_calls a rest found s) as Hin.
  destruct (inner_loop clock ollama str_of a rest found s) as [found1 s1 | s1];
    simpl in *; [|lia].
  destruct (max_connections_per_run <=? found1); simpl; [lia|].
  specialize (IH found1 s1). simpl in IH. lia.
Qed.

Lemma pairs_mono n m : (n <= m)%nat -> (pairs n <= pairs m)%nat.
Proof.
  induction 1 as [| m _ IH]; [lia|]. simpl. lia.
Qed.

Lemma insert_by_length {A} (before : A -> A -> bool) x l :
  length (DatabaseManager.insert_by before x l) = S (length l).
Proof.
  induction l as [| y l IH]; simpl; [reflexivity|].
  destruct (before y x); simpl; [now rewrite IH | reflexivity].
Qed.

Lemma order_by_length {A} (before : A -> A -> bool) l :
  length (DatabaseManager.order_by before l) = length l.
Proof.
  unfold DatabaseManager.order_by.
  induction l as [| x l IH]; simpl; [reflexivity|].
  now rewrite insert_by_length, IH.
Qed.

(** X10.  A discovery cycle runs the analyzer at most once for each pair
    among the first fifty stored analyses: with [n] the lesser of 50 and
    their number, at most [n (n - 1) / 2] times, and so never more than
    1225 times. *)
Theorem cycle_analyzer_runs (s : Service) :
  let s' := _connection_analyzer_cycle clock ollama str_of s in
  let n := Nat.min 50 (length (file_analysis s)) in
  (ollama_calls (world s) <= ollama_calls (world s')
   /\ ollama_calls (world s') <= ollama_calls (world s) + pairs n
   /\ 2 * pairs n = n * (n - 1)
   /\ pairs n <= 1225)%nat.
Proof.
  cbv zeta.
  assert (Hpairs : forall n, (2 * pairs n = n * (n - 1))%nat).
  { induction n as [| n IH]; [reflexivity|]. cbn [pairs].
    replace (S n - 1)%nat with n by lia. destruct n; [reflexivity|].
    replace (S n - 1)%nat with n in IH by lia. nia. }
  assert (Hmax : (pairs (Nat.min 50 (length (file_analysis s))) <= 1225)%nat).
  { change 1225%nat with (pairs 50). apply pairs_mono. lia. }
  split; [|split; [|split; [apply Hpairs | exact Hmax]]].
  - unfold _connection_analyzer_cycle. destruct (_ <? 2)%nat; [lia|].
    pose proof (outer_loop_calls
                  (firstn 50 (DatabaseManager.get_all_analyses (file_analysis s))) 0 s)
      as H.
    destruct (outer_loop _ _ _ _ 0 s) as [found' s' | s']; simpl in *; lia.
  - unfold _connection_analyzer_cycle. destruct (_ <? 2)%nat; [lia|].
    pose proof (outer_loop_calls
                  (firstn 50 (DatabaseManager.get_all_analyses (file_analysis s))) 0 s)
      as H.
    assert (Hlen : length (firstn 50 (DatabaseManager.get_all_analyses (file_analysis s)))
                   = Nat.min 50 (length (file_analysis s))).
    { rewrite length_firstn. unfold DatabaseManager.get_all_analyses.
      now rewrite order_by_length, length_map. }
    rewrite Hlen in H.
    destruct (outer_loop _ _ _ _ 0 s) as [found' s' | s']; simpl in *; lia.
Qed.

(** *** What a cycle touches *)

Lemma analyze_connection_files w a b c :
  fst (OllamaClient.analyze_connection clock ollama w a b) = Some c ->
  source_file c = ar_file_path a /\ target_file c = ar_file_path b
  /\ auto_applied c = false.
Proof.
  unfold OllamaClient.analyze_connection. simpl.
  destruct (Py.truthy _); simpl; [|discriminate].
  destruct (OllamaClient.extract_json_from_response _); simpl; try discriminate.
  destruct (Py.gt_num _ 2) as [[|]|]; simpl; try discriminate.
  intros [= <-]. repeat split.
Qed.

Lemma touches_only_refl paths s : touches_only paths s s.
Proof. repeat split. Qed.

Lemma touches_only_trans paths s1 s2 s3 :
  touches_only paths s1 s2 -> touches_only paths s2 s3 -> touches_only paths s1 s3.
Proof.
  intros (A1 & B1 & C1 & D1 & E1) (A2 & B2 & C2 & D2 & E2).
  repeat split; try congruence. intros p Hp. rewrite E2, E1; auto.
Qed.

Lemma compare_pair_touches (paths : string -> Prop) found s a b :
  paths (ar_file_path a) ->
  touches_only paths s (cycle_service (compare_pair clock ollama str_of found s a b)).
Proof.
  intros Ha. unfold compare_pair.
  destruct (analyze_connection_world (world s) a b) as [Hvault _].
  pose proof (analyze_connection_files (world s) a b) as Hfiles.
  destruct (OllamaClient.analyze_connection clock ollama (world s) a b) as [[c|] w1];
    simpl in *; [|repeat split; intros; simpl; congruence].
  destruct (Hfiles c eq_refl) as (Hsrc & _).
  destruct (DatabaseManager.save_connection (connections s) c) as [table|];
    simpl; [|repeat split; intros; simpl; congruence].
  match goal with
  | |- context [_should_auto_apply_connection clock ?s2 c] =>
      destruct (should_auto_apply_service s2 c) as (count & hour & w & Hs3 & Hw & _);
      destruct (_should_auto_apply_connection clock s2 c) as [[[|]|] s3]
  end; simpl in *; subst s3; simpl in *;
    try (repeat split; intros; simpl; congruence).
  match goal with
  | |- context [_apply_connection str_of ?s3 c] =>
      destruct (apply_connection_cases s3 c) as [-> | (content & w' & _ & _ & Hwrite & ->)]
  end; simpl.
  - repeat split; intros; simpl; congruence.
  - destruct (write_text_elsewhere _ _ _ _ Hwrite) as (_ & _ & Helse). simpl in Helse.
    repeat split. intros p Hp. simpl. rewrite Helse; [congruence|].
    intros ->. apply Hp. now rewrite Hsrc.
Qed.

(** X11.  A discovery cycle leaves the configuration, the task queue, the
    baseline of hashes and the stored analyses as they are, and the only
    documents it may write are documents of which an analysis is stored:
    every other document of the vault is as it was. *)
Theorem cycle_writes_only_analysed (s : Service) :
  touches_only (analysed s) s (_connection_analyzer_cycle clock ollama str_of s).
Proof.
  apply (cycle_invariant (fun a => analysed s (ar_file_path a))
                         (touches_only (analysed s))).
  - apply touches_only_refl.
  - apply touches_only_trans.
  - intros found s0 a b Ha _. now apply compare_pair_touches.
  - intros s0. repeat split.
  - apply List.Forall_forall. intros a Ha. apply in_map_iff in Ha as (r & <- & Hr).
    exists r. split; [assumption | reflexivity].
Qed.

(** *** Auto-apply switched off *)

Lemma compare_pair_disabled found s a b :
  let s' := cycle_service (compare_pair clock ollama str_of found s a b) in
  config s' = config s
  /\ (enabled (auto_apply (config s)) = false ->
      same_documents s s'
      /\ connections_applied (processing_stats s')
         = connections_applied (processing_stats s)).
Proof.
  unfold compare_pair, same_documents.
  destruct (analyze_connection_world (world s) a b) as [Hvault _].
  destruct (OllamaClient.analyze_connection clock ollama (world s) a b) as [[c|] w1];
    simpl in *; [|split; auto].
  destruct (DatabaseManager.save_connection (connections s) c) as [table|];
    simpl; [|split; auto].
  match goal with
  | |- context [_should_auto_apply_connection clock ?s2 c] =>
      destruct (should_auto_apply_service s2 c) as (count & hour & w & Hs3 & Hw & _);
      pose proof (should_auto_apply_yes s2 c) as Hyes;
      destruct (_should_auto_apply_connection clock s2 c) as [[[|]|] s3]
  end; simpl in *; subst s3; simpl in *.
  - destruct (Hyes eq_refl) as [_ Hon].
    match goal with
    | |- context [_apply_connection str_of ?s3 c] =>
        pose proof (apply_connection_frame s3 c) as (Hcfg & _);
        destruct (_apply_connection str_of s3 c) as [[applied s4] c']
    end; simpl in *.
    destruct applied; simpl; (split; [exact Hcfg|]); intros Hoff; congruence.
  - split; [reflexivity|]. intros _. split; [congruence | reflexivity].
  - split; [reflexivity|]. intros _. split; [congruence | reflexivity].
Qed.

(** X12.  With [enabled] false in the auto-apply configuration, a
    discovery cycle writes no document and counts no application, whatever
    the analyzer replies. *)
Theorem disabled_cycle_writes_nothing (s : Service) :
  enabled (auto_apply (config s)) = false ->
  same_documents s (_connection_analyzer_cycle clock ollama str_of s)
  /\ connections_applied
       (processing_stats (_connection_analyzer_cycle clock ollama str_of s))
     = connections_applied (processing_stats s).
Proof.
  intros Hoff.
  apply (cycle_invariant
           (fun _ => True)
           (fun s s' =>
              config s' = config s
              /\ (enabled (auto_apply (config s)) = false ->
                  same_documents s s'
                  /\ connections_applied (processing_stats s')
                     = connections_applied (processing_stats s)))); try assumption.
  - intros s0. split; [reflexivity|]. intros _. split; reflexivity.
  - intros s1 s2 s3 [Hc1 H1] [Hc2 H2]. split; [congruence|]. intros Hd.
    destruct (H1 Hd) as [V1 A1]. rewrite <- Hc1 in Hd. destruct (H2 Hd) as [V2 A2].
    unfold same_documents in *. split; congruence.
  - intros found s0 a b _ _. apply compare_pair_disabled.
  - intros s0. split; [reflexivity|]. intros _. split; reflexivity.
  - apply List.Forall_forall. auto.
Qed.

(** *** What applying a connection does *)

(** X13.  [_apply_connection] succeeds exactly when the source document
    exists, can be read as text and can be written, and the target
    exists.  When it fails, the service and the connection object are as
    they were.  When it succeeds, the service is as it was but for the
    source document, which holds the text with the link, and the hourly
    counter, which has grown by one; and the connection object is as it
    was but for its mark.  In any case no document other than the source
    is changed, and no table, queue, baseline or statistics. *)
Theorem apply_connection_outcome (s : Service) (c : Connection) :
  let ok := fst (fst (_apply_connection str_of s c)) in
  let s' := snd (fst (_apply_connection str_of s c)) in
  let c' := snd (_apply_connection str_of s c) in
  (ok = true <->
   exists_ (world s) (target_file c) = true
   /\ exists f content,
        vault (world s) !! source_file c = Some f
        /\ decodes f = true /\ contents f = Some content /\ writable f = true)
  /\ (ok = false -> s' = s /\ c' = c)
  /\ (ok = true ->
      auto_applied c' = true
      /\ connection_application_count s' = connection_application_count s + 1
      /\ exists content w,
           read_text (world s) (source_file c) = Some content
           /\ write_text (world s) (source_file c) (linked content (link_text str_of c))
              = Some w
           /\ read_text w (source_file c) = Some (linked content (link_text str_of c))
           /\ s' = set_hourly (connection_application_count s + 1)
                              (last_connection_hour s) (set_world w s)
           /\ c' = set_auto_applied true c)
  /\ touches_only (eq (source_file c)) s s'
  /\ connections s' = connections s
  /\ processing_stats s' = processing_stats s
  /\ last_connection_hour s' = last_connection_hour s
  /\ clock_reads (world s') = clock_reads (world s)
  /\ ollama_calls (world s') = ollama_calls (world s).
Proof.
  cbv zeta. split; [|split; [|split]].
  - unfold _apply_connection, exists_, read_text, write_text.
    destruct (vault (world s) !! source_file c) as [f|] eqn:Hf; simpl.
    + destruct (vault (world s) !! target_file c) as [g|]; simpl.
      * destruct (decodes f) eqn:Hd.
        -- destruct (contents f) as [content|] eqn:Hc.
           ++ destruct (writable f) eqn:Hw; simpl.
              ** split; [|reflexivity]. intros _. split; [reflexivity|].
                 exists f, content. repeat split; assumption.
              ** split; [discriminate|].
                 intros (_ & f' & content' & [= <-] & _ & _ & Hw'). congruence.
           ++ split; [discriminate|].
              intros (_ & f' & content' & [= <-] & _ & Hc' & _). congruence.
        -- split; [discriminate|].
           intros (_ & f' & content' & [= <-] & Hd' & _). congruence.
      * split; [discriminate|]. intros (H & _). discriminate.
    + split; [discriminate|]. intros (_ & f' & content' & H & _). discriminate.
  - destruct (apply_connection_cases s c) as [-> | (content & w & _ & _ & _ & ->)]; simpl.
    + auto.
    + discriminate.
  - destruct (apply_connection_cases s c) as [-> | (content & w & Hr & _ & Hw & ->)]; simpl.
    + discriminate.
    + intros _. split; [reflexivity|]. split; [reflexivity|].
      exists content, w. split; [assumption|]. split; [assumption|].
      split; [|split; reflexivity].
      unfold write_text in Hw.
      destruct (vault (world s) !! source_file c) as [f|]; [|discriminate].
      destruct (writable f); [|discriminate].
      injection Hw as <-. unfold read_text. simpl. now rewrite lookup_insert_eq.
  - destruct (apply_connection_cases s c) as [-> | (content & w & _ & _ & Hw & ->)]; simpl.
    + split; [apply touches_only_refl|]. repeat split.
    + destruct (write_text_elsewhere _ _ _ _ Hw) as (Hcalls & Hreads & Helse).
      split; [|repeat split; assumption].
      repeat split. intros p Hp. simpl. apply Helse. congruence.
Qed.

(** *** When the policy raises *)

Lemma should_auto_apply_shape s c :
  let cfg := auto_apply (config s) in
  fst (_should_auto_apply_connection clock s c) =
  if max_per_hour cfg <=? counter_after_rollover clock s then Some false
  else match Py.lt_num (confidence c) (confidence_threshold cfg) with
       | None => None
       | Some true => Some false
       | Some false =>
           match Py.lt_num (strength_score c) (strength_threshold cfg) with
           | None => None
           | Some true => Some false
           | Some false =>
               if negb (Py.in_strs (connection_type c) (safe_connection_types cfg))
               then Some false else Some (enabled cfg)
           end
       end.
Proof.
  unfold _should_auto_apply_connection, counter_after_rollover, hour_now. simpl.
  destruct (py_int (clock (clock_reads (world s)) / 3600) =? last_connection_hour s);
    simpl;
    repeat match goal with
           | |- context [if ?b then _ else _] => destruct b; simpl
           | |- context [match ?o with Some _ => _ | None => _ end] => destruct o; simpl
           end; reflexivity.
Qed.

Lemma lt_num_none v q : Py.lt_num v q = None <-> Py.num_of v = None.
Proof. unfold Py.lt_num. destruct (Py.num_of v) as [[x|]|]; split; congruence. Qed.

(** X28.  [_should_auto_apply_connection] returns false whenever the
    hourly counter, after the roll-over reset, is at or above the cap; and
    it returns true exactly when the counter is below the cap, neither the
    confidence nor the strength is below its threshold (each a number at
    or above it, or NaN), the type is in the allow-list and the enabled
    flag is set. *)
Theorem should_auto_apply_exactly (s : Service) (c : Connection) :
  let cfg := auto_apply (config s) in
  (max_per_hour cfg <= counter_after_rollover clock s ->
   fst (_should_auto_apply_connection clock s c) = Some false)
  /\ (fst (_should_auto_apply_connection clock s c) = Some true <->
      counter_after_rollover clock s < max_per_hour cfg
      /\ not_below (confidence c) (confidence_threshold cfg)
      /\ not_below (strength_score c) (strength_threshold cfg)
      /\ type_allowed (connection_type c) (safe_connection_types cfg)
      /\ enabled cfg = true).
Proof.
  intros cfg. rewrite should_auto_apply_shape. fold cfg. split.
  - intros Hcap. apply Z.leb_le in Hcap. now rewrite Hcap.
  - destruct (max_per_hour cfg <=? counter_after_rollover clock s) eqn:Hcap.
    { apply Z.leb_le in Hcap. split; [discriminate|]. intros (Hlt & _). lia. }
    apply Z.leb_gt in Hcap.
    destruct (Py.lt_num (confidence c) (confidence_threshold cfg)) as [[|]|] eqn:Hconf.
    1,3: split; [discriminate|]; intros (_ & Hc & _);
         apply lt_num_false in Hc; congruence.
    destruct (Py.lt_num (strength_score c) (strength_threshold cfg)) as [[|]|] eqn:Hstr.
    1,3: split; [discriminate|]; intros (_ & _ & Hc & _);
         apply lt_num_false in Hc; congruence.
    apply lt_num_false in Hconf, Hstr.
    destruct (Py.in_strs (connection_type c) (safe_connection_types cfg)) eqn:Hty; simpl.
    + apply in_strs_true in Hty. split.
      * intros [= He]. auto.
      * intros (_ & _ & _ & _ & ->). reflexivity.
    + split; [discriminate|]. intros (_ & _ & _ & Hc & _).
      apply in_strs_true in Hc. congruence.
Qed.

(** X14.  [_should_auto_apply_connection] raises, at the comparison with
    a threshold, exactly when the hourly counter, after the roll-over
    reset, is below the cap and either the confidence is no number, or the
    confidence is a number at or above its threshold, or NaN, and the
    strength is no number.  At the cap it never raises. *)
Theorem should_auto_apply_raises (s : Service) (c : Connection) :
  let cfg := auto_apply (config s) in
  fst (_should_auto_apply_connection clock s c) = None <->
  counter_after_rollover clock s < max_per_hour cfg
  /\ (Py.num_of (confidence c) = None
      \/ ((at_least (confidence c) (confidence_threshold cfg)
           \/ Py.num_of (confidence c) = Some Py.NaN)
          /\ Py.num_of (strength_score c) = None)).
Proof.
  intros cfg. rewrite should_auto_apply_shape. fold cfg.
  destruct (Z.leb_spec (max_per_hour cfg) (counter_after_rollover clock s)) as [Hcap | Hcap].
  { split; [discriminate | intros [H _]; lia]. }
  destruct (Py.lt_num (confidence c) (confidence_threshold cfg)) as [[|]|] eqn:Hconf.
  - split; [discriminate|]. intros (_ & [H | [H _]]).
    + apply (lt_num_none _ (confidence_threshold cfg)) in H. congruence.
    + apply (proj2 (lt_num_false _ (confidence_threshold cfg))) in H. congruence.
  - pose proof (proj1 (lt_num_false _ _) Hconf) as Hat.
    destruct (Py.lt_num (strength_score c) (strength_threshold cfg)) as [[|]|] eqn:Hstr.
    + split; [discriminate|]. intros (_ & [H | [_ H]]).
      * apply (lt_num_none _ (confidence_threshold cfg)) in H. congruence.
      * apply (lt_num_none _ (strength_threshold cfg)) in H. congruence.
    + split.
      * destruct (negb _); discriminate.
      * intros (_ & [H | [_ H]]).
        -- apply (lt_num_none _ (confidence_threshold cfg)) in H. congruence.
        -- apply (lt_num_none _ (strength_threshold cfg)) in H. congruence.
    + split; [|reflexivity]. intros _. split; [assumption|]. right.
      split; [assumption | now apply (lt_num_none _ (strength_threshold cfg))].
  - split; [|reflexivity]. intros _. split; [assumption|]. left.
    now apply (lt_num_none _ (confidence_threshold cfg)).
Qed.

(** *** The direction of connections *)

Lemma adds_rows_refl Q s s' : connections s' = connections s -> adds_rows Q s s'.
Proof. intros H. exists []. rewrite app_nil_r. split; [assumption | constructor]. Qed.

Lemma adds_rows_trans Q s1 s2 s3 :
  adds_rows Q s1 s2 -> adds_rows Q s2 s3 -> adds_rows Q s1 s3.
Proof.
  intros (a1 & H1 & F1) (a2 & H2 & F2). exists (a1 ++ a2). split.
  - rewrite H2, H1. now rewrite <- app_assoc.
  - apply Forall_app. split; assumption.
Qed.

Lemma adds_rows_impl (Q Q' : ConnectionRow -> Prop) s s' :
  (forall r, Q r -> Q' r) -> adds_rows Q s s' -> adds_rows Q' s s'.
Proof.
  intros HQ (added & H & F). exists added. split; [assumption|].
  eapply Forall_impl; [exact F | exact HQ].
Qed.

Lemma compare_pair_links found s a b :
  adds_rows (fun r => source_file (row_connection r) = ar_file_path a
                      /\ target_file (row_connection r) = ar_file_path b)
            s (cycle_service (compare_pair clock ollama str_of found s a b)).
Proof.
  unfold compare_pair.
  pose proof (analyze_connection_files (world s) a b) as Hfiles.
  destruct (OllamaClient.analyze_connection clock ollama (world s) a b) as [[c|] w1];
    simpl in *; [|now apply adds_rows_refl].
  destruct (Hfiles c eq_refl) as (Hsrc & Htgt & _).
  unfold DatabaseManager.save_connection.
  destruct (_ && _); simpl; [|now apply adds_rows_refl].
  match goal with
  | |- context [_should_auto_apply_connection clock ?s2 c] =>
      pose proof (should_auto_apply_connections clock s2 c) as Hsame;
      destruct (_should_auto_apply_connection clock s2 c) as [[[|]|] s3]
  end; simpl in *.
  - pose proof (apply_connection_connections str_of s3 c) as Happ.
    destruct (_apply_connection str_of s3 c) as [[applied s4] c']. simpl in *.
    eexists [_]. split.
    + destruct applied; simpl; rewrite Happ, Hsame; reflexivity.
    + constructor; [split; assumption | constructor].
  - eexists [_]. split; [rewrite Hsame; reflexivity|].
    constructor; [split; assumption | constructor].
  - eexists [_]. split; [rewrite Hsame; reflexivity|].
    constructor; [split; assumption | constructor].
Qed.

Lemma inner_loop_links a rest : forall found s,
  adds_rows (fun r => source_file (row_connection r) = ar_file_path a
                      /\ exists b, In b rest
                                   /\ target_file (row_connection r) = ar_file_path b)
            s (cycle_service (inner_loop clock ollama str_of a rest found s)).
Proof.
  induction rest as [| b rest IH]; intros found s; simpl.
  - now apply adds_rows_refl.
  - destruct (max_connections_per_run <=? found); [now apply adds_rows_refl|].
    pose proof (compare_pair_links found s a b) as Hstep.
    apply (adds_rows_impl _
             (fun r => source_file (row_connection r) = ar_file_path a
                       /\ exists b0, In b0 (b :: rest)
                                     /\ target_file (row_connection r) = ar_file_path b0))
      in Hstep; [|intros r [H1 H2]; split; [assumption|]; exists b; split; [now left | assumption]].
    destruct (compare_pair clock ollama str_of found s a b) as [found' s' | s'];
      simpl in *; [|assumption].
    eapply adds_rows_trans; [eassumption|].
    eapply adds_rows_impl; [|apply IH].
    intros r [H1 (b0 & Hb0 & H2)]. split; [assumption|]. exists b0.
    split; [now right | assumption].
Qed.

Lemma outer_loop_links window : forall found s,
  StronglySorted newer_first window ->
  adds_rows (newer_to_older window)
            s (cycle_service (outer_loop clock ollama str_of window found s)).
Proof.
  induction window as [| a rest IH]; intros found s Hsorted; simpl.
  - now apply adds_rows_refl.
  - inversion Hsorted as [| ? ? Hrest Hall]; subst.
    rewrite List.Forall_forall in Hall.
    pose proof (inner_loop_links a rest found s) as Hin.
    apply (adds_rows_impl _ (newer_to_older (a :: rest))) in Hin.
    2:{ intros r [H1 (b & Hb & H2)]. exists a, b.
        split; [now left|]. split; [now right|]. split; [now apply Hall|].
        split; assumption. }
    destruct (inner_loop clock ollama str_of a rest found s) as [found' s' | s'];
      simpl in *; [|assumption].
    destruct (max_connections_per_run <=? found'); [assumption|].
    eapply adds_rows_trans; [eassumption|].
    eapply adds_rows_impl; [|apply IH; assumption].
    intros r (a0 & b0 & Ha0 & Hb0 & Hnew & H1 & H2). exists a0, b0.
    split; [now right|]. split; [now right|]. repeat split; assumption.
Qed.

Lemma in_firstn {A} (x : A) n l : In x (firstn n l) -> In x l.
Proof.
  intros H. rewrite <- (firstn_skipn n l). apply in_or_app. now left.
Qed.

Lemma sorted_firstn {A} (R : A -> A -> Prop) n : forall l,
  StronglySorted R l -> StronglySorted R (firstn n l).
Proof.
  induction n as [| n IH]; intros l Hs; [constructor|].
  destruct l as [| x l]; [constructor|]. simpl.
  inversion Hs as [| ? ? Hl Hall]; subst. constructor; [now apply IH|].
  now apply Forall_take.
Qed.

(** X15.  Every connection that a discovery cycle saves links the
    documents of two stored analyses, and its source is the one that was
    analysed later (or at the same time): links are written into the more
    recently analysed document of a pair, never the other way round. *)
Theorem connections_point_to_older (s : Service) :
  adds_rows (newer_to_older (map row_analysis (file_analysis s)))
            s (_connection_analyzer_cycle clock ollama str_of s).
Proof.
  unfold _connection_analyzer_cycle.
  destruct (_ <? 2)%nat; [now apply adds_rows_refl|].
  set (all := DatabaseManager.get_all_analyses (file_analysis s)).
  assert (Hperm : Permutation all (map row_analysis (file_analysis s)))
    by (unfold all, DatabaseManager.get_all_analyses; apply order_by_perm).
  assert (Hsorted : StronglySorted newer_first (firstn 50 all)).
  { apply sorted_firstn. unfold all, DatabaseManager.get_all_analyses.
    apply (order_by_sorted (fun _ => True)).
    - intros a b c Hab Hbc. unfold newer_first in *. eapply Qle_trans; eassumption.
    - intros a b _ _ H. now apply Qle_bool_iff.
    - intros a b _ _ H. unfold newer_first.
      destruct (Qlt_le_dec (analyzed_at a) (analyzed_at b)) as [Hlt | Hle].
      + now apply Qlt_le_weak.
      + apply Qle_bool_iff in Hle. congruence.
    - apply List.Forall_forall. auto. }
  pose proof (outer_loop_links (firstn 50 all) 0 s Hsorted) as H.
  apply (adds_rows_impl _ (newer_to_older (map row_analysis (file_analysis s)))) in H.
  2:{ intros r (a & b & Ha & Hb & Hrest). exists a, b.
      split; [|split; [|exact Hrest]].
      - apply (Permutation_in _ Hperm). eapply in_firstn; eassumption.
      - apply (Permutation_in _ Hperm). eapply in_firstn; eassumption. }
  destruct (outer_loop _ _ _ _ 0 s) as [found' s' | s']; simpl in *; [assumption|].
  destruct H as (added & Hc & Hall). exists added. split; assumption.
Qed.

(** *** The counters of a cycle *)

Lemma compare_pair_counters found s a b :
  let st := processing_stats s in
  let st' := processing_stats
               (cycle_service (compare_pair clock ollama str_of found s a b)) in
  files_processed st' = files_processed st
  /\ errors st' = errors st
  /\ 0 <= connections_applied st' - connections_applied st
       <= connections_found st' - connections_found st.
Proof.
  unfold compare_pair.
  destruct (OllamaClient.analyze_connection clock ollama (world s) a b) as [[c|] w1];
    simpl; [|repeat split; lia].
  destruct (DatabaseManager.save_connection (connections s) c) as [table|];
    simpl; [|repeat split; lia].
  match goal with
  | |- context [_should_auto_apply_connection clock ?s2 c] =>
      destruct (should_auto_apply_service s2 c) as (count & hour & w & Hs3 & _);
      destruct (_should_auto_apply_connection clock s2 c) as [[[|]|] s3]
  end; simpl in *; subst s3; simpl; try (repeat split; lia).
  match goal with
  | |- context [_apply_connection str_of ?s3 c] =>
      pose proof (apply_connection_frame s3 c) as (_ & _ & Hst & _);
      destruct (_apply_connection str_of s3 c) as [[applied s4] c']
  end; simpl in *.
  destruct applied; simpl; rewrite Hst; simpl; repeat split; lia.
Qed.

(** X16.  A discovery cycle counts no more applications than connections
    found, counts at most one error, and leaves the number of files
    processed as it is. *)
Theorem cycle_counters (s : Service) :
  let st := processing_stats s in
  let st' := processing_stats (_connection_analyzer_cycle clock ollama str_of s) in
  files_processed st' = files_processed st
  /\ errors st <= errors st' <= errors st + 1
  /\ 0 <= connections_applied st' - connections_applied st
       <= connections_found st' - connections_found st.
Proof.
  cbv zeta.
  set (R := fun s0 s1 : Service =>
         files_processed (processing_stats s1) = files_processed (processing_stats s0)
         /\ errors (processing_stats s1) = errors (processing_stats s0)
         /\ 0 <= connections_applied (processing_stats s1)
                 - connections_applied (processing_stats s0)
              <= connections_found (processing_stats s1)
                 - connections_found (processing_stats s0)).
  assert (Hrefl : forall s0, R s0 s0) by (intros s0; unfold R; repeat split; lia).
  assert (Htrans : forall s1 s2 s3, R s1 s2 -> R s2 s3 -> R s1 s3).
  { unfold R. intros s1 s2 s3 (A1 & B1 & C1) (A2 & B2 & C2). repeat split; lia. }
  assert (Hinner : forall a rest found s0,
             R s0 (cycle_service (inner_loop clock ollama str_of a rest found s0))).
  { intros a rest. induction rest as [| b rest IH]; intros found s0; simpl; [apply Hrefl|].
    destruct (max_connections_per_run <=? found); [apply Hrefl|].
    pose proof (compare_pair_counters found s0 a b) as H1.
    destruct (compare_pair clock ollama str_of found s0 a b) as [found' s' | s'];
      simpl in *; [|exact H1].
    eapply Htrans; [exact H1 | apply IH]. }
  assert (Houter : forall window found s0,
             R s0 (cycle_service (outer_loop clock ollama str_of window found s0))).
  { induction window as [| a rest IH]; intros found s0; simpl; [apply Hrefl|].
    pose proof (Hinner a rest found s0) as H1.
    destruct (inner_loop clock ollama str_of a rest found s0) as [found' s' | s'];
      simpl in *; [|exact H1].
    destruct (max_connections_per_run <=? found'); [exact H1|].
    eapply Htrans; [exact H1 | apply IH]. }
  unfold _connection_analyzer_cycle.
  destruct (_ <? 2)%nat; [repeat split; lia|].
  pose proof (Houter (firstn 50 (DatabaseManager.get_all_analyses (file_analysis s))) 0 s)
    as H.
  destruct (outer_loop _ _ _ _ 0 s) as [found' s' | s']; simpl in *;
    destruct H as (A & B & C); repeat split; simpl; lia.
Qed.

End CycleSteps.

(** ** What the analyzer's replies give *)

Section Replies.

Variable clock : nat -> Q.
Variable ollama : nat -> Run.
Variable md5 : text -> string.

Lemma gt_num_true v q : Py.gt_num v q = Some true <-> above v q.
Proof.
  unfold Py.gt_num, above. destruct (Py.num_of v) as [[x|]|]; split.
  - intros [= H]. apply Qlt_bool_true in H. eauto.
  - intros (x' & [= <-] & Hlt). f_equal. now apply Qlt_bool_true.
  - discriminate.
  - intros (x' & H & _). discriminate.
  - discriminate.
  - intros (x' & H & _). discriminate.
Qed.

Ltac no_result :=
  split;
  [ split;
    [ intros H; now contradiction H
    | intros H; decompose record H;
      repeat match goal with
             | E : _ = VDict _ |- _ => (discriminate E || (injection E as <-))
             end;
      congruence ]
  | split; [intros a0 Ha0; discriminate Ha0 | split; reflexivity] ].

(** X17.  [analyze_file_content] returns a classification exactly when
    the document can be read as text and the reply decodes to a dict that
    is not empty.  The classification is for the path given and is stamped
    with the clock; an unreadable document costs no analyzer run, and a
    readable one costs exactly one. *)
Theorem analyze_file_content_returns (w : World) (p : string) :
  let result := fst (OllamaClient.analyze_file_content clock ollama w p) in
  let w' := snd (OllamaClient.analyze_file_content clock ollama w p) in
  (result <> None <->
   read_text w p <> None
   /\ exists d, response_data ollama w = VDict d /\ d <> [])
  /\ (forall a, result = Some a ->
        ar_file_path a = p /\ analyzed_at a = clock (clock_reads w))
  /\ vault w' = vault w
  /\ ollama_calls w'
     = match read_text w p with
       | Some _ => S (ollama_calls w)
       | None => ollama_calls w
       end.
Proof.
  cbv zeta. unfold OllamaClient.analyze_file_content, response_data.
  destruct (read_text w p) as [content|]; simpl; [|no_result].
  destruct (OllamaClient.extract_json_from_response _) as [| b | q | t | l | d |]; simpl;
    [ no_result
    | destruct b; simpl; no_result
    | destruct (negb (Qeq_bool q 0)); simpl; no_result
    | destruct (negb (String.eqb t "")); simpl; no_result
    | destruct l; simpl; no_result
    |
    | no_result ].
  destruct d as [| kv d]; simpl; [no_result|].
  split; [|split; [|split; reflexivity]].
  - split; [|discriminate]. intros _. split; [discriminate|].
    exists (kv :: d). split; [reflexivity | discriminate].
  - intros a [= <-]. split; reflexivity.
Qed.

(** X18.  [analyze_connection] returns a connection exactly when the
    reply decodes to a dict whose [connection_score] is a number above 2;
    an absent score counts as 0.  The connection goes from the first
    analysis to the second, is not marked applied, and is stamped with the
    clock; every call costs exactly one analyzer run. *)
Theorem analyze_connection_returns (w : World) (a b : AnalysisResult) :
  let result := fst (OllamaClient.analyze_connection clock ollama w a b) in
  let w' := snd (OllamaClient.analyze_connection clock ollama w a b) in
  (result <> None <->
   exists d, response_data ollama w = VDict d
             /\ above (Py.get d "connection_score" (VNum 0)) 2)
  /\ (forall c, result = Some c ->
        source_file c = ar_file_path a /\ target_file c = ar_file_path b
        /\ auto_applied c = false /\ created_at c = clock (clock_reads w))
  /\ vault w' = vault w
  /\ ollama_calls w' = S (ollama_calls w).
Proof.
  cbv zeta. unfold OllamaClient.analyze_connection, response_data. simpl.
  destruct (OllamaClient.extract_json_from_response _) as [| b0 | q | t | l | d |]; simpl;
    [ no_result
    | destruct b0; simpl; no_result
    | destruct (negb (Qeq_bool q 0)); simpl; no_result
    | destruct (negb (String.eqb t "")); simpl; no_result
    | destruct l; simpl; no_result
    |
    | no_result ].
  destruct d as [| kv d]; simpl.
  { split; [|split; [intros c Hc; discriminate Hc | split; reflexivity]].
    split; [intros H; now contradiction H|].
    intros (d & [= <-] & (x & Hx & Hlt)). simpl in Hx. injection Hx as <-.
    exfalso. revert Hlt. apply Qle_not_lt. discriminate. }
  destruct (Py.gt_num (Py.get (kv :: d) "connection_score" (VNum 0)) 2)
    as [[|]|] eqn:Hgt; simpl.
  - split; [|split; [|split; reflexivity]].
    + split; [|discriminate]. intros _. exists (kv :: d).
      split; [reflexivity | now apply gt_num_true].
    + intros c [= <-]. repeat split.
  - split; [|split; [intros c Hc; discriminate Hc | split; reflexivity]].
    split; [intros H; now contradiction H|].
    intros (d' & [= <-] & Habove). apply gt_num_true in Habove. congruence.
  - split; [|split; [intros c Hc; discriminate Hc | split; reflexivity]].
    split; [intros H; now contradiction H|].
    intros (d' & [= <-] & Habove). apply gt_num_true in Habove. congruence.
Qed.

(** *** Processing a task *)


Lemma analyze_file_content_world w p :
  vault (snd (OllamaClient.analyze_file_content clock ollama w p)) = vault w.
Proof.
  unfold OllamaClient.analyze_file_content.
  destruct (read_text w p); simpl; [|reflexivity].
  destruct (Py.truthy _); simpl; [|reflexivity].
  destruct (OllamaClient.extract_json_from_response _); reflexivity.
Qed.


(** *** A failed analyzer run *)

Lemma failed_run_no_data w :
  next_run_fails ollama w -> response_data ollama w = VNone.
Proof.
  unfold next_run_fails, response_data, OllamaClient.call_ollama. simpl.
  destruct (ollama (ollama_calls w)) as [code stdout | |]; try reflexivity.
  intros [Hcode | Hempty].
  - destruct code; [contradiction | reflexivity | reflexivity].
  - destruct code; try reflexivity. now rewrite Hempty.
Qed.

(** X20.  When the run of the analyzer fails (a time-out, a process that
    cannot be run, an exit code other than 0, or an output of white space
    only), no classification and no connection is returned, and the task
    being processed counts as one error and stores nothing. *)
Theorem failed_run_gives_nothing (s : Service) (t : Task) (a b : AnalysisResult) :
  next_run_fails ollama (world s) ->
  fst (OllamaClient.analyze_file_content clock ollama (world s) (file_path t)) = None
  /\ fst (OllamaClient.analyze_connection clock ollama (world s) a b) = None
  /\ let s' := _process_analysis_task clock ollama md5 s t in
     file_analysis s' = file_analysis s
     /\ errors (processing_stats s') = errors (processing_stats s) + 1
     /\ files_processed (processing_stats s') = files_processed (processing_stats s).
Proof.
  intros Hfail. pose proof (failed_run_no_data (world s) Hfail) as Hdata.
  assert (Hfile : fst (OllamaClient.analyze_file_content clock ollama (world s) (file_path t))
                  = None).
  { destruct (fst (OllamaClient.analyze_file_content clock ollama (world s) (file_path t)))
      as [r|] eqn:Hr; [|reflexivity].
    destruct (analysis_fields clock ollama _ _ _ Hr) as (d & Hd & _). congruence. }
  split; [exact Hfile|]. split.
  - destruct (fst (OllamaClient.analyze_connection clock ollama (world s) a b))
      as [c|] eqn:Hc; [|reflexivity].
    destruct (connection_fields clock ollama _ _ _ _ Hc) as (d & Hd & _). congruence.
  - cbv zeta. unfold _process_analysis_task.
    destruct (OllamaClient.analyze_file_content clock ollama (world s) (file_path t))
      as [[r|] w1]; simpl in *; [discriminate|]. repeat split.
Qed.

(** *** Nothing but discovery writes documents *)

Lemma process_task_world s t :
  vault (world (_process_analysis_task clock ollama md5 s t)) = vault (world s).
Proof.
  unfold _process_analysis_task.
  pose proof (analyze_file_content_world (world s) (file_path t)) as Hvault.
  destruct (OllamaClient.analyze_file_content clock ollama (world s) (file_path t))
    as [[a|] w1]; simpl in *; [|assumption].
  destruct (DatabaseManager.save_analysis _ _ _); simpl; assumption.
Qed.

(** X21.  Scanning, forcing an analysis and a turn of the task processor
    read documents and never write one: after each of them every document
    of the vault is as it was. *)
Theorem only_discovery_writes_documents (s : Service) (files : list string)
    (path : option string) :
  same_documents s (_scan_vault_files clock md5 files s)
  /\ same_documents s (force_analysis clock path files s)
  /\ same_documents s (snd (_task_processor_step clock ollama md5 s)).
Proof.
  unfold same_documents. split; [apply (scan_frame clock md5 files s)|]. split.
  - unfold force_analysis.
    destruct path as [p|]; [|apply (force_all_spec clock files s)].
    destruct (negb (String.eqb p "")); [|apply (force_all_spec clock files s)].
    destruct (exists_ (world s) p); [|reflexivity].
    apply (queue_task_spec clock s p 0 "forced").
  - unfold _task_processor_step.
    destruct (negb _); [|reflexivity].
    destruct (PriorityQueue.get (task_queue s)) as [e q | q |]; try reflexivity.
    simpl. now rewrite process_task_world.
Qed.

End Replies.

(** ** Forced tasks go first *)

Section ForcedFirst.

Variable clock : nat -> Q.
Variable ollama : nat -> Run.
Variable md5 : text -> string.

Lemma lt_true_flip a b :
  PriorityQueue.lt a b = Some true -> PriorityQueue.lt b a = Some false.
Proof.
  unfold PriorityQueue.lt. rewrite (Z.eqb_sym (priority b)).
  destruct (Z.eqb_spec (priority a) (priority b)) as [E | E]; simpl.
  - destruct (Qeq_bool (neg_time a) (neg_time b)) eqn:Ht; simpl.
    + destruct (PriorityQueue.task_eqb _ _); discriminate.
    + intros [= H]. apply Qlt_bool_true in H.
      assert (Ht' : Qeq_bool (neg_time b) (neg_time a) = false).
      { destruct (Qeq_bool (neg_time b) _) eqn:E'; [|reflexivity].
        apply Qeq_bool_iff in E'. rewrite E' in H. now apply Qlt_irrefl in H. }
      rewrite Ht'. simpl. f_equal. apply Qlt_bool_false. now apply Qlt_le_weak.
  - intros [= H]. apply Z.ltb_lt in H. f_equal. apply Z.ltb_ge. lia.
Qed.

Lemma overtaken_lower now e b :
  priority e = 0 -> (enqueue_time e == now)%Q -> overtaken_at now b ->
  PriorityQueue.lt e b = Some true.
Proof.
  unfold overtaken_at, enqueue_time, PriorityQueue.lt. intros Hp He Hb.
  destruct (Z.eqb_spec (priority e) (priority b)) as [E | E]; simpl.
  - destruct Hb as [Hb | [_ Hb]]; [lia|].
    assert (Hlt : (neg_time e < neg_time b)%Q).
    { rewrite <- He in Hb. apply Qopp_lt_compat in Hb.
      now rewrite !Qopp_involutive in Hb. }
    assert (Ht : Qeq_bool (neg_time e) (neg_time b) = false).
    { destruct (Qeq_bool _ _) eqn:E'; [|reflexivity].
      apply Qeq_bool_iff in E'. rewrite E' in Hlt. now apply Qlt_irrefl in Hlt. }
    rewrite Ht. simpl. f_equal. now apply Qlt_bool_true.
  - f_equal. apply Z.ltb_lt. destruct Hb as [Hb | [Hb _]]; lia.
Qed.

(** X22.  When [force_analysis] is given the path of a document that
    exists, the queue has no two entries that tie, and every entry of it
    has a higher priority number than 0 or is an earlier forced task, the
    next turn of the task processor takes the forced task of that document
    and leaves in the queue the entries that were there before the
    call. *)
Theorem forced_task_is_taken_next (s : Service) (p : string) (files : list string) :
  p <> "" ->
  exists_ (world s) p = true ->
  tie_free (task_queue s) ->
  Forall (overtaken_at (clock (S (clock_reads (world s))))) (task_queue s) ->
  let s1 := force_analysis clock (Some p) files s in
  exists t,
    fst (_task_processor_step clock ollama md5 s1) = Some t
    /\ file_path t = p /\ task_type t = "forced"
    /\ Permutation (task_queue (snd (_task_processor_step clock ollama md5 s1)))
                   (task_queue s).
Proof.
  intros Hp Hex Hfree Hall s1.
  set (e := queued_entry clock s p 0 "forced").
  assert (Hlow : Forall (fun b => PriorityQueue.lt e b = Some true) (task_queue s)).
  { eapply Forall_impl; [exact Hall|]. intros b Hb.
    apply (overtaken_lower (clock (S (clock_reads (world s))))); [reflexivity | | exact Hb].
    unfold enqueue_time, e, queued_entry. simpl. apply Qopp_involutive. }
  destruct (heappush_lowest (task_queue s) e Hlow) as (h' & Hpush & H0 & Hperm).
  assert (Hq : task_queue s1 = h').
  { unfold s1, force_analysis. apply String.eqb_neq in Hp. rewrite Hp, Hex. simpl.
    unfold _queue_analysis_task. simpl. unfold PriorityQueue.put.
    fold (queued_entry clock s p 0 "forced"). fold e. now rewrite Hpush. }
  assert (Hfree' : tie_free (task_queue s1)).
  { rewrite Hq. eapply tie_free_perm; [symmetry; exact Hperm|].
    apply tie_free_cons; [assumption|]. intros b Hb.
    rewrite List.Forall_forall in Hlow. specialize (Hlow b Hb).
    rewrite Hlow, (lt_true_flip e b Hlow). split; discriminate. }
  rewrite <- Hq in H0.
  destruct (processor_step_takes clock ollama md5 s1 e Hfree' H0) as [Htask Hrest].
  exists (task e). rewrite Htask. repeat split.
  apply Permutation_cons_inv with (a := e). rewrite Hrest, Hq. exact Hperm.
Qed.

(** *** Emptying the queue *)

Lemma process_turns_drain n : forall s,
  heap_ok (task_queue s) -> tie_free (task_queue s) ->
  length (task_queue s) = n ->
  fst (process_turns clock ollama md5 n s) = map task (drain n (task_queue s))
  /\ task_queue (snd (process_turns clock ollama md5 n s)) = [].
Proof.
  induction n as [| n IH]; intros s Hok Hfree Hlen.
  - simpl. split; [reflexivity|]. now destruct (task_queue s).
  - assert (Hne : task_queue s <> []) by (destruct (task_queue s); [discriminate | congruence]).
    destruct (heappop_heap (task_queue s) Hok Hfree Hne)
      as (e & q' & Hpop & H0 & _ & Hperm & Hok').
    cbn [process_turns drain]. unfold PriorityQueue.get at 1. rewrite Hpop.
    assert (Hstep : _task_processor_step clock ollama md5 s
                    = (Some (task e),
                       _process_analysis_task clock ollama md5 (set_task_queue q' s) (task e))).
    { unfold _task_processor_step, PriorityQueue.get. rewrite Hpop.
      destruct (task_queue s); [contradiction | reflexivity]. }
    rewrite Hstep.
    set (s1 := _process_analysis_task clock ollama md5 (set_task_queue q' s) (task e)).
    assert (Hq1 : task_queue s1 = q') by (unfold s1; now rewrite process_keeps_queue).
    assert (Hlen' : length (task_queue s1) = n).
    { rewrite Hq1. apply Permutation_length in Hperm. simpl in Hperm. lia. }
    destruct (IH s1) as [Htaken Hempty]; try assumption.
    { now rewrite Hq1. }
    { rewrite Hq1. exact (tie_free_tail _ _ _ Hfree Hperm). }
    destruct (process_turns clock ollama md5 n s1) as [later s2]. simpl in *.
    split; [|assumption]. now rewrite Htaken, Hq1.
Qed.

(** X23.  When the queue is a heap in which no two entries tie, as many
    turns of the task processor as there are entries in the queue empty
    it: each queued task is taken exactly once, the tasks are taken in the
    order of the queue (ascending priority number, and within one
    priority the latest enqueued first), whatever the analyzer replies to
    each of them. *)
Theorem processor_empties_queue (s : Service) :
  heap_ok (task_queue s) -> tie_free (task_queue s) ->
  let n := length (task_queue s) in
  let taken := fst (process_turns clock ollama md5 n s) in
  taken = map task (drain n (task_queue s))
  /\ Permutation taken (map task (task_queue s))
  /\ StronglySorted precedes (drain n (task_queue s))
  /\ task_queue (snd (process_turns clock ollama md5 n s)) = [].
Proof.
  intros Hok Hfree. cbv zeta.
  destruct (process_turns_drain (length (task_queue s)) s Hok Hfree eq_refl) as [Ht He].
  destruct (drain_sorted (length (task_queue s)) (task_queue s) Hok Hfree eq_refl)
    as [Hperm Hsorted].
  split; [exact Ht|]. split; [|split; assumption].
  rewrite Ht. now apply Permutation_map.
Qed.

(** *** The queue under a rising clock *)

Lemma rising_le m n : rising clock -> (m <= n)%nat -> (clock m <= clock n)%Q.
Proof.
  intros Hrise Hle. destruct (Nat.eq_dec m n) as [-> | Hne]; [apply Qle_refl|].
  apply Qlt_le_weak, Hrise. lia.
Qed.

Lemma in_time_later (q : list Entry) m n :
  rising clock -> (m <= n)%nat ->
  Forall (fun e => (enqueue_time e < clock m)%Q) q ->
  Forall (fun e => (enqueue_time e < clock n)%Q) q.
Proof.
  intros Hrise Hle Hall. eapply Forall_impl; [exact Hall|]. intros e He.
  eapply Qlt_le_trans; [exact He | now apply rising_le].
Qed.

Lemma queue_task_sound s p pr ty :
  rising clock -> sound clock s ->
  raised (_queue_analysis_task clock s p pr ty) = false
  /\ sound clock (_queue_analysis_task clock s p pr ty).
Proof.
  intros Hrise (Hok & Hfree & Htime).
  destruct (queue_task_calm clock s p pr ty Hrise Htime) as [Hno Htime'].
  split; [assumption|].
  destruct (queue_task_spec clock s p pr ty) as (Hperm & _).
  apply queue_task_raised in Hno as (q & Hput).
  assert (Hq : task_queue (_queue_analysis_task clock s p pr ty) = q).
  { unfold _queue_analysis_task, queued_entry in *. simpl in *. now rewrite Hput. }
  split; [|split; [|assumption]].
  - rewrite Hq. exact (heappush_heap _ _ _ Hok Hput).
  - eapply tie_free_perm; [symmetry; exact Hperm|].
    apply tie_free_cons; [assumption|]. intros b Hb.
    apply lt_times. intros Heq.
    assert (Hfresh : PriorityQueue.lt (queued_entry clock s p pr ty) b <> None).
    { apply (in_time_fresh clock s); try assumption.
      unfold enqueue_time, queued_entry. simpl. apply Qopp_involutive. }
    unfold in_time in Htime. rewrite List.Forall_forall in Htime. specialize (Htime b Hb).
    pose proof (Hrise (clock_reads (world s)) (S (clock_reads (world s))) ltac:(lia)) as Hlt.
    apply (Qlt_irrefl (enqueue_time b)).
    eapply Qlt_le_trans; [exact (Qlt_trans _ _ _ Htime Hlt)|].
    apply Qle_lteq. right. rewrite <- Heq.
    unfold enqueue_time, queued_entry. simpl. symmetry. apply Qopp_involutive.
Qed.

Lemma scan_file_sound s p :
  rising clock -> sound clock s -> sound clock (scan_file clock md5 s p).
Proof.
  intros Hrise Hs.
  destruct (scan_file_cases clock md5 s p) as [| h | h pr ty _ _ _ _ _ | h pr ty _ _ _ _ _];
    simpl; try assumption; apply (queue_task_sound s p pr ty Hrise Hs).
Qed.

Lemma scan_loop_sound files : forall s,
  rising clock -> sound clock s -> sound clock (scan_loop clock md5 files s).
Proof.
  induction files as [| p files IH]; intros s Hrise Hs; cbn [scan_loop]; cbv zeta;
    [assumption|].
  pose proof (scan_file_sound s p Hrise Hs) as Hs'.
  destruct (raised (scan_file clock md5 s p)); [assumption | now apply IH].
Qed.

Lemma force_all_sound files : forall s,
  rising clock -> sound clock s ->
  raised (force_all clock files s) = false /\ sound clock (force_all clock files s).
Proof.
  induction files as [| f files IH]; intros s Hrise Hs; cbn [force_all]; cbv zeta.
  - split; [reflexivity | assumption].
  - destruct (_should_process_file s f); [|now apply IH].
    destruct (queue_task_sound s f 0 "forced" Hrise Hs) as [Hno Hs']. rewrite Hno.
    now apply IH.
Qed.

Lemma process_task_reads s t :
  (clock_reads (world s)
   <= clock_reads (world (_process_analysis_task clock ollama md5 s t)))%nat.
Proof.
  unfold _process_analysis_task.
  assert (H : (clock_reads (world s)
               <= clock_reads (snd (OllamaClient.analyze_file_content
                                      clock ollama (world s) (file_path t))))%nat).
  { unfold OllamaClient.analyze_file_content.
    destruct (read_text (world s) (file_path t)); simpl; [|lia].
    destruct (Py.truthy _); simpl; [|lia].
    destruct (OllamaClient.extract_json_from_response _); simpl; lia. }
  destruct (OllamaClient.analyze_file_content clock ollama (world s) (file_path t))
    as [[a|] w1]; simpl in *; [|assumption].
  destruct (DatabaseManager.save_analysis _ _ _); simpl; lia.
Qed.

(** Let the clock rise from one reading to the next, and the queue
    be a heap without ties whose entries were enqueued before the next
    reading, as the empty queue of a new service is.  Then a scan, a
    forced analysis and a turn of the task processor leave it such a heap,
    and none of them raises: the scan counts no error, [force_analysis]
    returns, and the turn of the task processor takes the first entry of
    the heap, which precedes all the others. *)
Theorem queue_stays_sound (s : Service) (files : list string) (path : option string) :
  rising clock -> sound clock s ->
  (sound clock (_scan_vault_files clock md5 files s)
   /\ errors (processing_stats (_scan_vault_files clock md5 files s))
      = errors (processing_stats s))
  /\ (sound clock (force_analysis clock path files s)
      /\ raised (force_analysis clock path files s) = false)
  /\ (sound clock (snd (_task_processor_step clock ollama md5 s))
      /\ forall e, task_queue s !! 0%nat = Some e ->
           fst (_task_processor_step clock ollama md5 s) = Some (task e)
           /\ Forall (precedes e) (task_queue s)
           /\ Permutation (e :: task_queue (snd (_task_processor_step clock ollama md5 s)))
                          (task_queue s)).
Proof.
  intros Hrise Hs. split; [|split].
  - pose proof (scan_loop_sound files s Hrise Hs) as Hs'.
    destruct Hs as (_ & _ & Htime).
    destruct (scan_loop_calm clock md5 files s Hrise Htime) as [Hno _].
    unfold _scan_vault_files. cbv zeta. rewrite Hno. split; [assumption|].
    clear Hs' Hno Htime. revert s. induction files as [| p files IH]; intros s;
      cbn [scan_loop]; cbv zeta; [reflexivity|].
    assert (Hst : processing_stats (scan_file clock md5 s p) = processing_stats s).
    { destruct (scan_file_cases clock md5 s p) as [| h | h pr ty | h pr ty]; simpl;
        try reflexivity; apply (queue_task_spec clock s p pr ty). }
    destruct (raised (scan_file clock md5 s p)); [now rewrite Hst|].
    rewrite IH. now rewrite Hst.
  - unfold force_analysis.
    destruct path as [p|]; [|destruct (force_all_sound files s Hrise Hs); auto].
    destruct (negb (String.eqb p "")); [|destruct (force_all_sound files s Hrise Hs); auto].
    destruct (exists_ (world s) p); [|split; [assumption | reflexivity]].
    destruct (queue_task_sound s p 0 "forced" Hrise Hs); auto.
  - destruct Hs as (Hok & Hfree & Htime).
    unfold _task_processor_step.
    destruct (task_queue s) as [| x q] eqn:Hq.
    { simpl. split; [repeat split; try assumption; now rewrite Hq|].
      intros e He. discriminate. }
    simpl negb. cbv iota.
    destruct (heappop_heap (x :: q) Hok Hfree ltac:(discriminate))
      as (e & q' & Hpop & H0 & Hall & Hperm & Hok').
    unfold PriorityQueue.get. rewrite Hpop. simpl. split.
    + split; [|split].
      * now rewrite process_keeps_queue.
      * rewrite process_keeps_queue. exact (tie_free_tail _ _ _ Hfree Hperm).
      * unfold in_time in *. rewrite process_keeps_queue. simpl.
        eapply in_time_later; [assumption | apply process_task_reads|]. simpl.
        rewrite Hq in Htime. rewrite List.Forall_forall in *. intros b Hb.
        apply Htime. apply (Permutation_in _ Hperm). now right.
    + intros e' [= <-]. simpl in H0. injection H0 as <-.
      split; [reflexivity|]. split; [assumption|]. now rewrite process_keeps_queue.
Qed.

End ForcedFirst.

(** ** An unchanged document under a rising clock *)

Section Once.

Variable clock : nat -> Q.
Variable ollama : nat -> Run.
Variable md5 : text -> string.

Lemma at_most_once_perm p h added added' s :
  Permutation added added' -> at_most_once p h added s -> at_most_once p h added' s.
Proof.
  intros Hp [Hnone | [Hone Hb]].
  - left. apply nil_perm. rewrite <- Hnone. apply entries_for_perm. now symmetry.
  - right. split; [|assumption].
    rewrite <- Hone. apply Permutation_length, entries_for_perm. now symmetry.
Qed.

Lemma scan_file_once s p bytes p' added :
  rising clock -> in_time clock s ->
  holds_bytes p bytes (vault (world s)) ->
  at_most_once p (md5 bytes) added s ->
  exists more,
    Permutation (task_queue (scan_file clock md5 s p')) (more ++ task_queue s)
    /\ at_most_once p (md5 bytes) (more ++ added) (scan_file clock md5 s p').
Proof.
  intros Hrise Htime Hbytes Hinv.
  destruct (scan_file_calm clock md5 s p' Hrise Htime) as [Hno _].
  destruct (String.eqb_spec p' p) as [-> | Hne].
  - assert (Hmd5 : forall h, _get_file_hash md5 (world s) p = Some h -> h = md5 bytes).
    { intros h Hh. unfold _get_file_hash, read_text_ignore in Hh.
      destruct (vault (world s) !! p) as [f|] eqn:Hf; [|discriminate].
      rewrite (Hbytes f Hf) in Hh. simpl in Hh. congruence. }
    destruct (scan_file_cases clock md5 s p)
      as [| h Hp Hh Hne Hk | h pr ty Hp Hh Hne Hk Hr | h pr ty Hp Hh Hne Hk Hr].
    + exists []. split; [reflexivity | assumption].
    + exists []. split; [reflexivity|].
      destruct Hinv as [Hnone | [Hone Hbase]]; [now left | right].
      split; [assumption|]. simpl. rewrite lookup_insert_eq. congruence.
    + rewrite (Hmd5 h Hh) in *.
      exists [queued_entry clock s p pr ty]. split.
      * apply (queue_task_spec clock s p pr ty).
      * destruct Hinv as [Hnone | [Hone Hbase]].
        -- right. split.
           ++ rewrite entries_for_app, Hnone. unfold entries_for. simpl.
              now rewrite String.eqb_refl.
           ++ simpl. now rewrite lookup_insert_eq.
        -- exfalso. destruct Hk as [(Hk & _) | ((k & Hk & Hkh) & _)]; congruence.
    + simpl in Hno. congruence.
  - destruct (scan_file_adds clock md5 s p') as (more & Hq & Hmore).
    exists more. split; [assumption|].
    assert (Hnil : entries_for p more = []).
    { apply (entries_for_others p p'); [assumption|].
      eapply Forall_impl; [exact Hmore|]. now intros e (He & _). }
    unfold at_most_once. rewrite entries_for_app, Hnil. simpl.
    destruct Hinv as [Hnone | [Hone Hb]]; [now left | right].
    split; [assumption|]. now rewrite scan_file_other.
Qed.

Lemma scan_loop_once files : forall s p bytes added,
  rising clock -> in_time clock s ->
  holds_bytes p bytes (vault (world s)) ->
  at_most_once p (md5 bytes) added s ->
  exists more,
    Permutation (task_queue (scan_loop clock md5 files s)) (more ++ task_queue s)
    /\ at_most_once p (md5 bytes) (more ++ added) (scan_loop clock md5 files s).
Proof.
  induction files as [| p' files IH]; intros s p bytes added Hrise Htime Hbytes Hinv;
    cbn [scan_loop]; cbv zeta.
  - exists []. split; [reflexivity | assumption].
  - destruct (scan_file_once s p bytes p' added Hrise Htime Hbytes Hinv)
      as (m1 & Hq1 & Hinv1).
    destruct (scan_file_calm clock md5 s p' Hrise Htime) as [Hno Htime']. rewrite Hno.
    destruct (scan_file_frame clock md5 s p') as (_ & Hvault & _).
    destruct (IH (scan_file clock md5 s p') p bytes (m1 ++ added) Hrise Htime')
      as (m2 & Hq2 & Hinv2).
    + now rewrite Hvault.
    + assumption.
    + exists (m2 ++ m1). split.
      * rewrite Hq2, Hq1. now rewrite app_assoc.
      * now rewrite <- app_assoc.
Qed.

Lemma process_keeps_baseline s t :
  file_hashes (_process_analysis_task clock ollama md5 s t) = file_hashes s.
Proof.
  unfold _process_analysis_task.
  destruct (OllamaClient.analyze_file_content clock ollama (world s) (file_path t))
    as [[a|] w1]; simpl; [|reflexivity].
  destruct (DatabaseManager.save_analysis _ _ _); reflexivity.
Qed.

Lemma processor_step_keeps_baseline s :
  file_hashes (snd (_task_processor_step clock ollama md5 s)) = file_hashes s.
Proof.
  unfold _task_processor_step.
  destruct (negb _); [|reflexivity].
  destruct (PriorityQueue.get (task_queue s)) as [e q | q |]; try reflexivity.
  simpl. now rewrite process_keeps_baseline.
Qed.

(** A turn of the task processor takes entries from the queue and reads
    the clock: what is left was enqueued before the next reading. *)
Lemma processor_step_in_time s :
  rising clock -> in_time clock s ->
  in_time clock (snd (_task_processor_step clock ollama md5 s)).
Proof.
  intros Hrise Htime. unfold _task_processor_step.
  destruct (negb _); [|assumption].
  pose proof (heappop_perm (task_queue s)) as Hpop. unfold PriorityQueue.get.
  unfold in_time in *. rewrite List.Forall_forall in Htime.
  destruct (PriorityQueue.heappop (task_queue s)) as [e q | q |]; simpl;
    [| |now apply List.Forall_forall].
  - destruct Hpop as [Hperm _]. rewrite process_keeps_queue. simpl.
    eapply in_time_later;
      [assumption | apply (process_task_reads clock ollama md5 (set_task_queue q s))|].
    simpl. apply List.Forall_forall. intros b Hb. apply Htime.
    apply (Permutation_in _ Hperm). now right.
  - destruct Hpop as (e & Hperm & _).
    apply List.Forall_forall. intros b Hb. apply Htime.
    apply (Permutation_in _ Hperm). now right.
Qed.

Lemma run_once actions : forall s p bytes log,
  rising clock -> in_time clock s ->
  Forall (holds_bytes p bytes) (scanned actions) ->
  at_most_once p (md5 bytes) log s ->
  at_most_once p (md5 bytes) (snd (run clock ollama md5 actions s log))
               (fst (run clock ollama md5 actions s log)).
Proof.
  induction actions as [| [v files | v] actions IH];
    intros s p bytes log Hrise Htime Hall Hinv; simpl.
  - assumption.
  - inversion Hall as [| ? ? Hv Hrest]; subst.
    set (s0 := set_world (set_vault v (world s)) s).
    assert (Htime0 : in_time clock s0) by exact Htime.
    destruct (scan_loop_once files s0 p bytes log Hrise Htime0 Hv Hinv)
      as (more & Hq & Hinv1).
    destruct (scan_calm clock md5 files s0 Hrise Htime0) as [Hscan Htime1].
    apply IH; try assumption. rewrite Hscan.
    eapply at_most_once_perm; [|exact Hinv1].
    apply Permutation_app_tail. symmetry. apply enqueued_by_perm.
    now rewrite <- Hscan in Hq |- *.
  - apply IH; try assumption.
    + now apply (processor_step_in_time (set_world (set_vault v (world s)) s)).
    + destruct Hinv as [Hnone | [Hone Hbase]]; [now left | right].
      split; [assumption|]. now rewrite processor_step_keeps_baseline.
Qed.

(** X29.  Let scans and turns of the task processor follow one another in
    any order, the world moving on before each of them, under a clock
    that rises from one reading to the next, the entries of the queue
    having been enqueued before its next reading.  A document whose bytes
    are the same at every scan is enqueued by the scans at most once in
    total, whatever becomes of the tasks. *)
Theorem unchanged_enqueued_once_on_rising_clock
    (actions : list Action) (s : Service) (p : string) (bytes : text) :
  rising clock -> in_time clock s ->
  Forall (holds_bytes p bytes) (scanned actions) ->
  (length (entries_for p (snd (run clock ollama md5 actions s []))) <= 1)%nat.
Proof.
  intros Hrise Htime Hall.
  destruct (run_once actions s p bytes [] Hrise Htime Hall) as [-> | [-> _]];
    [now left | |]; simpl; lia.
Qed.

End Once.


(** ** Objects in prose *)

Section ObjectsInProse.

Lemma findall_skips_prose rest : forall pre,
  no_opening pre = true ->
  OllamaClient.findall_from 0 (pre ++ rest) = OllamaClient.findall_from 0 rest.
Proof.
  induction pre as [| c pre IH]; simpl; [reflexivity|].
  intros H. apply andb_true_iff in H as [Hc Hpre]. apply negb_true_iff in Hc.
  rewrite Hc. now apply IH.
Qed.

(** X24.  When the whole reply does not decode but consists of prose
    with no opening brace, then an object whose braces nest at most once,
    then any text, the result is what the object decodes to. *)
Theorem object_in_prose_is_extracted (pre body post : text) (v : value) :
  no_opening pre = true ->
  shallow false body = true ->
  Json.loads (pre ++ braced body ++ post) = None ->
  Json.loads (braced body) = Some v ->
  OllamaClient.extract_json_from_response (Some (pre ++ braced body ++ post)) = v.
Proof.
  intros Hpre Hbody Hwhole Hobject.
  assert (Hfind : exists rest,
             OllamaClient.findall (pre ++ braced body ++ post) = braced body :: rest).
  { unfold OllamaClient.findall. rewrite (findall_skips_prose _ pre Hpre).
    pose proof (match_at_braced body post Hbody) as Hm.
    destruct (braced body ++ post) as [| c r] eqn:Hr; [discriminate|].
    cbn [OllamaClient.findall_from]. rewrite Hm. eauto. }
  destruct Hfind as (rest & Hfind).
  unfold OllamaClient.extract_json_from_response.
  destruct (pre ++ braced body ++ post) as [| c r] eqn:Hr.
  - apply (f_equal (@length ascii)) in Hr. rewrite !length_app in Hr.
    unfold braced in Hr. simpl in Hr. lia.
  - rewrite Hwhole, Hfind. simpl. now rewrite Hobject.
Qed.

End ObjectsInProse.

(** ** The link is in the document *)

Section LinkWritten.

Variable str_of : value -> text.

Lemma contains_nil old : old <> [] -> Text.contains old [] = false.
Proof. destruct old; [contradiction | reflexivity]. Qed.

(** Where [old] occurs, [replace] puts [new]. *)
Lemma replace_first old new : old <> [] -> forall s,
  Text.contains old s = true ->
  exists pre post, Text.replace old new s = pre ++ new ++ post.
Proof.
  intros Hold. unfold Text.replace. induction s as [| c s IH]; intros H.
  - rewrite (contains_nil old Hold) in H. discriminate.
  - cbn [Text.replace_from].
    destruct (Text.starts_with old (c :: s)) eqn:Hstart.
    + exists [], (Text.replace_from old new (length old - 1) s). reflexivity.
    + cbn [Text.contains] in H. rewrite Hstart in H. simpl in H.
      destruct (IH H) as (pre & post & ->). now exists (c :: pre), post.
Qed.

Lemma linked_contains content link :
  exists pre post header,
    (header = RELATED_NOTES \/ header = SEE_ALSO)
    /\ linked content link = pre ++ header ++ post
    /\ exists pre' post', linked content link = pre' ++ link ++ post'.
Proof.
  destruct related_nonempty as [Hrel Hsee]. unfold linked.
  destruct (Text.contains RELATED_NOTES content) eqn:H1.
  - destruct (replace_first RELATED_NOTES (RELATED_NOTES ++ Text.LF :: link) Hrel _ H1)
      as (pre & post & ->).
    exists pre, (Text.LF :: link ++ post), RELATED_NOTES. split; [now left|]. split.
    + now rewrite <- !app_assoc.
    + exists (pre ++ RELATED_NOTES ++ [Text.LF]), post.
      rewrite <- !app_assoc. reflexivity.
  - destruct (Text.contains SEE_ALSO content) eqn:H2.
    + destruct (replace_first SEE_ALSO (SEE_ALSO ++ Text.LF :: link) Hsee _ H2)
        as (pre & post & ->).
      exists pre, (Text.LF :: link ++ post), SEE_ALSO. split; [now right|]. split.
      * now rewrite <- !app_assoc.
      * exists (pre ++ SEE_ALSO ++ [Text.LF]), post.
        rewrite <- !app_assoc. reflexivity.
    + exists (Text.rstrip content ++ [Text.LF; Text.LF]),
             ([Text.LF; Text.LF] ++ link ++ [Text.LF]), RELATED_NOTES.
      split; [now left|]. split.
      * now rewrite <- !app_assoc.
      * exists (Text.rstrip content ++ [Text.LF; Text.LF] ++ RELATED_NOTES
                ++ [Text.LF; Text.LF]), [Text.LF].
        rewrite <- !app_assoc. reflexivity.
Qed.

(** X25.  After a successful apply, whatever headers the source document
    had and however often, the document contains the link line of the
    connection and one of the two headers. *)
Theorem applied_link_is_in_document (s s' : Service) (c c' : Connection) :
  _apply_connection str_of s c = (true, s', c') ->
  exists written,
    read_text (world s') (source_file c) = Some written
    /\ Text.contains (link_text str_of c) written = true
    /\ (Text.contains RELATED_NOTES written = true
        \/ Text.contains SEE_ALSO written = true).
Proof.
  intros Happly.
  destruct (apply_success str_of s c s' c' Happly) as (content & _ & Hwritten & _).
  exists (linked content (link_text str_of c)). split; [assumption|].
  destruct (linked_contains content (link_text str_of c))
    as (pre & post & header & Hheader & Hh & pre' & post' & Hl).
  split.
  - rewrite Hl. apply contains_app.
  - rewrite Hh. destruct Hheader as [-> | ->]; [left | right]; apply contains_app.
Qed.

End LinkWritten.

(** ** The status report *)

Section StatusReport.

Variable clock : nat -> Q.

Lemma max_1_spec x : (1 <= max_1 x)%Q /\ (x <= max_1 x)%Q
                     /\ ((x <= 1)%Q -> max_1 x == 1) /\ ((1 <= x)%Q -> max_1 x == x).
Proof.
  unfold max_1. destruct (Py.Qlt_bool x 1) eqn:H.
  - apply Qlt_bool_true in H. split; [|split; [|split]].
    + apply Qle_refl.
    + now apply Qlt_le_weak.
    + intros _. reflexivity.
    + intros H1. exfalso. eapply Qlt_not_le; eassumption.
  - apply Qlt_bool_false in H. split; [|split; [|split]].
    + assumption.
    + apply Qle_refl.
    + intros H1. now apply Qle_antisym.
    + intros _. reflexivity.
Qed.

Lemma rate_bounded (n : Z) (hours : Q) :
  0 <= n ->
  (0 <= inject_Z n / max_1 hours)%Q
  /\ (inject_Z n / max_1 hours <= inject_Z n)%Q
  /\ ((hours <= 1)%Q -> inject_Z n / max_1 hours == inject_Z n)
  /\ ((1 <= hours)%Q -> inject_Z n / max_1 hours * hours == inject_Z n).
Proof.
  intros Hn. destruct (max_1_spec hours) as (H1 & _ & Hfirst & Hlater).
  assert (Hpos : (0 < max_1 hours)%Q) by (eapply Qlt_le_trans; [|exact H1]; reflexivity).
  assert (Hne : ~ max_1 hours == 0) by (intros E; rewrite E in Hpos; discriminate).
  assert (Hq : (0 <= inject_Z n)%Q) by (change 0%Q with (inject_Z 0); now rewrite <- Zle_Qle).
  split; [|split; [|split]].
  - apply Qle_shift_div_l; [assumption|]. now rewrite Qmult_0_l.
  - apply Qle_shift_div_r; [assumption|].
    rewrite <- (Qmult_1_r (inject_Z n)) at 1.
    rewrite (Qmult_comm (inject_Z n) 1), (Qmult_comm (inject_Z n) (max_1 hours)).
    now apply Qmult_le_compat_r.
  - intros H. rewrite (Hfirst H). field.
  - intros H. rewrite (Hlater H). field. intros E. rewrite E in H.
    revert H. apply Qlt_not_le. reflexivity.
Qed.

(** X26.  [get_status] never divides by zero.  With counters that are
    not negative, the hourly rates it reports are between 0 and the
    totals; during the first hour of uptime they are the totals
    themselves, and from then on they are the totals divided by the
    uptime in hours. *)
Theorem status_rates_are_bounded (start_time : Q) (is_running : bool)
    (threads : list bool) (s : Service) :
  0 <= files_processed (processing_stats s) ->
  0 <= connections_found (processing_stats s) ->
  let report := fst (get_status clock start_time is_running threads s) in
  let files := inject_Z (files_processed (processing_stats s)) in
  let found := inject_Z (connections_found (processing_stats s)) in
  (0 <= files_per_hour report <= files)%Q
  /\ (0 <= connections_per_hour report <= found)%Q
  /\ ((uptime_hours report <= 1)%Q ->
      files_per_hour report == files /\ connections_per_hour report == found)
  /\ ((1 <= uptime_hours report)%Q ->
      files_per_hour report * uptime_hours report == files
      /\ connections_per_hour report * uptime_hours report == found)
  /\ (active_threads report <= length threads)%nat.
Proof.
  intros Hfiles Hfound. cbv zeta. unfold get_status. cbn -[Qdiv Qminus max_1 Qle Qeq Qmult].
  destruct (rate_bounded _ ((clock (clock_reads (world s)) - start_time) / 3600) Hfiles)
    as (A1 & A2 & A3 & A4).
  destruct (rate_bounded _ ((clock (clock_reads (world s)) - start_time) / 3600) Hfound)
    as (B1 & B2 & B3 & B4).
  repeat split; auto. apply List.filter_length_le.
Qed.

End StatusReport.

(** ** The properties on the scenarios *)

Section MoreWitnesses.

Import Scenario MoreScenarios.

Lemma clock_rises : rising clock.
Proof.
  intros m n H. unfold clock. rewrite <- Zlt_Qlt. lia.
Qed.

Lemma idle_sound : sound clock idle.
Proof.
  split; [|split].
  - intros i j a b Hi. discriminate Hi.
  - intros a b [].
  - apply List.Forall_nil.
Qed.

(** The baseline holds the hash of an older text of the first note, which
    the walk yields twice. *)
Lemma scan_enqueues_changed_once_witness :
  let s' := _scan_vault_files clock md5 [a_md; b_md; a_md] stale in
  file_hashes s' !! a_md = Some (md5 alpha)
  /\ exists e,
       entries_for a_md (enqueued_by stale s') = [e]
       /\ modified_file_entry a_md e.
Proof.
  cbv zeta.
  assert (Htime : in_time clock stale) by apply List.Forall_nil.
  assert (Hin : In a_md [a_md; b_md; a_md]) by (left; reflexivity).
  assert (Hp : _should_process_file stale a_md = true) by (vm_compute; reflexivity).
  assert (Hh : _get_file_hash md5 (world stale) a_md = Some (md5 alpha))
    by (vm_compute; reflexivity).
  assert (Hne : md5 alpha <> "") by (vm_compute; discriminate).
  assert (Hbase : file_hashes stale !! a_md <> Some (md5 alpha))
    by (vm_compute; discriminate).
  destruct (scan_enqueues_changed_once clock md5 _ stale a_md _ clock_rises Htime
              Hin Hp Hh Hne Hbase)
    as (Hb & e & He & Hkind).
  split; [exact Hb|]. exists e. split; [exact He|].
  assert (Hknown : file_hashes stale !! a_md = Some (md5 (lines ["# Alpha"])))
    by (vm_compute; reflexivity).
  rewrite Hknown in Hkind. exact Hkind.
Defined.

(** The walk yields the first note twice; its hash is its baseline. *)
Lemma scan_passes_over_witness :
  let s' := _scan_vault_files clock md5 [a_md; b_md; a_md] settled in
  entries_for a_md (enqueued_by settled s') = []
  /\ file_hashes s' !! a_md = file_hashes settled !! a_md.
Proof.
  cbv zeta.
  assert (Hh : _get_file_hash md5 (world settled) a_md = Some (md5 alpha))
    by (vm_compute; reflexivity).
  assert (Hbase : file_hashes settled !! a_md = Some (md5 alpha))
    by (vm_compute; reflexivity).
  apply (scan_passes_over clock md5 [a_md; b_md; a_md] settled a_md).
  right. exists (md5 alpha). split; assumption.
Defined.

(** A second scan of the two notes. *)
Lemma rescan_changes_nothing_witness :
  let s1 := _scan_vault_files clock md5 [a_md; b_md] idle in
  up_to_date md5 [a_md; b_md] s1
  /\ _scan_vault_files clock md5 [a_md; b_md] s1 = s1.
Proof.
  cbv zeta.
  assert (Htime : in_time clock idle) by apply List.Forall_nil.
  exact (rescan_changes_nothing clock md5 [a_md; b_md] idle clock_rises Htime).
Defined.

(** A new note under a directory "Temp", with the default exclusion list,
    in which the pattern is "temp". *)
Lemma refused_never_enqueued_witness :
  let s := init default_config vault_temp in
  _should_process_file s temp_md = false
  /\ entries_for temp_md (enqueued_by s (_scan_vault_files clock md5 [temp_md; a_md] s))
     = [].
Proof.
  cbv zeta.
  assert (H : _should_process_file (init default_config vault_temp) temp_md = false)
    by (vm_compute; reflexivity).
  split; [exact H|].
  exact (proj2 (refused_never_enqueued clock md5 (init default_config vault_temp)
                  temp_md [temp_md; a_md]) H).
Defined.

(** Three scans of a vault in which the note keeps its bytes, with turns
    of the task processor in between. *)
Lemma unchanged_enqueued_once_on_rising_clock_witness :
  let actions := [Scan vault0 [a_md; b_md]; Process vault0; Scan vault0 [b_md; a_md];
                  Process vault0; Process vault0; Scan vault0 [a_md]] in
  Forall (holds_bytes a_md alpha) (scanned actions)
  /\ (length (entries_for a_md (snd (run clock ollama_topic md5 actions idle []))) <= 1)%nat.
Proof.
  cbv zeta.
  assert (Htime : in_time clock idle) by apply List.Forall_nil.
  assert (H : holds_bytes a_md alpha vault0).
  { intros f Hf. vm_compute in Hf. injection Hf as <-. reflexivity. }
  assert (Hall : Forall (holds_bytes a_md alpha)
                   (scanned [Scan vault0 [a_md; b_md]; Process vault0;
                             Scan vault0 [b_md; a_md]; Process vault0; Process vault0;
                             Scan vault0 [a_md]]))
    by (repeat constructor; exact H).
  split; [exact Hall|].
  exact (unchanged_enqueued_once_on_rising_clock clock ollama_topic md5 _ idle a_md alpha
           clock_rises Htime Hall).
Defined.

Example unchanged_enqueued_once :
  map (fun e => (priority e, task_type (task e)))
      (entries_for a_md
         (snd (run clock ollama_topic md5
                   [Scan vault0 [a_md; b_md]; Process vault0; Scan vault0 [b_md; a_md];
                    Process vault0; Process vault0; Scan vault0 [a_md]] idle [])))
  = [(1, "new_file")].
Proof. vm_compute. reflexivity. Qed.

(** The auto-apply policy at the cap, for the best possible connection. *)
Lemma should_auto_apply_exactly_witness :
  max_per_hour (auto_apply (config capped)) <= counter_after_rollover clock capped
  /\ fst (_should_auto_apply_connection clock capped best) = Some false.
Proof.
  split; [vm_compute; discriminate|].
  apply (proj1 (should_auto_apply_exactly clock capped best)).
  vm_compute. discriminate.
Defined.

(** At the cap, a cycle that finds a connection good enough to apply. *)
Lemma cycle_keeps_hourly_cap_witness :
  within_cap (_connection_analyzer_cycle clock ollama_connection str_of classified_capped).
Proof.
  apply cycle_keeps_hourly_cap.
  - vm_compute. discriminate.
  - vm_compute. discriminate.
Defined.

(** The same connection, with auto-apply switched off. *)
Lemma disabled_cycle_writes_nothing_witness :
  let s' := _connection_analyzer_cycle clock ollama_connection str_of classified_disabled in
  same_documents classified_disabled s'
  /\ connections_applied (processing_stats s')
     = connections_applied (processing_stats classified_disabled).
Proof.
  cbv zeta. apply disabled_cycle_writes_nothing. reflexivity.
Defined.

(** A later analysis of the first note replaces the stored one. *)
Lemma saved_analysis_is_read_back_witness :
  exists table',
    DatabaseManager.save_analysis (file_analysis classified) (analysis a_md 990) (Some "h")
    = Some table'
    /\ DatabaseManager.get_analysis table' a_md = Some (analysis a_md 990)
    /\ rows_for a_md table'
       = [{| row_analysis := analysis a_md 990; content_hash := Some "h" |}]
    /\ forall p, p <> a_md ->
         DatabaseManager.get_analysis table' p
         = DatabaseManager.get_analysis (file_analysis classified) p.
Proof.
  assert (Hcells : stored_as_is (analysis a_md 990)).
  { split; [right; eexists; reflexivity|].
    split; [right; eexists; reflexivity|].
    right. eexists. split; [reflexivity|]. split; discriminate. }
  exact (saved_analysis_is_read_back (file_analysis classified) (analysis a_md 990)
                                     (Some "h") Hcells).
Defined.

(** Of the three rows, the strong one that is not marked applied is the
    pending one. *)
Lemma pending_connections_listed_witness :
  In best (DatabaseManager.get_pending_connections pending_table 6 (7 # 10))
  /\ ~ In weak (DatabaseManager.get_pending_connections pending_table 6 (7 # 10)).
Proof.
  assert (Hcells : Forall numeric_cells pending_table).
  { unfold pending_table.
    repeat (apply List.Forall_cons; [split; right; eexists; reflexivity|]).
    apply List.Forall_nil. }
  destruct (pending_connections_listed pending_table 6 (7 # 10) Hcells) as [Hin _].
  split.
  - apply Hin. split; [exists {| row_id := 2; row_connection := best; applied_at := None |};
                       split; [right; left; reflexivity | reflexivity]|].
    split; [reflexivity|]. split.
    + exists 10%Q. split; [reflexivity | discriminate].
    + exists 1%Q. split; [reflexivity | discriminate].
  - intros Hweak. apply Hin in Hweak as (_ & _ & (q & Hq & Hle) & _).
    injection Hq as <-. apply Hle. reflexivity.
Defined.

Lemma scanned_once_sound : sound clock scanned_once.
Proof.
  unfold scanned_once.
  destruct (scan_calm clock md5 [a_md; b_md] idle clock_rises) as [-> _];
    [apply idle_sound|].
  apply scan_loop_sound; [exact clock_rises | exact idle_sound].
Qed.

Lemma three_tasks_sound : sound clock three_tasks.
Proof.
  unfold three_tasks. cbv zeta.
  repeat (apply queue_task_sound; [exact clock_rises|]).
  exact idle_sound.
Qed.

(** Two scanned notes wait in the queue when the second is forced. *)
Lemma forced_task_is_taken_next_witness :
  let s1 := force_analysis clock (Some b_md) [] scanned_once in
  exists t,
    fst (_task_processor_step clock ollama_topic md5 s1) = Some t
    /\ file_path t = b_md /\ task_type t = "forced"
    /\ Permutation (task_queue (snd (_task_processor_step clock ollama_topic md5 s1)))
                   (task_queue scanned_once).
Proof.
  cbv zeta.
  assert (Hp : b_md <> "") by discriminate.
  assert (Hex : exists_ (world scanned_once) b_md = true) by (vm_compute; reflexivity).
  assert (Hfree : tie_free (task_queue scanned_once)) by apply scanned_once_sound.
  assert (Hall : Forall (overtaken_at (clock (S (clock_reads (world scanned_once)))))
                        (task_queue scanned_once)).
  { apply List.Forall_forall. intros e He. left.
    assert (Hq : map priority (task_queue scanned_once) = [1; 1])
      by (vm_compute; reflexivity).
    apply (in_map priority) in He. rewrite Hq in He.
    destruct He as [<- | [<- | []]]; reflexivity. }
  exact (forced_task_is_taken_next clock ollama_topic md5 scanned_once b_md [] Hp Hex
           Hfree Hall).
Defined.

(** Three tasks enqueued at priorities 1, 2, 1 at rising times: three
    turns of the task processor take them. *)
Lemma processor_empties_queue_witness :
  let taken := fst (process_turns clock ollama_topic md5 3 three_tasks) in
  taken = map task (drain 3 (task_queue three_tasks))
  /\ Permutation taken (map task (task_queue three_tasks))
  /\ StronglySorted precedes (drain 3 (task_queue three_tasks))
  /\ task_queue (snd (process_turns clock ollama_topic md5 3 three_tasks)) = [].
Proof.
  cbv zeta.
  assert (Hok : heap_ok (task_queue three_tasks)) by apply three_tasks_sound.
  assert (Hfree : tie_free (task_queue three_tasks)) by apply three_tasks_sound.
  exact (processor_empties_queue clock ollama_topic md5 three_tasks Hok Hfree).
Defined.

(** The third task, enqueued last at priority 1, is taken first, then the
    first, then the second, of priority 2. *)
Example three_tasks_taken :
  map (fun t => (file_path t, task_type t, queued_at t))
      (fst (process_turns clock ollama_topic md5 3 three_tasks))
  = [(three_md, "new_file", 1004%Q); (one_md, "new_file", 1000%Q);
     (two_md, "modified_file", 1002%Q)].
Proof. vm_compute. reflexivity. Qed.

(** A new service: a scan, a forced analysis and a turn of the task
    processor. *)
Lemma queue_stays_sound_witness :
  sound clock (_scan_vault_files clock md5 [a_md; b_md] idle)
  /\ errors (processing_stats (_scan_vault_files clock md5 [a_md; b_md] idle)) = 0
  /\ raised (force_analysis clock None [a_md; b_md] idle) = false.
Proof.
  destruct (queue_stays_sound clock ollama_topic md5 idle [a_md; b_md] None
              clock_rises idle_sound) as ((Hs & He) & (_ & Hr) & _).
  split; [exact Hs|]. split; [exact He | exact Hr].
Defined.

(** Prose around an object that holds an object. *)
Lemma object_in_prose_is_extracted_witness :
  OllamaClient.extract_json_from_response
    (Some (prose_before ++ braced nested_body ++ prose_after))
  = VDict [("primary_topic", VStr "Plans"); ("meta", VDict [("n", VNum 1)])].
Proof.
  apply object_in_prose_is_extracted.
  - vm_compute. reflexivity.
  - vm_compute. reflexivity.
  - vm_compute. reflexivity.
  - vm_compute. reflexivity.
Defined.

(** A note whose text mentions the header of its "Related Notes" section. *)
Lemma applied_link_is_in_document_witness :
  let s := init default_config vault_twice in
  exists written,
    read_text (world (snd (fst (_apply_connection str_of s best)))) a_md = Some written
    /\ Text.contains (link_text str_of best) written = true
    /\ (Text.contains RELATED_NOTES written = true
        \/ Text.contains SEE_ALSO written = true).
Proof.
  cbv zeta. set (s := init default_config vault_twice).
  assert (Hok : fst (fst (_apply_connection str_of s best)) = true)
    by (vm_compute; reflexivity).
  assert (Happly : _apply_connection str_of s best
                   = (true, snd (fst (_apply_connection str_of s best)),
                      snd (_apply_connection str_of s best))).
  { destruct (_apply_connection str_of s best) as [[ok s'] c']. simpl in *. now subst ok. }
  exact (applied_link_is_in_document str_of s _ best _ Happly).
Defined.

(** The analyzer exits with code 1 while the first note is processed. *)
Lemma failed_run_gives_nothing_witness :
  let t := {| file_path := a_md; task_type := "new_file"; queued_at := 0 |} in
  let s' := _process_analysis_task clock ollama_failing md5 idle t in
  fst (OllamaClient.analyze_file_content clock ollama_failing (world idle) a_md) = None
  /\ fst (OllamaClient.analyze_connection clock ollama_failing (world idle)
            (analysis a_md 950) (analysis b_md 900)) = None
  /\ file_analysis s' = file_analysis idle
  /\ errors (processing_stats s') = errors (processing_stats idle) + 1
  /\ files_processed (processing_stats s') = files_processed (processing_stats idle).
Proof.
  cbv zeta.
  assert (Hfail : next_run_fails ollama_failing (world idle)) by (left; discriminate).
  exact (failed_run_gives_nothing clock ollama_failing md5 idle
           {| file_path := a_md; task_type := "new_file"; queued_at := 0 |}
           (analysis a_md 950) (analysis b_md 900) Hfail).
Defined.

(** A quarter of an hour after the start. *)
Lemma status_rates_are_bounded_witness :
  let report := fst (get_status clock 100 true [true; true; false] busy) in
  (0 <= files_per_hour report <= 12)%Q
  /\ (0 <= connections_per_hour report <= 3)%Q
  /\ ((uptime_hours report <= 1)%Q ->
      files_per_hour report == 12 /\ connections_per_hour report == 3)
  /\ ((1 <= uptime_hours report)%Q ->
      files_per_hour report * uptime_hours report == 12
      /\ connections_per_hour report * uptime_hours report == 3)
  /\ (active_threads report <= 3)%nat.
Proof.
  cbv zeta.
  assert (Hfiles : 0 <= files_processed (processing_stats busy)) by (vm_compute; discriminate).
  assert (Hfound : 0 <= connections_found (processing_stats busy))
    by (vm_compute; discriminate).
  exact (status_rates_are_bounded clock 100 true [true; true; false] busy Hfiles Hfound).
Defined.

Example status_of_busy :
  let report := fst (get_status clock 100 true [true; true; false] busy) in
  uptime_hours report == 1 # 4
  /\ files_per_hour report == 12 /\ active_threads report = 2%nat
  /\ queue_size report = 0%nat /\ files_tracked report = 0%nat.
Proof. vm_compute. repeat split; reflexivity. Qed.

End MoreWitnesses.
